(** * Object I/O engine of noobaa-core: chunk splitter and upload/read paths

    A shallow embedding of
      - [src/native/chunk/splitter.cpp] (the content-defined chunk splitter),
      - [src/sdk/object_io.js] (upload part bookkeeping, read cache callbacks,
        part reconstruction, range assembly, semaphore error handling; the
        upload entry points, the readable stream and the read through the
        cache),
    together with the properties the design document states about them
    (C1 to C10) and further properties of the code (X1 on).

    Conventions.  The C++ [int]s of the splitter are integers of [Z]; the
    one sum that can overflow is checked, and [_next_point] has no result
    where it does.  The 64-bit [Rabin::Hash] is a [Z] with the wrap-around
    of its shifts and complements written out; the value of a shift by 64
    or more, undefined in C++, is a parameter of the model.  The JavaScript numbers that
    hold byte offsets, sizes, counts and clock values are integers below
    2^53, on which the arithmetic of doubles is exact; they are integers of
    [Z].  Buffers are lists of bytes.  A promise is the outcome it settles
    to: promise chains are run to completion in program order. *)

From Stdlib Require Import ZArith List Lia Bool String Sorted.
From Stdlib Require Import Strings.Byte.
From stdpp Require Import base list.
Import ListNotations.

#[local] Open Scope Z_scope.
#[local] Unset Default Proof Using.

(** ** The chunk splitter ([src/native/chunk/splitter.cpp]) *)

Module Splitter.

(** [#define NB_RABIN_POLY 021], [NB_RABIN_DEGREE 39], [NB_RABIN_WINDOW_LEN 16]. *)
Definition NB_RABIN_POLY : Z := 17.
Definition NB_RABIN_DEGREE : Z := 39.
Definition NB_RABIN_WINDOW_LEN : nat := 16.

(** The largest value of an [int].  Lengths and positions are [int]s; the
    one sum the splitter forms that can leave the range is
    [chunk_pos + len] in [_next_point], and doing so is undefined
    behaviour. *)
Definition INT_MAX : Z := 2147483647.

(** *** Arithmetic of [Rabin::Hash] (a [uint64_t]) *)

Definition HASH_BITS : Z := 64.

(** [~x] on a 64-bit unsigned value. *)
Definition hash_not (x : Z) : Z := Z.lxor x (Z.ones HASH_BITS).

Section Shift.

(** A shift of a 64-bit value by a count that is negative, or 64 or more,
    is undefined in C++.  What the compiled code computes for it is left
    open: it is this parameter, of which only the 64 low bits are kept. *)
Variable shl_undefined : Z -> Z -> Z.

(** [x << n] on a 64-bit unsigned value: for a count inside the width,
    the bits shifted out are lost. *)
Definition hash_shl (x n : Z) : Z :=
  Z.land (if (0 <=? n) && (n <? HASH_BITS) then Z.shiftl x n else shl_undefined x n)
         (Z.ones HASH_BITS).

(** [const Rabin::Hash avg_chunk_mask = ~(~((Rabin::Hash)0) << _avg_chunk_bits);] *)
Definition avg_chunk_mask (avg_chunk_bits : Z) : Z :=
  hash_not (hash_shl (hash_not 0) avg_chunk_bits).

(** [const Rabin::Hash avg_chunk_val = ~((Rabin::Hash)0) & avg_chunk_mask;] *)
Definition avg_chunk_val (avg_chunk_bits : Z) : Z :=
  Z.land (hash_not 0) (avg_chunk_mask avg_chunk_bits).

End Shift.

(** *** Message digests

    The splitter feeds the raw bytes to OpenSSL's [EVP_Digest*] interface.
    The library is external; what the splitter relies on is its streaming
    contract: updating with two buffers in turn is updating with their
    concatenation, and an empty update changes nothing. *)

Record EVP_MD : Type := {
  md_ctx : Type;
  md_value : Type;
  DigestInit : md_ctx;
  DigestUpdate : md_ctx -> list byte -> md_ctx;
  DigestFinal : md_ctx -> md_value;
  DigestUpdate_nil : forall c, DigestUpdate c [] = c;
  DigestUpdate_app : forall c a b,
    DigestUpdate (DigestUpdate c a) b = DigestUpdate c (a ++ b)
}.

(** The digest of a whole message, computed in one go. *)
Definition digest_of (md : EVP_MD) (msg : list byte) : md_value md :=
  DigestFinal md (DigestUpdate md (DigestInit md) msg).

Section WithEnvironment.

(** What the shift that makes the mask yields when [avg_chunk_bits] is 64
    or more (see [hash_shl]). *)
Variable shl_undefined : Z -> Z -> Z.

(** [Rabin::update(hash, byte_in, byte_out)]: the class [Rabin] is declared
    in [rabin.h], outside the embedded sources, and is a parameter here. *)
Variable rabin_update : Z -> byte -> byte -> Z.

(** [EVP_md5()] and [EVP_sha256()]. *)
Context {EVP_md5 EVP_sha256 : EVP_MD}.

(** The fields of [class Splitter].  A digest context is [None] when it
    holds no live digest state (never initialised, or already finalised). *)
Record Splitter : Type := {
  _min_chunk : Z;
  _max_chunk : Z;
  _avg_chunk_bits : Z;
  _calc_md5 : bool;
  _calc_sha256 : bool;
  _window : list byte;          (* struct NB_Buf: data, and len = its length *)
  _window_pos : Z;
  _chunk_pos : Z;
  _hash : Z;
  _md5_ctx : option (md_ctx EVP_md5);
  _sha256_ctx : option (md_ctx EVP_sha256);
  _split_points : list Z        (* std::deque<int>, grown by push_back *)
}.

(** The arguments of the constructor are [int]s that pass its three
    [assert]s. *)
Definition params_ok (min_chunk max_chunk avg_chunk_bits : Z) : Prop :=
  0 < min_chunk /\ min_chunk <= max_chunk /\ 0 <= avg_chunk_bits /\
  max_chunk <= INT_MAX.

(** [Splitter::Splitter(min_chunk, max_chunk, avg_chunk_bits, calc_md5, calc_sha256)] *)
Definition new_Splitter (min_chunk max_chunk avg_chunk_bits : Z)
    (calc_md5 calc_sha256 : bool) : Splitter :=
  {| _min_chunk := min_chunk;
     _max_chunk := max_chunk;
     _avg_chunk_bits := avg_chunk_bits;
     _calc_md5 := calc_md5;
     _calc_sha256 := calc_sha256;
     _window := repeat x00 NB_RABIN_WINDOW_LEN;
     _window_pos := 0;
     _chunk_pos := 0;
     _hash := 0;
     _md5_ctx := if calc_md5 then Some (DigestInit EVP_md5) else None;
     _sha256_ctx := if calc_sha256 then Some (DigestInit EVP_sha256) else None;
     _split_points := [] |}.

(** Assignment to the four scanning fields [_window], [_window_pos],
    [_chunk_pos] and [_hash]; the other fields are kept. *)
Definition set_scan_state (s : Splitter) (window : list byte)
    (window_pos chunk_pos hash : Z) : Splitter :=
  {| _min_chunk := _min_chunk s; _max_chunk := _max_chunk s;
     _avg_chunk_bits := _avg_chunk_bits s;
     _calc_md5 := _calc_md5 s; _calc_sha256 := _calc_sha256 s;
     _window := window;
     _window_pos := window_pos;
     _chunk_pos := chunk_pos;
     _hash := hash;
     _md5_ctx := _md5_ctx s; _sha256_ctx := _sha256_ctx s;
     _split_points := _split_points s |}.

(** [window_data[i]] and [window_data[i] = b]. *)
Definition window_get (w : list byte) (i : Z) : byte := nth (Z.to_nat i) w x00.
Definition window_set (w : list byte) (i : Z) (b : byte) : list byte :=
  <[Z.to_nat i := b]> w.

(** The stack copies the inner loop of [_next_point] works on. *)
Record Scan : Type := {
  sc_data : list byte;          (* the bytes from [data] on *)
  sc_chunk_pos : Z;
  sc_window_pos : Z;
  sc_hash : Z;
  sc_window : list byte;
  sc_boundary : bool
}.

(** The scanning loop
    [while (chunk_pos < max) { ...; if ((hash & avg_chunk_mask) == avg_chunk_val) { boundary = true; break; } }].
    It recurses on the bytes left; [max <= total] keeps [data] inside the
    buffer, so the loop never meets the end of the buffer while
    [chunk_pos < max]. *)
Fixpoint scan_loop (mask val max : Z) (data : list byte)
    (chunk_pos window_pos hash : Z) (window : list byte) : Scan :=
  match data with
  | [] => {| sc_data := []; sc_chunk_pos := chunk_pos; sc_window_pos := window_pos;
             sc_hash := hash; sc_window := window; sc_boundary := false |}
  | b :: rest =>
      if chunk_pos <? max then
        let hash := rabin_update hash b (window_get window window_pos) in
        let window := window_set window window_pos b in
        let window_pos := window_pos + 1 in
        let chunk_pos := chunk_pos + 1 in
        let window_pos :=
          if Z.of_nat (length window) <=? window_pos then 0 else window_pos in
        if Z.land hash mask =? val then
          {| sc_data := rest; sc_chunk_pos := chunk_pos; sc_window_pos := window_pos;
             sc_hash := hash; sc_window := window; sc_boundary := true |}
        else scan_loop mask val max rest chunk_pos window_pos hash window
      else
        {| sc_data := data; sc_chunk_pos := chunk_pos; sc_window_pos := window_pos;
           sc_hash := hash; sc_window := window; sc_boundary := false |}
  end.

(** [bool Splitter::_next_point(const uint8_t** p_data, int* p_len)]:
    the result is the returned flag, the splitter afterwards, and the bytes
    left in [( *p_data, *p_len )]; [None] when [chunk_pos + len] overflows,
    which leaves the behaviour undefined. *)
Definition _next_point (s : Splitter) (data : list byte)
    : option (bool * Splitter * list byte) :=
  let window_pos := _window_pos s in
  let chunk_pos := _chunk_pos s in
  let total := chunk_pos + Z.of_nat (length data) in
  if INT_MAX <? total then None else
  let min := if total <? _min_chunk s then total else _min_chunk s in
  let max := if total <? _max_chunk s then total else _max_chunk s in
  let hash := _hash s in
  let avg_chunk_mask := avg_chunk_mask shl_undefined (_avg_chunk_bits s) in
  let avg_chunk_val := avg_chunk_val shl_undefined (_avg_chunk_bits s) in
  (* skip byte scanning as long as below min chunk length *)
  let '(data1, chunk_pos) :=
    if chunk_pos <? min
    then (skipn (Z.to_nat (min - chunk_pos)) data, min)
    else (data, chunk_pos) in
  let sc := scan_loop avg_chunk_mask avg_chunk_val max data1
                      chunk_pos window_pos hash (_window s) in
  if sc_boundary sc || (_max_chunk s <=? sc_chunk_pos sc) then
    (* memset(window_data, 0, window_len); _window_pos = 0; _hash = 0; *)
    Some (true,
          set_scan_state s (repeat x00 (length (_window s))) 0 (sc_chunk_pos sc) 0,
          sc_data sc)
  else
    (* *p_data = 0; *p_len = 0; *)
    Some (false,
          set_scan_state s (sc_window sc) (sc_window_pos sc) (sc_chunk_pos sc)
                         (sc_hash sc),
          []).

(** [_split_points.push_back(_chunk_pos); _chunk_pos = 0;] *)
Definition record_point (s : Splitter) : Splitter :=
  {| _min_chunk := _min_chunk s; _max_chunk := _max_chunk s;
     _avg_chunk_bits := _avg_chunk_bits s;
     _calc_md5 := _calc_md5 s; _calc_sha256 := _calc_sha256 s;
     _window := _window s; _window_pos := _window_pos s;
     _chunk_pos := 0;
     _hash := _hash s;
     _md5_ctx := _md5_ctx s; _sha256_ctx := _sha256_ctx s;
     _split_points := _split_points s ++ [_chunk_pos s] |}.

(** [while (_next_point(&data, &len)) { ... }], with a bound on the number
    of iterations; [None] when the bound is exhausted or the behaviour is
    undefined. *)
Fixpoint push_loop (fuel : nat) (s : Splitter) (data : list byte)
    : option Splitter :=
  match fuel with
  | O => None
  | S fuel' =>
      match _next_point s data with
      | None => None
      | Some (more, s', data') =>
          if more then push_loop fuel' (record_point s') data' else Some s'
      end
  end.

(** The two [EVP_DigestUpdate] calls that open [push]. *)
Definition update_digests (s : Splitter) (data : list byte) : Splitter :=
  {| _min_chunk := _min_chunk s; _max_chunk := _max_chunk s;
     _avg_chunk_bits := _avg_chunk_bits s;
     _calc_md5 := _calc_md5 s; _calc_sha256 := _calc_sha256 s;
     _window := _window s; _window_pos := _window_pos s;
     _chunk_pos := _chunk_pos s;
     _hash := _hash s;
     _md5_ctx :=
       if _calc_md5 s
       then option_map (fun c => DigestUpdate EVP_md5 c data) (_md5_ctx s)
       else _md5_ctx s;
     _sha256_ctx :=
       if _calc_sha256 s
       then option_map (fun c => DigestUpdate EVP_sha256 c data) (_sha256_ctx s)
       else _sha256_ctx s;
     _split_points := _split_points s |}.

(** [void Splitter::push(const uint8_t* data, int len)].  Every iteration
    that returns [true] consumes at least one byte (shown below), so
    [length data + 1] iterations are enough. *)
Definition push (s : Splitter) (data : list byte) : option Splitter :=
  push_loop (S (length data)) (update_digests s data) data.

(** A stream handed over in several [push] calls. *)
Fixpoint push_all (s : Splitter) (segments : list (list byte)) : option Splitter :=
  match segments with
  | [] => Some s
  | seg :: rest =>
      match push s seg with
      | Some s' => push_all s' rest
      | None => None
      end
  end.

(** [void Splitter::finish(uint8_t* md5, uint8_t* sha256)]: [want_md5] and
    [want_sha256] say whether the destination pointers are non-null; the
    result is the splitter afterwards and what was written to each
    destination. *)
Definition finish (s : Splitter) (want_md5 want_sha256 : bool)
    : Splitter * option (md_value EVP_md5) * option (md_value EVP_sha256) :=
  let do_md5 := want_md5 && _calc_md5 s in
  let do_sha256 := want_sha256 && _calc_sha256 s in
  ({| _min_chunk := _min_chunk s; _max_chunk := _max_chunk s;
      _avg_chunk_bits := _avg_chunk_bits s;
      _calc_md5 := _calc_md5 s; _calc_sha256 := _calc_sha256 s;
      _window := _window s; _window_pos := _window_pos s;
      _chunk_pos := _chunk_pos s;
      _hash := _hash s;
      _md5_ctx := if do_md5 then None else _md5_ctx s;
      _sha256_ctx := if do_sha256 then None else _sha256_ctx s;
      _split_points := _split_points s |},
   (if do_md5 then option_map (DigestFinal EVP_md5) (_md5_ctx s) else None),
   (if do_sha256 then option_map (DigestFinal EVP_sha256) (_sha256_ctx s) else None)).

(** *** The splitter one byte at a time

    The boundary rule of the design document read as a machine that takes
    the stream byte by byte: a byte below [min_chunk] is counted and not
    hashed; any other byte is shifted into the rolling hash; the chunk ends
    after a byte when the hash matches or [max_chunk] is reached, and the
    window and hash are then zeroed.  [push] is compared to it below. *)

Definition hash_matches (s : Splitter) (hash : Z) : bool :=
  Z.land hash (avg_chunk_mask shl_undefined (_avg_chunk_bits s))
    =? avg_chunk_val shl_undefined (_avg_chunk_bits s).

Definition end_chunk (s : Splitter) (chunk_pos : Z) : Splitter :=
  record_point (set_scan_state s (repeat x00 (length (_window s))) 0 chunk_pos 0).

Definition feed_byte (s : Splitter) (b : byte) : Splitter :=
  let chunk_pos := _chunk_pos s + 1 in
  if _chunk_pos s <? _min_chunk s then
    if _max_chunk s <=? chunk_pos then end_chunk s chunk_pos
    else set_scan_state s (_window s) (_window_pos s) chunk_pos (_hash s)
  else
    let hash := rabin_update (_hash s) b (window_get (_window s) (_window_pos s)) in
    let window := window_set (_window s) (_window_pos s) b in
    let window_pos :=
      if Z.of_nat (length window) <=? _window_pos s + 1 then 0 else _window_pos s + 1 in
    if hash_matches s hash || (_max_chunk s <=? chunk_pos) then end_chunk s chunk_pos
    else set_scan_state s window window_pos chunk_pos hash.

Definition feed (s : Splitter) (data : list byte) : Splitter :=
  fold_left feed_byte data s.

(** What holds of the splitter between two [push] calls: the constructor's
    assertions, and a chunk still open is shorter than [max_chunk]. *)
Definition splitter_inv (s : Splitter) : Prop :=
  0 < _min_chunk s /\ _min_chunk s <= _max_chunk s /\
  0 <= _chunk_pos s < _max_chunk s /\ _max_chunk s <= INT_MAX.

(** Every segment can be pushed whatever the length of the open chunk:
    [chunk_pos + len] stays an [int]. *)
Definition segments_fit (max_chunk : Z) (segments : list (list byte)) : Prop :=
  Forall (fun seg => max_chunk + Z.of_nat (length seg) <= INT_MAX) segments.

(** The segments that are left of a stream once its first [n] bytes are
    taken away. *)
Fixpoint drop_bytes (n : nat) (segments : list (list byte)) : list (list byte) :=
  match segments with
  | [] => []
  | seg :: rest =>
      if (n <? length seg)%nat then skipn n seg :: rest
      else drop_bytes (n - length seg) rest
  end.

(** The rolling hash after the given bytes have been shifted, one by one,
    into a zeroed window. *)
Definition roll (st : Z * Z * list byte) (b : byte) : Z * Z * list byte :=
  let '(hash, window_pos, window) := st in
  let hash := rabin_update hash b (window_get window window_pos) in
  let window := window_set window window_pos b in
  let window_pos :=
    if Z.of_nat (length window) <=? window_pos + 1 then 0 else window_pos + 1 in
  (hash, window_pos, window).

Definition rolling_hash (bytes : list byte) : Z :=
  fst (fst (fold_left roll bytes (0, 0, repeat x00 NB_RABIN_WINDOW_LEN))).

(** The hash the splitter holds at position [p] of a chunk whose bytes are
    [data]: the bytes at offsets [min_chunk .. p-1] have been hashed. *)
Definition chunk_hash (min_chunk : Z) (data : list byte) (p : Z) : Z :=
  rolling_hash (firstn (Z.to_nat (p - min_chunk)) (skipn (Z.to_nat min_chunk) data)).

(** The boundary rule the code implements, at position [p] of a chunk. *)
Definition boundary_rule (min_chunk max_chunk avg_chunk_bits : Z)
    (data : list byte) (p : Z) : Prop :=
  (min_chunk < p /\
   Z.land (chunk_hash min_chunk data p) (avg_chunk_mask shl_undefined avg_chunk_bits)
     = avg_chunk_mask shl_undefined avg_chunk_bits)
  \/ p = max_chunk.

(** The boundary rule as the design document words it, for any reading
    [hash_at] of "the rolling hash at position [p]". *)
Definition stated_boundary_rule (hash_at : Z -> Z)
    (min_chunk max_chunk avg_chunk_bits : Z) (p : Z) : Prop :=
  min_chunk <= p /\
  (Z.land (hash_at p) (Z.shiftl 1 avg_chunk_bits - 1) = Z.shiftl 1 avg_chunk_bits - 1
   \/ p = max_chunk).

(** A splitter that had cut the chunks [points] before. *)
Definition prepend_points (points : list Z) (s : Splitter) : Splitter :=
  {| _min_chunk := _min_chunk s; _max_chunk := _max_chunk s;
     _avg_chunk_bits := _avg_chunk_bits s;
     _calc_md5 := _calc_md5 s; _calc_sha256 := _calc_sha256 s;
     _window := _window s; _window_pos := _window_pos s;
     _chunk_pos := _chunk_pos s;
     _hash := _hash s;
     _md5_ctx := _md5_ctx s; _sha256_ctx := _sha256_ctx s;
     _split_points := points ++ _split_points s |}.

(** The splitter [s], idle at the start of a chunk, after the bytes [data]
    of a chunk in which no boundary has been met. *)
Definition open_chunk (s : Splitter) (data : list byte) : Splitter :=
  let '(hash, window_pos, window) :=
    fold_left roll (skipn (Z.to_nat (_min_chunk s)) data)
              (0, 0, repeat x00 NB_RABIN_WINDOW_LEN) in
  set_scan_state s window window_pos (Z.of_nat (length data)) hash.

(** Position [p] is the first of the [len] first positions at which the
    rule as the design document words it holds. *)
Definition stated_first_boundary (hash_at : Z -> Z)
    (min_chunk max_chunk avg_chunk_bits len p : Z) : Prop :=
  0 < p <= len /\
  stated_boundary_rule hash_at min_chunk max_chunk avg_chunk_bits p /\
  forall q, 0 < q < p ->
    ~ stated_boundary_rule hash_at min_chunk max_chunk avg_chunk_bits q.

(** The first boundary a splitter has recorded. *)
Definition first_point (s : Splitter) : option Z := head (_split_points s).

(** Sum of the lengths of the chunks cut so far. *)
Definition sum_points (points : list Z) : Z := fold_right Z.add 0 points.

(** Total number of bytes in a list of segments. *)
Definition total_length (segments : list (list byte)) : Z :=
  Z.of_nat (length (concat segments)).

(** What holds of the scanning fields between two [push] calls: the window
    keeps its length and the index into it stays inside it; as long as no
    byte of the open chunk has been hashed, the hash is zero and the window
    is zeroed; from [min_chunk] on, the index counts the hashed bytes
    around the window. *)
Definition scan_state_ok (s : Splitter) : Prop :=
  length (_window s) = NB_RABIN_WINDOW_LEN /\
  0 <= _window_pos s < Z.of_nat NB_RABIN_WINDOW_LEN /\
  (_chunk_pos s <= _min_chunk s ->
     _hash s = 0 /\ _window s = repeat x00 NB_RABIN_WINDOW_LEN /\ _window_pos s = 0) /\
  (_min_chunk s <= _chunk_pos s ->
     _window_pos s = (_chunk_pos s - _min_chunk s) mod Z.of_nat NB_RABIN_WINDOW_LEN).

(** The length of every chunk when [avg_chunk_bits] is zero: the mask is
    zero, and the first hashed byte ends the chunk. *)
Definition unmasked_chunk_length (min_chunk max_chunk : Z) : Z :=
  Z.min (min_chunk + 1) max_chunk.

End WithEnvironment.

Arguments Splitter : clear implicits.
Arguments new_Splitter : clear implicits.

End Splitter.

(** ** Instances of the splitter's environment *)

Module Rabin.

Import Splitter.

(** Modelled from the spec: class [Rabin] ([rabin.h], [rabin.cpp]) is not
    among the sources.  Section 4.1: "A polynomial rolling hash over a
    fixed-length window; the polynomial, degree, and window length are
    compile-time constants (chosen: irreducible polynomial over GF(2) of
    degree 39, window length 16 bytes).  The hash supports two operations:
    shift-in one byte and shift-out the byte leaving the window."  A hash
    is a polynomial over GF(2) of degree below 39, held in the bits of a
    [Z]; the modulus is [x^39 + x^4 + 1]. *)
Definition modulus : Z := Z.lor (Z.shiftl 1 NB_RABIN_DEGREE) NB_RABIN_POLY.

(** Multiplication by [x], reduced. *)
Definition shift_bit_left (h : Z) : Z :=
  let h2 := Z.shiftl h 1 in
  if Z.testbit h2 NB_RABIN_DEGREE then Z.lxor h2 modulus else h2.

(** Multiplication by [x^8], reduced. *)
Definition shift_byte_left (h : Z) : Z := Nat.iter 8 shift_bit_left h.

Definition byte_val (b : byte) : Z := Z.of_N (Byte.to_N b).

(** The weight of the byte leaving the window: it entered
    [NB_RABIN_WINDOW_LEN - 1] shifts ago. *)
Definition byte_out_value (b : byte) : Z :=
  Nat.iter (NB_RABIN_WINDOW_LEN - 1) shift_byte_left (byte_val b).

(** Shift-out of [byte_out], then shift-in of [byte_in]. *)
Definition update (hash : Z) (byte_in byte_out : byte) : Z :=
  Z.lxor (shift_byte_left (Z.lxor hash (byte_out_value byte_out))) (byte_val byte_in).

(** A shift that takes its count modulo 64, as the shift instructions of
    x86-64 do: one of the values the undefined shift can take. *)
Definition shl_mod_width (x n : Z) : Z := Z.shiftl x (n mod HASH_BITS).

(** A digest that keeps the whole message; it meets the streaming
    contract of [EVP_MD] and tells any two messages apart. *)
Definition transcript : EVP_MD :=
  {| md_ctx := list byte;
     md_value := list byte;
     DigestInit := [];
     DigestUpdate := fun c data => c ++ data;
     DigestFinal := fun c => c;
     DigestUpdate_nil := fun c => app_nil_r c;
     DigestUpdate_app := fun c a b => eq_sym (app_assoc c a b) |}.

End Rabin.

(** ** Object I/O ([src/sdk/object_io.js]) *)

Module ObjectIO.

Definition Buffer : Type := list byte.

(** *** JavaScript values and library functions the code relies on *)

(** The primitive values held by the metadata fields the code compares
    with [===]; on them [===] is equality of the values. *)
Inductive JSVal : Type :=
  | JUndefined
  | JNull
  | JBool (b : bool)
  | JNum (n : Z)
  | JStr (s : string).

Definition JSVal_eq_dec (a b : JSVal) : {a = b} + {a <> b}.
Proof.
  decide equality; [apply Bool.bool_dec | apply Z.eq_dec | apply String.string_dec].
Defined.

(** [a === b] *)
Definition strict_eq (a b : JSVal) : bool :=
  if JSVal_eq_dec a b then true else false.

(** Error objects: [new Error(message)] with an optional [code] set by its
    thrower, and [new RpcError(rpc_code, message)]. *)
Record Error : Type := {
  err_code : option string;
  err_rpc_code : option string;
  err_message : string
}.

Definition new_Error (message : string) : Error :=
  {| err_code := None; err_rpc_code := None; err_message := message |}.

Definition RpcError (rpc_code message : string) : Error :=
  {| err_code := None; err_rpc_code := Some rpc_code; err_message := message |}.

(** How a call or a promise ends: a value, or an exception (a rejection). *)
Inductive Completion (A : Type) : Type :=
  | Return (a : A)
  | Throw (e : Error).
Arguments Return {A} a.
Arguments Throw {A} e.

(** The offset arithmetic shared by [Buffer.prototype.slice] and
    [Array.prototype.slice] (Node.js and ECMAScript): a negative offset
    counts from the end, and offsets are clamped to the length. *)
Definition adjust_offset (offset len : Z) : Z :=
  if offset <? 0 then Z.max (offset + len) 0 else Z.min offset len.

(** [l.slice(start, end)] *)
Definition js_slice {A : Type} (l : list A) (start end_ : Z) : list A :=
  let len := Z.of_nat (length l) in
  let start := adjust_offset start len in
  let end_ := adjust_offset end_ len in
  firstn (Z.to_nat (end_ - start)) (skipn (Z.to_nat start) l).

(** Modelled from the spec: [range_utils] ([util/range_utils.js]) is not
    among the sources.  Glossary: "Aligned range:
    [floor(p/ALIGN)*ALIGN, floor(p/ALIGN)*ALIGN + ALIGN); the cache's
    unit"; section 4.6: "the intersection of the requested [start,end)
    with the cached aligned entry, or null for empty intersection". *)
Definition align_down (offset align : Z) : Z := offset / align * align.

Definition intersection (start1 end1 start2 end2 : Z) : option (Z * Z) :=
  let start := Z.max start1 start2 in
  let end_ := Z.min end1 end2 in
  if end_ <=? start then None else Some (start, end_).

(** Modelled from the spec: [buffer_utils.join] ([util/buffer_utils.js]) is
    not among the sources; section 4.7: "concatenating the intersecting
    slices". *)
Definition buffer_join (buffers : list Buffer) : Buffer := concat buffers.

(** *** Upload: [_upload_chunks] *)

(** The fields of [nb.PartInfo] the function sets. *)
Record PartInfo : Type := {
  part_obj_id : JSVal;
  part_chunk_id : JSVal;
  part_multipart_id : JSVal;
  part_start : Z;
  part_end : Z;
  part_seq : Z
}.

(** A fragment of a chunk on its way up: its digest and its blocks. *)
Record UploadFrag : Type := {
  ufrag_digest_b64 : string;
  ufrag_blocks : list string
}.

(** [nb.ChunkInfo], as the coder hands it over. *)
Record ChunkInfo : Type := {
  ci_size : Z;
  ci_data : option Buffer;
  ci_tier_id : JSVal;
  ci_bucket_id : JSVal;
  ci_parts : list PartInfo;
  ci_frags : list UploadFrag
}.

(** Modelled from the spec: class [ChunkAPI] ([map_api_types.js]) is not
    among the sources; it wraps a chunk info, and its [size] is the size of
    the chunk (section 3, "Chunk ... Attributes: size"). *)
Record ChunkAPI : Type := { chunk_info : ChunkInfo }.
Definition chunk_size (chunk : ChunkAPI) : Z := ci_size (chunk_info chunk).

(** The fields of [params] and [complete_params] that [_upload_chunks]
    reads and writes. *)
Record UploadParams : Type := {
  params_obj_id : JSVal;
  params_multipart_id : JSVal;
  params_tier_id : JSVal;
  params_bucket_id : JSVal;
  params_start : Z;
  params_seq : Z;
  params_range : option (Z * Z)
}.

Record CompleteParams : Type := {
  complete_size : Z;
  complete_num_parts : Z
}.

(** The body of the callback of [chunks.map]: the generated chunk, and
    [params] and [complete_params] as it leaves them. *)
Definition map_chunk_info (params : UploadParams) (complete_params : CompleteParams)
    (chunk_info : ChunkInfo) : UploadParams * CompleteParams * ChunkAPI :=
  let part :=
    {| part_obj_id := params_obj_id params;
       part_chunk_id := JUndefined;
       part_multipart_id := params_multipart_id params;
       part_start := params_start params;
       part_end := params_start params + ci_size chunk_info;
       part_seq := params_seq params |} in
  let chunk :=
    {| chunk_info :=
         {| ci_size := ci_size chunk_info;
            ci_data := None;
            ci_tier_id := params_tier_id params;
            ci_bucket_id := params_bucket_id params;
            ci_parts := [part];
            ci_frags :=
              map (fun frag => {| ufrag_digest_b64 := ufrag_digest_b64 frag;
                                  ufrag_blocks := [] |})
                  (ci_frags chunk_info) |} |} in
  let seq := params_seq params + 1 in
  let start := params_start params + chunk_size chunk in
  let range := option_map (fun r => (fst r, start)) (params_range params) in
  ({| params_obj_id := params_obj_id params;
      params_multipart_id := params_multipart_id params;
      params_tier_id := params_tier_id params;
      params_bucket_id := params_bucket_id params;
      params_start := start;
      params_seq := seq;
      params_range := range |},
   {| complete_size := complete_size complete_params + chunk_size chunk;
      complete_num_parts := complete_num_parts complete_params + 1 |},
   chunk).

(** [chunks.map(chunk_info => ...)], in array order. *)
Fixpoint map_chunks (params : UploadParams) (complete_params : CompleteParams)
    (chunks : list ChunkInfo) : UploadParams * CompleteParams * list ChunkAPI :=
  match chunks with
  | [] => (params, complete_params, [])
  | chunk_info :: rest =>
      let '(params, complete_params, chunk) :=
        map_chunk_info params complete_params chunk_info in
      let '(params, complete_params, mapped) :=
        map_chunks params complete_params rest in
      (params, complete_params, chunk :: mapped)
  end.

(** How [mc.run()] of the [MapClient] ends (the class is an external
    collaborator): it throws, or returns with [mc.had_errors] set or not. *)
Inductive MapClientRun : Type :=
  | McDone (had_errors : bool)
  | McThrew (e : Error).

(** [async _upload_chunks(params, complete_params, chunks, callback)]:
    [params] and [complete_params] afterwards, the chunks handed to the map
    client, and the argument of [callback] ([None] for [callback()]). *)
Definition _upload_chunks (mc_run : list ChunkAPI -> MapClientRun)
    (params : UploadParams) (complete_params : CompleteParams)
    (chunks : list ChunkInfo)
    : UploadParams * CompleteParams * list ChunkAPI * option Error :=
  let params :=
    {| params_obj_id := params_obj_id params;
       params_multipart_id := params_multipart_id params;
       params_tier_id := params_tier_id params;
       params_bucket_id := params_bucket_id params;
       params_start := params_start params;
       params_seq := params_seq params;
       params_range := Some (params_start params, params_start params) |} in
  let '(params, complete_params, mapped) := map_chunks params complete_params chunks in
  let outcome :=
    match mc_run mapped with
    | McDone false => None
    | McDone true => Some (new_Error "Upload map errors")
    | McThrew e => Some e
    end in
  (params, complete_params, mapped, outcome).

(** The uploader stage of [_upload_stream_internal]: a transform stream
    that gives every coalesced batch to [_upload_chunks], one at a time
    and in order, and is destroyed by the first error. *)
Fixpoint uploader (mc_run : list ChunkAPI -> MapClientRun)
    (params : UploadParams) (complete_params : CompleteParams)
    (batches : list (list ChunkInfo))
    : UploadParams * CompleteParams * list ChunkAPI * option Error :=
  match batches with
  | [] => (params, complete_params, [], None)
  | chunks :: rest =>
      let '(params, complete_params, mapped, outcome) :=
        _upload_chunks mc_run params complete_params chunks in
      match outcome with
      | Some e => (params, complete_params, mapped, Some e)
      | None =>
          let '(params, complete_params, mapped', outcome) :=
            uploader mc_run params complete_params rest in
          (params, complete_params, mapped ++ mapped', outcome)
      end
  end.

(** [_upload_stream_internal] before the pipeline runs:
    [params.start = 0; params.seq = 0;] and
    [complete_params.size = 0; complete_params.num_parts = 0;]. *)
Definition start_upload (params : UploadParams) : UploadParams * CompleteParams :=
  ({| params_obj_id := params_obj_id params;
      params_multipart_id := params_multipart_id params;
      params_tier_id := params_tier_id params;
      params_bucket_id := params_bucket_id params;
      params_start := 0;
      params_seq := 0;
      params_range := params_range params |},
   {| complete_size := 0; complete_num_parts := 0 |}).

(** The sum of a list of sizes. *)
Definition sum_sizes (sizes : list Z) : Z := fold_right Z.add 0 sizes.

(** The parts of the generated chunks, in order. *)
Definition parts_of (chunks : list ChunkAPI) : list PartInfo :=
  concat (map (fun chunk => ci_parts (chunk_info chunk)) chunks).

(** Parts that follow one another from offset [start] and sequence number
    [seq] on: each starts where the one before ends and carries the next
    sequence number. *)
Fixpoint contiguous_from (start seq : Z) (parts : list PartInfo) : Prop :=
  match parts with
  | [] => True
  | part :: rest =>
      part_start part = start /\ part_seq part = seq /\
      contiguous_from (part_end part) (seq + 1) rest
  end.

(** How the upload of a batch ends, from the answer of the map client to
    the chunks made of it: the error given to [callback], or none. *)
Definition batch_outcome (mc_run : list ChunkAPI -> MapClientRun)
    (mapped : list ChunkAPI) : option Error :=
  match mc_run mapped with
  | McDone false => None
  | McDone true => Some (new_Error "Upload map errors")
  | McThrew e => Some e
  end.

(** The chunk carries one part: a part of the object and of the multipart
    of the upload, tied to no stored chunk yet, and as long as the chunk. *)
Definition part_of_upload (obj_id multipart_id : JSVal) (chunk : ChunkAPI) : Prop :=
  exists part,
    ci_parts (chunk_info chunk) = [part] /\
    part_obj_id part = obj_id /\
    part_multipart_id part = multipart_id /\
    part_chunk_id part = JUndefined /\
    part_end part - part_start part = chunk_size chunk.

(** [per_batch] holds the chunks made of the batches that reached the map
    client, batch by batch, and [outcome] is how the uploader ended: with
    no error every batch was mapped and the map client finalized each; with
    an error [e] the batches were mapped up to and including the one the
    map client answered with [e], and every batch before it was finalized. *)
Definition batches_uploaded (mc_run : list ChunkAPI -> MapClientRun)
    (batches : list (list ChunkInfo)) (per_batch : list (list ChunkAPI))
    (outcome : option Error) : Prop :=
  match outcome with
  | None =>
      length per_batch = length batches /\
      Forall (fun mapped => batch_outcome mc_run mapped = None) per_batch
  | Some e =>
      exists finalized failed,
        per_batch = finalized ++ [failed] /\
        (length per_batch <= length batches)%nat /\
        Forall (fun mapped => batch_outcome mc_run mapped = None) finalized /\
        batch_outcome mc_run failed = Some e
  end.

(** *** Semaphore timeouts: [_handle_semaphore_errors] *)

(** The fields of the [ObjectIO] instance. *)
Record ObjectIO : Type := {
  _last_io_bottleneck_report : Z;
  _verification_mode : bool;
  location_node_id : JSVal;        (* location_info && location_info.node_id *)
  location_host_id : JSVal
}.

(** [timeout_error_code] given to the [_io_buffers_sem] semaphore by the
    constructor. *)
Definition timeout_error_code : string := "OBJECT_IO_STREAM_ITEM_TIMEOUT".

(** A call of [client.object.report_endpoint_problems]. *)
Record EndpointProblem : Type := {
  problem : string;
  problem_node_id : JSVal;
  problem_host_id : JSVal
}.

Definition HOUR_IN_MILI : Z := 3600000.

Definition has_code (err : Error) (code : string) : bool :=
  match err_code err with
  | Some c => if String.string_dec c code then true else false
  | None => false
  end.

(** [_handle_semaphore_errors(client, err)], with [now] the value
    [Date.now()] returns: the instance afterwards, the problem reports
    sent, and how the call ends. *)
Definition _handle_semaphore_errors (io : ObjectIO) (now : Z) (err : Error)
    : ObjectIO * list EndpointProblem * Completion unit :=
  if has_code err "OBJECT_IO_STREAM_ITEM_TIMEOUT" then
    let curr_date := now in
    if HOUR_IN_MILI <=? curr_date - _last_io_bottleneck_report io then
      ({| _last_io_bottleneck_report := curr_date;
          _verification_mode := _verification_mode io;
          location_node_id := location_node_id io;
          location_host_id := location_host_id io |},
       [{| problem := "STRESS";
           problem_node_id := location_node_id io;
           problem_host_id := location_host_id io |}],
       Throw (RpcError "OBJECT_IO_STREAM_ITEM_TIMEOUT" ""))
    else
      (io, [], Throw (RpcError "OBJECT_IO_STREAM_ITEM_TIMEOUT" ""))
  else (io, [], Return tt).

(** [async _upload_stream(params, complete_params)], given how the awaited
    [_io_buffers_sem.surround_count(...)] ends. *)
Definition _upload_stream {A : Type} (io : ObjectIO) (now : Z)
    (surround_count : Completion A)
    : ObjectIO * list EndpointProblem * Completion A :=
  match surround_count with
  | Return res => (io, [], Return res)
  | Throw err =>
      match _handle_semaphore_errors io now err with
      | (io, reports, Throw e) => (io, reports, Throw e)
      | (io, reports, Return _) => (io, reports, Throw err)
      end
  end.

(** The rejection handler of the read in [read_object_stream],
    [err => { this._handle_semaphore_errors(params.client, err);
    dbg.error(...); reader.emit('error', err || 'reader error'); }], for an
    error object [err]: the instance afterwards, the reports sent, the
    errors emitted on the reader, and how the handler ends. *)
Definition read_stream_on_error (io : ObjectIO) (now : Z) (err : Error)
    : ObjectIO * list EndpointProblem * list Error * Completion unit :=
  match _handle_semaphore_errors io now err with
  | (io, reports, Throw e) => (io, reports, [], Throw e)
  | (io, reports, Return _) => (io, reports, [err], Return tt)
  end.

(** The report [_handle_semaphore_errors] sends. *)
Definition stress_report (io : ObjectIO) : EndpointProblem :=
  {| problem := "STRESS";
     problem_node_id := location_node_id io;
     problem_host_id := location_host_id io |}.

(** A run of semaphore failures, each with the clock value it is handled
    at: the instance afterwards and, for each report sent, the clock value
    it was sent at. *)
Fixpoint handle_all (io : ObjectIO) (failures : list (Z * Error)) : ObjectIO * list Z :=
  match failures with
  | [] => (io, [])
  | (now, err) :: rest =>
      let '(io, reports, _) := _handle_semaphore_errors io now err in
      let '(io, times) := handle_all io rest in
      (io, map (fun _ => now) reports ++ times)
  end.

(** Report times, each at least an hour after the one before. *)
Fixpoint hourly (times : list Z) : Prop :=
  match times with
  | [] => True
  | t :: rest =>
      match rest with
      | [] => True
      | t' :: _ => HOUR_IN_MILI <= t' - t
      end /\ hourly rest
  end.

(** *** The read cache: the callbacks of [_init_read_cache] *)

(** [object_md]: the four fields the cache compares, and the others. *)
Record ObjectMD : Type := {
  md_obj_id : JSVal;
  md_etag : JSVal;
  md_size : JSVal;
  md_create_time : JSVal;
  md_other : list (string * JSVal)
}.

(** What [read_object] resolves to, and the cache stores. *)
Record CacheData : Type := {
  data_object_md : ObjectMD;
  data_buffer : option Buffer
}.

(** The fields of the [params] of a cached read. *)
Record ReadParams : Type := {
  read_obj_id : string;
  read_bucket : string;
  read_key : string;
  read_start : Z;
  read_end : Z
}.


Section ReadCache.

(** [config.IO_OBJECT_RANGE_ALIGN] *)
Variable IO_OBJECT_RANGE_ALIGN : Z.

(** [make_key]: the string [obj_id + '\0' + start + '\0' + end], kept as
    its three components. *)
Definition make_key (params : ReadParams) : string * Z * Z :=
  let start := align_down (read_start params) IO_OBJECT_RANGE_ALIGN in
  let end_ := start + IO_OBJECT_RANGE_ALIGN in
  (read_obj_id params, start, end_).

(** [item_usage]: [(data && data.buffer && data.buffer.length) || 1024] *)
Definition item_usage (data : CacheData) : Z :=
  match data_buffer data with
  | Some buffer =>
      if Z.of_nat (length buffer) =? 0 then 1024 else Z.of_nat (length buffer)
  | None => 1024
  end.

(** [load]: [read_object] on the aligned range that holds [params.start]. *)
Definition load (read_object : ReadParams -> Completion CacheData)
    (params : ReadParams) : Completion CacheData :=
  let start := align_down (read_start params) IO_OBJECT_RANGE_ALIGN in
  read_object
    {| read_obj_id := read_obj_id params;
       read_bucket := read_bucket params;
       read_key := read_key params;
       read_start := start;
       read_end := start + IO_OBJECT_RANGE_ALIGN |}.

(** [validate], given how the [read_object_md] call ends. *)
Definition validate (data : CacheData) (read_object_md : Completion ObjectMD)
    : Completion bool :=
  match read_object_md with
  | Throw e => Throw e
  | Return object_md =>
      let validated :=
        strict_eq (md_obj_id object_md) (md_obj_id (data_object_md data)) &&
        strict_eq (md_etag object_md) (md_etag (data_object_md data)) &&
        strict_eq (md_size object_md) (md_size (data_object_md data)) &&
        strict_eq (md_create_time object_md) (md_create_time (data_object_md data)) in
      Return validated
  end.

(** [make_val]: [None] stands for the [null] (or the missing buffer)
    returned. *)
Definition make_val (data : CacheData) (params : ReadParams) : option Buffer :=
  match data_buffer data with
  | None => None
  | Some buffer =>
      let start := align_down (read_start params) IO_OBJECT_RANGE_ALIGN in
      let end_ := start + IO_OBJECT_RANGE_ALIGN in
      match intersection start end_ (read_start params) (read_end params) with
      | None => None
      | Some (inter_start, inter_end) =>
          Some (js_slice buffer (inter_start - start) (inter_end - start))
      end
  end.

(** Modelled from the spec: class [LRUCache] ([util/lru_cache.js]) is not
    among the sources.  Section 4.6: "Bounded by total bytes, not entry
    count. ... Standard LRU eviction on insert when over cap. ... Load. On
    miss, fetch the full aligned range ... and store both the buffer and a
    snapshot of the object metadata. ... Validate. On hit, a light metadata
    RPC verifies the snapshot still matches; any mismatch invalidates the
    entry. ... Slice. get(range) returns the intersection ...".  The items
    are kept from the most to the least recently used. *)
Definition Items : Type := list ((string * Z * Z) * CacheData).

Definition key_eqb (a b : string * Z * Z) : bool :=
  let '(id1, s1, e1) := a in
  let '(id2, s2, e2) := b in
  (if String.string_dec id1 id2 then true else false) && (s1 =? s2) && (e1 =? e2).

Fixpoint lru_find (key : string * Z * Z) (items : Items) : option CacheData :=
  match items with
  | [] => None
  | (k, data) :: rest => if key_eqb key k then Some data else lru_find key rest
  end.

Definition lru_remove (key : string * Z * Z) (items : Items) : Items :=
  filter (fun item => negb (key_eqb key (fst item))) items.

(** The most recently used items whose usage fits in [budget]. *)
Fixpoint lru_keep (budget : Z) (items : Items) : Items :=
  match items with
  | [] => []
  | (k, data) :: rest =>
      if item_usage data <=? budget
      then (k, data) :: lru_keep (budget - item_usage data) rest
      else []
  end.

(** [get_with_cache(params)], given how the metadata call of [validate]
    and the [read_object] call of [load] end when they are made: the items
    afterwards and the value resolved to. *)
Definition get_with_cache (max_usage : Z) (items : Items) (params : ReadParams)
    (read_object_md : Completion ObjectMD)
    (read_object : ReadParams -> Completion CacheData)
    : Items * Completion (option Buffer) :=
  let key := make_key params in
  let load_item (items : Items) :=
    match load read_object params with
    | Return data =>
        (lru_keep max_usage ((key, data) :: items), Return (make_val data params))
    | Throw e => (items, Throw e)
    end in
  match lru_find key items with
  | None => load_item items
  | Some data =>
      match validate data read_object_md with
      | Return true =>
          ((key, data) :: lru_remove key items, Return (make_val data params))
      | Return false => load_item (lru_remove key items)
      | Throw e => (items, Throw e)
      end
  end.

End ReadCache.

(** *** Range assembly: [combine_parts_buffers_in_range] *)

(** The fields of a part the function reads; [rpart_chunk_data] is
    [part.chunk.data]. *)
Record RangePart : Type := {
  rpart_start : Z;
  rpart_end : Z;
  rpart_chunk_offset : option Z;
  rpart_chunk_data : option Buffer
}.

(** [if (part.chunk_offset)]: a number other than zero. *)
Definition chunk_offset_set (part : RangePart) : bool :=
  match rpart_chunk_offset part with
  | Some offset => negb (offset =? 0)
  | None => false
  end.

Definition TypeError (message : string) : Error := new_Error message.

(** The slice of the chunk data of [part] for the range
    [[range_start, range_end)] of the object. *)
Definition part_slice (part : RangePart) (data : Buffer) (range_start range_end : Z)
    : Buffer :=
  let buffer_start := range_start - rpart_start part in
  let buffer_end := range_end - rpart_start part in
  let '(buffer_start, buffer_end) :=
    if chunk_offset_set part
    then (buffer_start + default 0 (rpart_chunk_offset part),
          buffer_end + default 0 (rpart_chunk_offset part))
    else (buffer_start, buffer_end) in
  js_slice data buffer_start buffer_end.

(** [_.forEach(parts, part => { ... })]: [pos] and [buffers] afterwards. *)
Fixpoint combine_walk (parts : list RangePart) (pos end_ : Z) (buffers : list Buffer)
    : Completion (Z * list Buffer) :=
  match parts with
  | [] => Return (pos, buffers)
  | part :: rest =>
      match intersection (rpart_start part) (rpart_end part) pos end_ with
      | None => combine_walk rest pos end_ buffers
      | Some (range_start, range_end) =>
          match rpart_chunk_data part with
          | None => Throw (TypeError "Cannot read properties of undefined (reading 'slice')")
          | Some data =>
              combine_walk rest range_end end_
                (buffers ++ [part_slice part data range_start range_end])
          end
      end
  end.

(** [combine_parts_buffers_in_range(parts, start, end)]; [Return None] is
    the [null] returned. *)
Definition combine_parts_buffers_in_range (parts : list RangePart) (start end_ : Z)
    : Completion (option Buffer) :=
  if end_ <=? start then Return None
  else
    match parts with
    | [] => Throw (new_Error "no parts for data")
    | _ =>
        match combine_walk parts start end_ [] with
        | Throw e => Throw e
        | Return (pos, buffers) =>
            if negb (pos =? end_) then Throw (new_Error "missing parts for data")
            else
              let buffer := buffer_join buffers in
              if negb (Z.of_nat (length buffer) =? end_ - start)
              then Throw (new_Error "short buffer from parts")
              else Return (Some buffer)
        end
    end.

(** The slices the assembly is made of, by the words of the design
    document: for each part in turn, the part's chunk data restricted to
    what the part shares with the range still to be covered. *)
Fixpoint intersecting_slices (parts : list RangePart) (pos end_ : Z) : list Buffer :=
  match parts with
  | [] => []
  | part :: rest =>
      let lo := Z.max (rpart_start part) pos in
      let hi := Z.min (rpart_end part) end_ in
      if lo <? hi
      then part_slice part (default [] (rpart_chunk_data part)) lo hi
           :: intersecting_slices rest hi end_
      else intersecting_slices rest pos end_
  end.

(** The position the walk reaches: the end of the last part that shares
    bytes with the range still to be covered. *)
Fixpoint covered_to (parts : list RangePart) (pos end_ : Z) : Z :=
  match parts with
  | [] => pos
  | part :: rest =>
      let lo := Z.max (rpart_start part) pos in
      let hi := Z.min (rpart_end part) end_ in
      if lo <? hi then covered_to rest hi end_ else covered_to rest pos end_
  end.

(** Every part that shares bytes with the range still to be covered has
    its chunk data. *)
Fixpoint parts_decoded (parts : list RangePart) (pos end_ : Z) : Prop :=
  match parts with
  | [] => True
  | part :: rest =>
      let lo := Z.max (rpart_start part) pos in
      let hi := Z.min (rpart_end part) end_ in
      if lo <? hi
      then rpart_chunk_data part <> None /\ parts_decoded rest hi end_
      else parts_decoded rest pos end_
  end.

(** *** Part reconstruction: [_read_part], [_read_frags], [_read_frag],
    [_read_block] *)

Record BlockMD : Type := {
  block_id : string;
  block_node : string;
  block_address : string;
  block_digest_type : string;
  block_digest_b64 : string
}.

Record Block : Type := { block_md : BlockMD }.

(** A fragment object of a chunk being read.  An index that is missing is
    [None]; [frag.x_index >= 0] is false of a missing index. *)
Record Frag : Type := {
  frag_data_index : option Z;
  frag_parity_index : option Z;
  frag_lrc_index : option Z;
  frag_digest_b64 : string;
  frag_blocks : option (list Block);
  frag_data : option Buffer
}.

(** The fragment [f] once [f.data = buffer] is done. *)
Definition frag_with_data (f : Frag) (buffer : Buffer) : Frag :=
  {| frag_data_index := frag_data_index f;
     frag_parity_index := frag_parity_index f;
     frag_lrc_index := frag_lrc_index f;
     frag_digest_b64 := frag_digest_b64 f;
     frag_blocks := frag_blocks f;
     frag_data := Some buffer |}.

Definition index_ge_0 (index : option Z) : bool :=
  match index with
  | Some i => 0 <=? i
  | None => false
  end.

Inductive FragDesc : Type :=
  | DescD (i : option Z)
  | DescP (i : option Z)
  | DescL (i : option Z).

(** [get_frag_desc(frag)]; the message of the error leaves out the
    fragment printed as JSON. *)
Definition get_frag_desc (frag : Frag) : Completion FragDesc :=
  if index_ge_0 (frag_data_index frag) then Return (DescD (frag_data_index frag))
  else if index_ge_0 (frag_parity_index frag) then Return (DescP (frag_parity_index frag))
  else if index_ge_0 (frag_lrc_index frag) then Return (DescL (frag_lrc_index frag))
  else Throw (new_Error "BAD FRAG").

(** What the read path does to the outside, in the order it does it:
    a block read ([ok] when [_read_block] resolves), an error report to the
    metadata service, a call of the decode kernel on the chunk with the
    given fragments ([ok] when it succeeds). *)
Inductive Event : Type :=
  | EvReadBlock (block : BlockMD) (ok : bool)
  | EvReportError (block : BlockMD) (err : Error)
  | EvDecode (frags : list nat) (ok : bool).

Section ReadPath.

(** The state of the agents and the network. *)
Context {Env : Type}.

(** The agent's answer to [block_store_client.read_block], under the two
    read semaphores and after the error injection, and the state it leaves. *)
Variable block_store_read : Env -> BlockMD -> Env * Completion Buffer.

(** [crypto.createHash(digest_type).update(data).digest('base64')] *)
Variable crypto_digest_b64 : string -> Buffer -> string.

(** The decode kernel [nb_native().chunk_coder(chunk, cb)] on a chunk with
    [coder = 'dec'] and the given fragments: the chunk data it sets, or
    the error it calls back with. *)
Variable chunk_coder : list Frag -> Completion Buffer.

(** [part.chunk.chunk_coder_config.frag_digest_type] *)
Variable frag_digest_type : string.

(** The objects the read of one part works on.  A fragment is referred to
    by its index in [w_frags]: the lists of fragments passed around share
    the fragment objects.  Promises are run to completion one after the
    other, so a fragment's [read_promise] is never found pending. *)
Record World : Type := {
  w_env : Env;
  w_frags : list Frag;
  w_chunk_data : option Buffer;     (* part.chunk.data *)
  w_chunk_frags : list nat;         (* part.chunk.frags *)
  w_chunk_coder : option string;    (* part.chunk.coder *)
  w_trace : list Event
}.

(** A promise-returning computation. *)
Definition M (A : Type) : Type := World -> World * Completion A.

Definition resolve {A : Type} (a : A) : M A := fun w => (w, Return a).
Definition reject {A : Type} (e : Error) : M A := fun w => (w, Throw e).

(** [m.then(f)] *)
Definition then_ {A B : Type} (m : M A) (f : A -> M B) : M B :=
  fun w =>
    match m w with
    | (w', Return a) => f a w'
    | (w', Throw e) => (w', Throw e)
    end.

(** [m.catch(handler)] *)
Definition catch_ {A : Type} (m : M A) (handler : Error -> M A) : M A :=
  fun w =>
    match m w with
    | (w', Return a) => (w', Return a)
    | (w', Throw e) => handler e w'
    end.

(** [P.map(items, f)]: every call is made, in array order; the result
    rejects with the first rejection. *)
Fixpoint P_map {A : Type} (f : A -> M unit) (items : list A) : M unit :=
  match items with
  | [] => resolve tt
  | item :: rest =>
      fun w =>
        let '(w', r) := f item w in
        let '(w'', r') := P_map f rest w' in
        (w'', match r with Throw e => Throw e | Return _ => r' end)
  end.

Definition emit (ev : Event) : M unit :=
  fun w =>
    ({| w_env := w_env w; w_frags := w_frags w; w_chunk_data := w_chunk_data w;
        w_chunk_frags := w_chunk_frags w; w_chunk_coder := w_chunk_coder w;
        w_trace := w_trace w ++ [ev] |},
     Return tt).

(** [frag.data = buffer] *)
Definition set_frag_data (frag : nat) (buffer : Buffer) : M unit :=
  fun w =>
    ({| w_env := w_env w;
        w_frags := alter (fun f => frag_with_data f buffer) frag (w_frags w);
        w_chunk_data := w_chunk_data w;
        w_chunk_frags := w_chunk_frags w; w_chunk_coder := w_chunk_coder w;
        w_trace := w_trace w |},
     Return tt).

Definition string_eqb (a b : string) : bool :=
  if String.string_dec a b then true else false.

Definition buffer_equals (a b : Buffer) : bool :=
  if List.list_eq_dec Byte.byte_eq_dec a b then true else false.

Definition is_return {A : Type} (c : Completion A) : bool :=
  match c with Return _ => true | Throw _ => false end.

(** [_read_block(params, block_md)] *)
Definition _read_block (io : ObjectIO) (block_md : BlockMD) : M Buffer :=
  fun w =>
    let '(env, res) := block_store_read (w_env w) block_md in
    let res :=
      match res with
      | Return data =>
          if _verification_mode io then
            let digest_b64 := crypto_digest_b64 (block_digest_type block_md) data in
            if negb (string_eqb digest_b64 (block_digest_b64 block_md))
            then Throw (RpcError "TAMPERING"
                          ("Block digest varification failed " ++ block_id block_md))
            else Return data
          else Return data
      | Throw err => Throw err
      end in
    ({| w_env := env; w_frags := w_frags w; w_chunk_data := w_chunk_data w;
        w_chunk_frags := w_chunk_frags w; w_chunk_coder := w_chunk_coder w;
        w_trace := w_trace w ++ [EvReadBlock block_md (is_return res)] |},
     res).

(** [_report_error_on_object_read(params, part, block_md, err)]: the
    report is sent, its own failure is dropped, and the original error is
    thrown again. *)
Definition _report_error_on_object_read (block_md : BlockMD) (err : Error) : M unit :=
  then_ (emit (EvReportError block_md err)) (fun _ => reject err).

(** [read_next_block(i)] of [_read_frag], on the blocks from index [i] on. *)
Fixpoint read_next_block (io : ObjectIO) (frag : nat) (blocks : list Block) : M unit :=
  match blocks with
  | [] => resolve tt    (* no more blocks *)
  | block :: rest =>
      catch_
        (catch_
           (then_ (_read_block io (block_md block))
                  (fun buffer => set_frag_data frag buffer))
           (fun err => _report_error_on_object_read (block_md block) err))
        (fun _ => read_next_block io frag rest)
  end.

(** The handling of one replica in verification mode. *)
Definition verify_block (io : ObjectIO) (frag : nat) (digest_b64 : string)
    (block : Block) : M unit :=
  catch_
    (then_ (_read_block io (block_md block))
       (fun buffer w =>
          if negb (string_eqb (block_digest_type (block_md block)) frag_digest_type)
             || negb (string_eqb (block_digest_b64 (block_md block)) digest_b64)
          then reject (new_Error
                 "READ _read_frag: (_verification_mode) inconsistent replica digests") w
          else
            match w_frags w !! frag with
            | Some {| frag_data := Some data |} =>
                if buffer_equals buffer data then resolve tt w
                else reject (new_Error
                       "READ _read_frag: (_verification_mode) inconsistent data") w
            | _ => set_frag_data frag buffer w
            end))
    (fun err => _report_error_on_object_read (block_md block) err).

(** [_read_frag(params, part, frag)] *)
Definition _read_frag (io : ObjectIO) (frag : nat) : M unit :=
  fun w =>
    match w_frags w !! frag with
    | None => reject (TypeError "Cannot read properties of undefined") w
    | Some f =>
        match frag_data f with
        | Some _ => resolve tt w                      (* if (frag.data) return; *)
        | None =>
            match frag_blocks f with
            | None => resolve tt w                    (* if (!frag.blocks) return; *)
            | Some blocks =>
                match get_frag_desc f with
                | Throw e => reject e w
                | Return _ =>
                    if _verification_mode io
                    then P_map (verify_block io frag (frag_digest_b64 f)) blocks w
                    else read_next_block io frag blocks w
                end
            end
        end
    end.

(** The fragment objects a list of references stands for. *)
Definition frags_at (w : World) (frags : list nat) : list Frag :=
  omap (fun i => w_frags w !! i) frags.

(** The call of the decode kernel at the end of [_read_frags]. *)
Definition decode_chunk : M unit :=
  fun w =>
    let res := chunk_coder (frags_at w (w_chunk_frags w)) in
    ({| w_env := w_env w; w_frags := w_frags w;
        w_chunk_data :=
          match res with Return data => Some data | Throw _ => w_chunk_data w end;
        w_chunk_frags := w_chunk_frags w; w_chunk_coder := w_chunk_coder w;
        w_trace := w_trace w ++ [EvDecode (w_chunk_frags w) (is_return res)] |},
     match res with Return _ => Return tt | Throw e => Throw e end).

(** [_read_frags(params, part, frags)] *)
Definition _read_frags (io : ObjectIO) (frags : list nat) : M unit :=
  then_
    (fun w =>
       ({| w_env := w_env w; w_frags := w_frags w;
           w_chunk_data := None;
           w_chunk_frags := frags;
           w_chunk_coder := Some "dec"%string;
           w_trace := w_trace w |},
        Return tt))
    (fun _ => then_ (P_map (_read_frag io) frags) (fun _ => decode_chunk)).

Definition is_data_frag (w : World) (frag : nat) : bool :=
  match w_frags w !! frag with
  | Some f => index_ge_0 (frag_data_index f)
  | None => false
  end.

Definition is_parity_frag (w : World) (frag : nat) : bool :=
  match w_frags w !! frag with
  | Some f => index_ge_0 (frag_parity_index f)
  | None => false
  end.

(** [assert(part.chunk.data.equals(data_from_data_frags))] *)
Definition assert_same_data (data_from_data_frags : option Buffer) : M unit :=
  fun w =>
    match w_chunk_data w, data_from_data_frags with
    | Some data, Some data' =>
        if buffer_equals data data' then resolve tt w
        else reject (new_Error "AssertionError") w
    | _, _ => reject (TypeError "Cannot read properties of undefined") w
    end.

(** The fragments verification mode decodes from a second time. *)
Definition verify_parity_frags (w : World) (all_frags data_frags : list nat) : list nat :=
  let parity_frags := filter (fun frag => is_parity_frag w frag = true) all_frags in
  parity_frags ++
  js_slice data_frags 0
    (Z.of_nat (length data_frags) - Z.of_nat (length parity_frags)).

(** [_read_part(params, part)] *)
Definition _read_part (io : ObjectIO) : M unit :=
  fun w =>
    let all_frags := w_chunk_frags w in
    let data_frags := filter (fun frag => is_data_frag w frag = true) all_frags in
    catch_
      (then_
         (catch_ (_read_frags io data_frags)
            (fun err =>
               if _verification_mode io then reject err
               else if (length data_frags =? length all_frags)%nat then reject err
               else _read_frags io all_frags))
         (fun _ =>
            if _verification_mode io then
              fun w' =>
                let data_from_data_frags := w_chunk_data w' in
                then_ (_read_frags io (verify_parity_frags w' all_frags data_frags))
                      (fun _ => assert_same_data data_from_data_frags) w'
            else resolve tt))
      (fun err => reject err)
      w.

(** What was done between the states [w] and [w']. *)
Definition new_events (w w' : World) : list Event :=
  skipn (length (w_trace w)) (w_trace w').

(** The decode calls in a trace. *)
Definition decodes (trace : list Event) : list (list nat * bool) :=
  omap (fun ev => match ev with EvDecode frags ok => Some (frags, ok) | _ => None end)
       trace.

(** The trace of [w'] continues the trace of [w]. *)
Definition trace_extends (w w' : World) : Prop :=
  w_trace w' = w_trace w ++ new_events w w'.

(** A fragment without its data: what does not change while it is read. *)
Definition frag_shape (f : Frag) : Frag :=
  {| frag_data_index := frag_data_index f;
     frag_parity_index := frag_parity_index f;
     frag_lrc_index := frag_lrc_index f;
     frag_digest_b64 := frag_digest_b64 f;
     frag_blocks := frag_blocks f;
     frag_data := None |}.

(** From [w] to [w'] blocks were read and errors reported, and nothing
    else: no decode call, the same fragment objects up to their data, the
    same chunk fields. *)
Definition reads_only (w w' : World) : Prop :=
  trace_extends w w' /\
  decodes (new_events w w') = [] /\
  frag_shape <$> w_frags w' = frag_shape <$> w_frags w /\
  w_chunk_data w' = w_chunk_data w /\
  w_chunk_frags w' = w_chunk_frags w /\
  w_chunk_coder w' = w_chunk_coder w.

(** A fragment that is of one of the three kinds. *)
Definition frag_kind_ok (f : Frag) : Prop :=
  index_ge_0 (frag_data_index f) = true \/
  index_ge_0 (frag_parity_index f) = true \/
  index_ge_0 (frag_lrc_index f) = true.

(** Every reference in [frags] is to a fragment object of one of the three
    kinds. *)
Definition frags_well_formed (w : World) (frags : list nat) : Prop :=
  Forall (fun frag => exists f, w_frags w !! frag = Some f /\ frag_kind_ok f) frags.

(** The trace of a run of failed block reads, each reported before the
    next block is tried. *)
Fixpoint failed_reads (attempts : list (BlockMD * Error)) : list Event :=
  match attempts with
  | [] => []
  | (block, err) :: rest =>
      EvReadBlock block false :: EvReportError block err :: failed_reads rest
  end.

End ReadPath.

(** *** A small world to run the read path in

    Two agents: every read from node "down" fails, every read from another
    node yields the block's digest string as its bytes.  The decode kernel
    needs two fragments with data, and joins the data of the first two. *)

Definition example_agents (env : nat) (block : BlockMD) : nat * Completion Buffer :=
  (S env,
   if string_eqb (block_node block) "down"
   then Throw (RpcError "RPC_CONNECT_TIMEOUT" "")
   else Return (list_byte_of_string (block_digest_b64 block))).

Definition example_digest (digest_type : string) (data : Buffer) : string :=
  string_of_list_byte data.

Definition example_coder (frags : list Frag) : Completion Buffer :=
  let got := omap frag_data frags in
  if (2 <=? length got)%nat then Return (concat (take 2 got))
  else Throw (new_Error "not enough fragments").

Definition example_block (id node digest : string) : Block :=
  {| block_md := {| block_id := id; block_node := node; block_address := node;
                    block_digest_type := "sha1"; block_digest_b64 := digest |} |}.

(** A data fragment whose first replica is on the node that is down, a
    data fragment all of whose replicas are there, and a parity fragment. *)
Definition example_frags : list Frag :=
  [ {| frag_data_index := Some 0; frag_parity_index := None; frag_lrc_index := None;
       frag_digest_b64 := "AA";
       frag_blocks := Some [example_block "b1" "down" "AA"; example_block "b2" "n2" "AA"];
       frag_data := None |};
    {| frag_data_index := Some 1; frag_parity_index := None; frag_lrc_index := None;
       frag_digest_b64 := "BB";
       frag_blocks := Some [example_block "b3" "down" "BB"];
       frag_data := None |};
    {| frag_data_index := None; frag_parity_index := Some 0; frag_lrc_index := None;
       frag_digest_b64 := "PP";
       frag_blocks := Some [example_block "b4" "n3" "PP"];
       frag_data := None |} ].

Definition example_world : World (Env := nat) :=
  {| w_env := 0%nat; w_frags := example_frags; w_chunk_data := None;
     w_chunk_frags := [0; 1; 2]%nat; w_chunk_coder := None; w_trace := [] |}.

Definition example_io (verification_mode : bool) : ObjectIO :=
  {| _last_io_bottleneck_report := 0; _verification_mode := verification_mode;
     location_node_id := JUndefined; location_host_id := JUndefined |}.

(** *** The upload entry points: [upload_object], [upload_multipart],
    [_upload_copy] *)

(** Whether a value is truthy ([if (v)], [!v], [v || w]). *)
Definition truthy (v : JSVal) : bool :=
  match v with
  | JUndefined | JNull => false
  | JBool b => b
  | JNum n => negb (n =? 0)
  | JStr s => negb (string_eqb s "")
  end.

(** [params.copy_source]; [source_ranges] is [None] when there is no
    [ranges] field. *)
Record CopySource : Type := {
  source_obj_id : JSVal;
  source_bucket : JSVal;
  source_key : JSVal;
  source_version_id : JSVal;
  source_ranges : option (list (Z * Z))
}.

(** The fields of the reply to [create_object_upload] or to
    [create_multipart] that bear on what is called next. *)
Record CreateReply : Type := {
  reply_obj_id : JSVal;
  reply_tier_id : JSVal;
  reply_bucket_id : JSVal;
  reply_multipart_id : JSVal
}.

(** What an upload calls, in the order it calls it: the calls to the
    metadata service ([params.client.object]) and the two data stages
    [this._upload_copy] and [this._upload_stream]. *)
Inductive UploadStep : Type :=
  | create_object_upload
  | create_multipart
  | upload_copy
  | upload_stream
  | complete_object_upload (obj_id : JSVal)
  | complete_multipart (multipart_id : JSVal)
  | abort_object_upload (obj_id : JSVal).

(** How each call of an upload ends when it is made. *)
Record UploadAnswers (R : Type) : Type := {
  created : Completion CreateReply;     (* create_object_upload, create_multipart *)
  uploaded : Completion unit;           (* _upload_copy or _upload_stream *)
  completed : Completion R;             (* complete_object_upload, complete_multipart *)
  aborted : Completion unit             (* abort_object_upload *)
}.
Arguments created {R} _.
Arguments uploaded {R} _.
Arguments completed {R} _.
Arguments aborted {R} _.

(** The [catch] block of [upload_object], with [obj_id] the value of
    [params.obj_id] when it is entered. *)
Definition abort_upload {A R : Type} (answers : UploadAnswers R) (obj_id : JSVal)
    (steps : list UploadStep) (err : Error) : list UploadStep * Completion A :=
  if truthy obj_id then
    match aborted answers with
    | Return _ => (steps ++ [abort_object_upload obj_id], Throw err)
    | Throw err2 => (steps ++ [abort_object_upload obj_id], Throw err)
    end
  else (steps, Throw err).

(** [async upload_object(params)], for the [params.obj_id] the caller
    passed: the calls made, and the reply of the completion with the
    [copy_source] written to it for a copy. *)
Definition upload_object {R : Type} (params_obj_id : JSVal)
    (copy_source : option CopySource) (answers : UploadAnswers R)
    : list UploadStep * Completion (R * option CopySource) :=
  let data_step :=
    match copy_source with Some _ => upload_copy | None => upload_stream end in
  match created answers with
  | Throw err => abort_upload answers params_obj_id [create_object_upload] err
  | Return create_reply =>
      let obj_id := reply_obj_id create_reply in
      match uploaded answers with
      | Throw err => abort_upload answers obj_id [create_object_upload; data_step] err
      | Return _ =>
          match completed answers with
          | Throw err =>
              abort_upload answers obj_id
                [create_object_upload; data_step; complete_object_upload obj_id] err
          | Return complete_result =>
              ([create_object_upload; data_step; complete_object_upload obj_id],
               Return (complete_result, copy_source))
          end
      end
  end.

(** [async upload_multipart(params)] *)
Definition upload_multipart {R : Type} (copy_source : option CopySource)
    (answers : UploadAnswers R) : list UploadStep * Completion R :=
  let data_step :=
    match copy_source with Some _ => upload_copy | None => upload_stream end in
  match created answers with
  | Throw err => ([create_multipart], Throw err)
  | Return multipart_reply =>
      let multipart_id := reply_multipart_id multipart_reply in
      match uploaded answers with
      | Throw err => ([create_multipart; data_step], Throw err)
      | Return _ =>
          ([create_multipart; data_step; complete_multipart multipart_id],
           completed answers)
      end
  end.

(** A part of the reply to [read_object_mappings], with its [chunk]. *)
Record SourcePart : Type := {
  source_part : PartInfo;
  source_chunk : option ChunkAPI
}.

(** [md[name]] for a field kept in [md_other]. *)
Fixpoint field (name : string) (fields : list (string * JSVal)) : JSVal :=
  match fields with
  | [] => JUndefined
  | (n, v) :: rest => if string_eqb n name then v else field name rest
  end.

(** The fields [_upload_copy] writes to [complete_params] when it copies
    the mappings. *)
Record CopiedParams : Type := {
  copied_size : JSVal;
  copied_num_parts : Z;
  copied_md5_b64 : JSVal;
  copied_sha256_b64 : JSVal;
  copied_etag : JSVal
}.

(** What [_upload_copy] calls: [read_object_stream] on a range of the
    source or on all of it, [_upload_stream] on that stream,
    [read_object_mappings] on the source, [finalize_object_parts]. *)
Inductive CopyStep : Type :=
  | read_object_stream (source : CopySource) (range : option (Z * Z))
  | copy_upload_stream
  | read_object_mappings (source : CopySource)
  | finalize_object_parts (obj_id : JSVal) (parts : list PartInfo).

(** [_.omit(p, 'chunk', 'multipart_id')] followed by
    [new_part.multipart_id = complete_params.multipart_id]. *)
Definition new_part (multipart_id : JSVal) (p : SourcePart) : PartInfo :=
  {| part_obj_id := part_obj_id (source_part p);
     part_chunk_id := part_chunk_id (source_part p);
     part_multipart_id := multipart_id;
     part_start := part_start (source_part p);
     part_end := part_end (source_part p);
     part_seq := part_seq (source_part p) |}.

(** [async _upload_copy(params, complete_params)], given how the calls it
    makes end: the calls, what it writes to [complete_params] ([None] when
    it writes nothing), and how it ends. *)
Definition _upload_copy {R : Type} (params_obj_id params_bucket : JSVal)
    (complete_multipart_id : JSVal) (copy_source : CopySource)
    (streamed : Completion R)
    (mappings : Completion (ObjectMD * list SourcePart))
    (finalized : Completion R)
    : list CopyStep * option CopiedParams * Completion R :=
  if negb (strict_eq (source_bucket copy_source) params_bucket)
     || match source_ranges copy_source with Some _ => true | None => false end
  then
    match source_ranges copy_source with
    | Some ranges =>
        match ranges with
        | range :: _ =>
            ([read_object_stream copy_source (Some range); copy_upload_stream],
             None, streamed)
        | [] =>
            ([], None,
             Throw (TypeError "Cannot read properties of undefined (reading 'start')"))
        end
    | None =>
        ([read_object_stream copy_source None; copy_upload_stream], None, streamed)
    end
  else
    (* copy mappings *)
    match mappings with
    | Throw err => ([read_object_mappings copy_source], None, Throw err)
    | Return (object_md, parts) =>
        ([read_object_mappings copy_source;
          finalize_object_parts params_obj_id (map (new_part complete_multipart_id) parts)],
         Some {| copied_size := md_size object_md;
                 copied_num_parts := Z.of_nat (length parts);
                 copied_md5_b64 := field "md5_b64" (md_other object_md);
                 copied_sha256_b64 := field "sha256_b64" (md_other object_md);
                 copied_etag := md_etag object_md |},
         finalized)
    end.

(** *** Reading through the cache: [read_object_with_cache] *)

(** Modelled from the spec: [range_utils.align_up] ([util/range_utils.js])
    is not among the sources.  Section 4.8: "read_object_with_cache(start,
    requested_end), which splits the range into aligned sub-ranges"; the
    glossary gives the aligned range of a position; [align_up] is the
    first multiple of the alignment that is not below the offset. *)
Definition align_up (offset align : Z) : Z := align_down (offset + align - 1) align.

(** [Promise.all(promises)]: the values, or the first rejection. *)
Fixpoint Promise_all {A : Type} (promises : list (Completion A)) : Completion (list A) :=
  match promises with
  | [] => Return []
  | Throw e :: _ => Throw e
  | Return a :: rest =>
      match Promise_all rest with
      | Return values => Return (a :: values)
      | Throw e => Throw e
      end
  end.

(** [params] with [start] and [end] replaced ([_.clone(params)] and the two
    assignments). *)
Definition with_range (params : ReadParams) (start end_ : Z) : ReadParams :=
  {| read_obj_id := read_obj_id params;
     read_bucket := read_bucket params;
     read_key := read_key params;
     read_start := start;
     read_end := end_ |}.

Section ReadWithCache.

(** [config.IO_OBJECT_RANGE_ALIGN] and [config.IO_READ_RANGE_CONCURRENCY] *)
Variable IO_OBJECT_RANGE_ALIGN : Z.
Variable IO_READ_RANGE_CONCURRENCY : nat.

(** The state of the read cache, and [this._read_cache.get_with_cache]. *)
Context {Cache : Type}.
Variable cache_get : Cache -> ReadParams -> Cache * Completion (option Buffer).

(** The ranges the [while] loop of [read_object_with_cache] submits from
    [pos] on, [slots] being the number of promises it may still add. *)
Fixpoint submit_ranges (slots : nat) (pos end_ : Z) : list (Z * Z) :=
  match slots with
  | O => []
  | S slots' =>
      if pos <? end_ then
        let range_end := Z.min end_ (align_up (pos + 1) IO_OBJECT_RANGE_ALIGN) in
        (pos, range_end) :: submit_ranges slots' range_end end_
      else []
  end.

(** The calls of [get_with_cache], one for each range, in order. *)
Fixpoint get_ranges (cache : Cache) (params : ReadParams) (ranges : list (Z * Z))
    : Cache * list (Completion (option Buffer)) :=
  match ranges with
  | [] => (cache, [])
  | (start, end_) :: rest =>
      let '(cache, promise) := cache_get cache (with_range params start end_) in
      let '(cache, promises) := get_ranges cache params rest in
      (cache, promise :: promises)
  end.

(** [b => b && b.length] *)
Definition has_bytes (b : option Buffer) : option Buffer :=
  match b with
  | Some buffer => if (length buffer =? 0)%nat then None else Some buffer
  | None => None
  end.

(** [async read_object_with_cache(params)]; [Return None] is the [null]
    returned.  The message of the first error leaves out the printed
    [params]. *)
Definition read_object_with_cache (cache : Cache) (params : ReadParams)
    : Cache * Completion (option (list Buffer)) :=
  if string_eqb (read_obj_id params) "" then
    (cache, Throw (new_Error "read_object_with_cache: no obj_id provided"))
  else if read_end params <=? read_start params then
    (cache, Return None)    (* empty read range *)
  else
    let ranges :=
      submit_ranges IO_READ_RANGE_CONCURRENCY (read_start params) (read_end params) in
    let '(cache, promises) := get_ranges cache params ranges in
    match Promise_all promises with
    | Throw e => (cache, Throw e)
    | Return buffers => (cache, Return (Some (omap has_bytes buffers)))
    end.

(** Ranges that follow one another from [pos] on, none of them empty, each
    inside the aligned range of its first byte. *)
Fixpoint aligned_chain (pos : Z) (ranges : list (Z * Z)) : Prop :=
  match ranges with
  | [] => True
  | (start, end_) :: rest =>
      start = pos /\ start < end_ /\
      end_ <= align_down start IO_OBJECT_RANGE_ALIGN + IO_OBJECT_RANGE_ALIGN /\
      aligned_chain end_ rest
  end.

(** The offset a chain of ranges from [pos] on ends at. *)
Definition chain_end (pos : Z) (ranges : list (Z * Z)) : Z :=
  List.last (map snd ranges) pos.

End ReadWithCache.

(** *** The readable stream of an object: [read_object_stream] *)

(** [class ObjectReadable]: the fields of a reader; [reader_end] is [None]
    for [Infinity]. *)
Record ObjectReadable : Type := {
  reader_pos : Z;
  reader_end : option Z;
  reader_pending : list Buffer;
  reader_closed : bool
}.

(** [new ObjectReadable(params, read)]:
    [this.pos = Number(params.start) || 0;]
    [this.end = _.isUndefined(params.end) ? Infinity : Number(params.end);],
    for [start] and [end] that are numbers or undefined. *)
Definition new_ObjectReadable (start end_ : option Z) : ObjectReadable :=
  {| reader_pos := default 0 start;
     reader_end := end_;
     reader_pending := [];
     reader_closed := false |}.

(** [close()] *)
Definition close (reader : ObjectReadable) : ObjectReadable :=
  {| reader_pos := reader_pos reader;
     reader_end := reader_end reader;
     reader_pending := reader_pending reader;
     reader_closed := true |}.

(** The fields of the [params] of [read_object_stream] the prefetch looks
    at: [params.start], and the size and content type of
    [params.object_md] when it is given. *)
Record StreamParams : Type := {
  stream_start : option Z;
  stream_object_md : option (Z * string)
}.

(** What a pull does to the outside: [reader.push(buffer)] ([None] for
    [reader.push(null)]), [reader.emit('error', err)], a call of
    [read_object_with_cache] on a range under the stream semaphore, the
    same for the prefetch of the tail, a report of an endpoint problem. *)
Inductive ReaderEvent : Type :=
  | reader_push (chunk : option Buffer)
  | reader_emit_error (err : Error)
  | read_range (start end_ : Z)
  | prefetch_range (start end_ : Z)
  | report_problem (problem : EndpointProblem).

(** What the environment answers to one pull: the size asked for, how the
    read under the semaphore ends and the clock value when its failure is
    handled, the waiting time of the semaphore, and the same for the
    prefetch. *)
Record Pull : Type := {
  requested_size : Z;
  read_answer : Completion (option (list Buffer));
  read_time : Z;
  waiting_time : Z;
  prefetch_answer : Completion (option (list Buffer));
  prefetch_time : Z
}.

(** The sum of the lengths of some buffers. *)
Definition bytes (buffers : list Buffer) : Z := Z.of_nat (length (concat buffers)).

(** The condition of the prefetch of the last 1024 bytes. *)
Definition wants_prefetch (VIDEO_READ_STREAM_PRE_FETCH_LOAD_CAP : Z)
    (params : StreamParams) (waiting_time : Z) : option (Z * Z) :=
  match stream_object_md params with
  | Some (size, content_type) =>
      if (default 0 (stream_start params) =? 0)      (* !params.start *)
         && (1024 * 1024 <? size)
         && String.prefix "video" content_type
         && (waiting_time <? VIDEO_READ_STREAM_PRE_FETCH_LOAD_CAP)
      then Some (size - 1024, size)
      else None
  | None => None
  end.

(** The function [requested_size => { ... }] that [read_object_stream]
    gives its reader as [_read]: the instance and the reader afterwards,
    and what was done. *)
Definition _read (VIDEO_READ_STREAM_PRE_FETCH_LOAD_CAP : Z) (params : StreamParams)
    (io : ObjectIO) (reader : ObjectReadable) (pull : Pull)
    : ObjectIO * ObjectReadable * list ReaderEvent :=
  if reader_closed reader then (io, reader, [reader_push None])
  else
    match reader_pending reader with
    | buffer :: pending =>
        (io,
         {| reader_pos := reader_pos reader; reader_end := reader_end reader;
            reader_pending := pending; reader_closed := reader_closed reader |},
         [reader_push (Some buffer)])
    | [] =>
        let requested_end :=
          match reader_end reader with
          | Some end_ => Z.min end_ (reader_pos reader + requested_size pull)
          | None => reader_pos reader + requested_size pull
          end in
        let '(io, reader', events) :=
          match read_answer pull with
          | Return buffers =>
              match default [] buffers with
              | [] => (io, reader, [reader_push None])
              | first :: pending =>
                  (* the buffers are added to [pending], which is empty, and
                     the first is shifted off and pushed *)
                  (io,
                   {| reader_pos := reader_pos reader + bytes (first :: pending);
                      reader_end := reader_end reader;
                      reader_pending := pending;
                      reader_closed := reader_closed reader |},
                   [reader_push (Some first)])
              end
          | Throw err =>
              let '(io, reports, emitted, _) :=
                read_stream_on_error io (read_time pull) err in
              (io, reader, map report_problem reports ++ map reader_emit_error emitted)
          end in
        let '(io, prefetch) :=
          match wants_prefetch VIDEO_READ_STREAM_PRE_FETCH_LOAD_CAP params
                               (waiting_time pull) with
          | Some (start, end_) =>
              match prefetch_answer pull with
              | Return _ => (io, [prefetch_range start end_])
              | Throw err =>
                  let '(io, reports, _) :=
                    _handle_semaphore_errors io (prefetch_time pull) err in
                  (io, prefetch_range start end_ :: map report_problem reports)
              end
          | None => (io, [])
          end in
        (io, reader', read_range (reader_pos reader) requested_end :: events ++ prefetch)
    end.

(** A run of pulls on a reader. *)
Fixpoint pulls (VIDEO_READ_STREAM_PRE_FETCH_LOAD_CAP : Z) (params : StreamParams)
    (io : ObjectIO) (reader : ObjectReadable) (run : list Pull)
    : ObjectIO * ObjectReadable * list ReaderEvent :=
  match run with
  | [] => (io, reader, [])
  | pull :: rest =>
      let '(io, reader, events) :=
        _read VIDEO_READ_STREAM_PRE_FETCH_LOAD_CAP params io reader pull in
      let '(io, reader, events') :=
        pulls VIDEO_READ_STREAM_PRE_FETCH_LOAD_CAP params io reader rest in
      (io, reader, events ++ events')
  end.

(** The buffers pushed to the consumer of the reader. *)
Definition pushed (events : list ReaderEvent) : list Buffer :=
  omap (fun ev => match ev with reader_push (Some buffer) => Some buffer | _ => None end)
       events.

(** Every range read starts at [offset] plus the number of bytes pushed
    before the read, and ends at or before [end_] when one is given. *)
Fixpoint reads_follow (end_ : option Z) (offset : Z) (events : list ReaderEvent) : Prop :=
  match events with
  | [] => True
  | reader_push (Some buffer) :: rest =>
      reads_follow end_ (offset + Z.of_nat (length buffer)) rest
  | read_range start range_end :: rest =>
      start = offset /\
      match end_ with Some e => range_end <= e | None => True end /\
      reads_follow end_ offset rest
  | _ :: rest => reads_follow end_ offset rest
  end.

(** The error of the first call of an upload that fails: the creation, the
    data stage or the completion. *)
Definition first_failure {R : Type} (answers : UploadAnswers R) : option Error :=
  match created answers, uploaded answers, completed answers with
  | Throw err, _, _ => Some err
  | Return _, Throw err, _ => Some err
  | Return _, Return _, Throw err => Some err
  | Return _, Return _, Return _ => None
  end.

(** [params.obj_id] once the creation has been answered: the id of the
    reply, or what the caller passed when the creation failed. *)
Definition known_obj_id {R : Type} (params_obj_id : JSVal) (answers : UploadAnswers R)
    : JSVal :=
  match created answers with
  | Return create_reply => reply_obj_id create_reply
  | Throw _ => params_obj_id
  end.

(** All that was pushed, the ends of stream included, and the errors
    emitted on the reader. *)
Definition pushes (events : list ReaderEvent) : list (option Buffer) :=
  omap (fun ev => match ev with reader_push chunk => Some chunk | _ => None end) events.

Definition errors_emitted (events : list ReaderEvent) : list Error :=
  omap (fun ev => match ev with reader_emit_error err => Some err | _ => None end) events.

(** The ranges read, prefetches apart. *)
Definition ranges_read (events : list ReaderEvent) : list (Z * Z) :=
  omap (fun ev => match ev with read_range s e => Some (s, e) | _ => None end) events.

(** *** Reading a range of an object: [read_object] *)

(** A part of the reply to [read_object_mappings] with the chunk it refers
    to: the offsets of the part, and the fragment objects and fields of
    [part.chunk]. *)
Record MappedPart : Type := {
  mapped_start : Z;
  mapped_end : Z;
  mapped_chunk_offset : option Z;
  mapped_frags : list Frag;
  mapped_chunk_frags : list nat;        (* part.chunk.frags *)
  mapped_chunk_data : option Buffer;    (* part.chunk.data *)
  mapped_chunk_coder : option string    (* part.chunk.coder *)
}.

(** The part as [combine_parts_buffers_in_range] looks at it. *)
Definition range_part (part : MappedPart) : RangePart :=
  {| rpart_start := mapped_start part;
     rpart_end := mapped_end part;
     rpart_chunk_offset := mapped_chunk_offset part;
     rpart_chunk_data := mapped_chunk_data part |}.

Definition number_of (v : JSVal) : Z :=
  match v with JNum n => n | _ => 0 end.

(** [mappings.object_md.size || mappings.object_md.upload_size || 0], for
    sizes that are numbers when they are there. *)
Definition object_size (object_md : ObjectMD) : Z :=
  if truthy (md_size object_md) then number_of (md_size object_md)
  else if truthy (field "upload_size" (md_other object_md))
       then number_of (field "upload_size" (md_other object_md))
       else 0.

(** The block reads of a trace, and the errors reported in it. *)
Definition blocks_read (trace : list Event) : list BlockMD :=
  omap (fun ev => match ev with EvReadBlock block _ => Some block | _ => None end) trace.

Definition errors_reported (trace : list Event) : list (BlockMD * Error) :=
  omap (fun ev => match ev with EvReportError block err => Some (block, err) | _ => None end)
       trace.

(** The bytes of [object] at the offsets from [start] up to [end_]. *)
Definition object_range (object : Buffer) (start end_ : Z) : Buffer :=
  firstn (Z.to_nat (end_ - start)) (skipn (Z.to_nat start) object).

(** The parts follow one another from the offset [from] on, inside
    [object], and the chunk data of each holds, from the part's
    [chunk_offset] on, the bytes of [object] the part stands for. *)
Fixpoint parts_hold (object : Buffer) (from : Z) (parts : list RangePart) : Prop :=
  match parts with
  | [] => True
  | part :: rest =>
      rpart_start part = from /\
      from < rpart_end part <= Z.of_nat (length object) /\
      (exists data,
         rpart_chunk_data part = Some data /\
         0 <= default 0 (rpart_chunk_offset part) /\
         object_range data (default 0 (rpart_chunk_offset part))
                      (default 0 (rpart_chunk_offset part) + (rpart_end part - from))
           = object_range object from (rpart_end part)) /\
      parts_hold object (rpart_end part) rest
  end.

(** The offset at which parts that follow one another from [from] on end. *)
Definition parts_end (from : Z) (parts : list RangePart) : Z :=
  List.last (map rpart_end parts) from.

Section ReadObject.

Context {Env : Type}.
Variable block_store_read : Env -> BlockMD -> Env * Completion Buffer.
Variable crypto_digest_b64 : string -> Buffer -> string.
Variable chunk_coder : list Frag -> Completion Buffer.
Variable frag_digest_type : string.

(** [this._read_part(params, part)] on a part of the mappings: the agents
    and the trace afterwards, the part as the read leaves it, and how the
    read ends. *)
Definition read_mapped_part (io : ObjectIO) (part : MappedPart) (env : Env)
    (trace : list Event) : Env * list Event * MappedPart * Completion unit :=
  let '(w, r) :=
    _read_part block_store_read crypto_digest_b64 chunk_coder frag_digest_type io
      {| w_env := env; w_frags := mapped_frags part;
         w_chunk_data := mapped_chunk_data part;
         w_chunk_frags := mapped_chunk_frags part;
         w_chunk_coder := mapped_chunk_coder part;
         w_trace := trace |} in
  (w_env w, w_trace w,
   {| mapped_start := mapped_start part;
      mapped_end := mapped_end part;
      mapped_chunk_offset := mapped_chunk_offset part;
      mapped_frags := w_frags w;
      mapped_chunk_frags := w_chunk_frags w;
      mapped_chunk_data := w_chunk_data w;
      mapped_chunk_coder := w_chunk_coder w |},
   r).

(** [P.map(mappings.parts, part => this._read_part(params, part))] *)
Fixpoint read_mapped_parts (io : ObjectIO) (parts : list MappedPart) (env : Env)
    (trace : list Event) : Env * list Event * list MappedPart * Completion unit :=
  match parts with
  | [] => (env, trace, [], Return tt)
  | part :: rest =>
      let '(env, trace, part, r) := read_mapped_part io part env trace in
      let '(env, trace, rest, r') := read_mapped_parts io rest env trace in
      (env, trace, part :: rest, match r with Throw e => Throw e | Return _ => r' end)
  end.

(** [read_object(params)], given how the [read_object_mappings] call ends. *)
Definition read_object (io : ObjectIO)
    (mappings : Completion (ObjectMD * list MappedPart)) (start end_ : Z)
    (env : Env) (trace : list Event) : Env * list Event * Completion CacheData :=
  match mappings with
  | Throw err => (env, trace, Throw err)
  | Return (object_md, parts) =>
      let '(env, trace, parts, r) := read_mapped_parts io parts env trace in
      match r with
      | Throw err => (env, trace, Throw err)
      | Return _ =>
          (* once all parts finish we can construct the complete buffer *)
          let size := object_size object_md in
          let end_ := Z.min size end_ in
          match combine_parts_buffers_in_range (map range_part parts) start end_ with
          | Throw err => (env, trace, Throw err)
          | Return buffer =>
              (env, trace,
               Return {| data_object_md := object_md; data_buffer := buffer |})
          end
      end
  end.

End ReadObject.



End ObjectIO.

(** * Properties *)

(** ** The chunk splitter *)

Module SplitterFacts.

Import Splitter.

(** *** The boundary mask *)

Lemma testbit_hash_not x i :
  0 <= i -> Z.testbit (hash_not x) i = xorb (Z.testbit x i) (i <? HASH_BITS).
Proof.
  intros Hi. unfold hash_not. rewrite Z.lxor_spec.
  rewrite Z.testbit_ones_nonneg by (unfold HASH_BITS; lia). reflexivity.
Qed.

Lemma testbit_hash_shl shl x n i :
  0 <= i -> 0 <= n < HASH_BITS ->
  Z.testbit (hash_shl shl x n) i = Z.testbit x (i - n) && (i <? HASH_BITS).
Proof.
  intros Hi Hn. unfold hash_shl.
  destruct (Z.leb_spec 0 n); [| lia]. destruct (Z.ltb_spec n HASH_BITS); [| lia].
  cbn [andb]. rewrite Z.land_spec, Z.shiftl_spec by lia.
  rewrite Z.testbit_ones_nonneg by (unfold HASH_BITS; lia). reflexivity.
Qed.

(** Whatever the shift yields, it is a 64-bit value. *)
Lemma testbit_hash_shl_high shl x n i :
  HASH_BITS <= i -> Z.testbit (hash_shl shl x n) i = false.
Proof.
  intros Hi. unfold hash_shl. rewrite Z.land_spec.
  rewrite Z.testbit_ones_nonneg by (unfold HASH_BITS in *; lia).
  destruct (Z.ltb_spec i HASH_BITS); [lia |]. apply andb_false_r.
Qed.

Lemma avg_chunk_mask_ones shl bits :
  0 <= bits < HASH_BITS -> avg_chunk_mask shl bits = Z.ones bits.
Proof.
  intros Hb. apply Z.bits_inj'. intros i Hi. unfold avg_chunk_mask.
  rewrite testbit_hash_not, testbit_hash_shl by lia.
  rewrite Z.testbit_ones_nonneg by lia.
  destruct (Z.ltb_spec (i - bits) 0) as [Hlt | Hge].
  - rewrite (Z.testbit_neg_r _ _ Hlt). simpl.
    destruct (Z.ltb_spec i HASH_BITS), (Z.ltb_spec i bits); simpl; try reflexivity; lia.
  - rewrite testbit_hash_not by lia. rewrite Z.bits_0. simpl.
    destruct (Z.ltb_spec (i - bits) HASH_BITS), (Z.ltb_spec i HASH_BITS),
      (Z.ltb_spec i bits); simpl; try reflexivity; unfold HASH_BITS in *; lia.
Qed.

Lemma avg_chunk_mask_shift shl bits :
  0 <= bits < HASH_BITS -> avg_chunk_mask shl bits = Z.shiftl 1 bits - 1.
Proof.
  intros Hb. rewrite avg_chunk_mask_ones by assumption.
  rewrite Z.ones_equiv, Z.shiftl_1_l. lia.
Qed.

(** The value compared with is the mask itself ("all bits set"). *)
Lemma avg_chunk_val_mask shl bits : avg_chunk_val shl bits = avg_chunk_mask shl bits.
Proof.
  unfold avg_chunk_val. apply Z.bits_inj'. intros i Hi.
  rewrite Z.land_spec. unfold avg_chunk_mask at 1 2.
  rewrite !testbit_hash_not by lia. rewrite Z.bits_0. simpl.
  destruct (Z.ltb_spec i HASH_BITS); simpl; [reflexivity |].
  rewrite testbit_hash_shl_high by lia. reflexivity.
Qed.

Example avg_chunk_mask_20 shl : avg_chunk_mask shl 20 = 1048575.
Proof. reflexivity. Qed.

(** At a count of 64 the mask is what the undefined shift makes it: zero
    for a shift that takes its count modulo 64. *)
Example avg_chunk_mask_64 : avg_chunk_mask Rabin.shl_mod_width 64 = 0.
Proof. reflexivity. Qed.

Section WithEnvironment.

Variable shl_undefined : Z -> Z -> Z.
Variable rabin_update : Z -> byte -> byte -> Z.
Context {EVP_md5 EVP_sha256 : EVP_MD}.

#[local] Abbreviation Splitter := (Splitter.Splitter EVP_md5 EVP_sha256).
#[local] Abbreviation avg_chunk_mask := (Splitter.avg_chunk_mask shl_undefined).
#[local] Abbreviation avg_chunk_val := (Splitter.avg_chunk_val shl_undefined).
#[local] Abbreviation hash_matches := (Splitter.hash_matches shl_undefined).
#[local] Abbreviation _next_point := (Splitter._next_point shl_undefined rabin_update).
#[local] Abbreviation scan_loop := (Splitter.scan_loop rabin_update).
#[local] Abbreviation push_loop := (Splitter.push_loop shl_undefined rabin_update).
#[local] Abbreviation push := (Splitter.push shl_undefined rabin_update).
#[local] Abbreviation push_all := (Splitter.push_all shl_undefined rabin_update).
#[local] Abbreviation feed_byte := (Splitter.feed_byte shl_undefined rabin_update).
#[local] Abbreviation feed := (Splitter.feed shl_undefined rabin_update).
#[local] Abbreviation roll := (Splitter.roll rabin_update).
#[local] Abbreviation rolling_hash := (Splitter.rolling_hash rabin_update).
#[local] Abbreviation chunk_hash := (Splitter.chunk_hash rabin_update).
#[local] Abbreviation boundary_rule := (Splitter.boundary_rule shl_undefined rabin_update).

(** *** [push] against the byte-at-a-time machine *)

Lemma set_scan_state_id (s : Splitter) :
  set_scan_state s (_window s) (_window_pos s) (_chunk_pos s) (_hash s) = s.
Proof. destruct s; reflexivity. Qed.

Lemma scan_loop_done mask val max data chunk_pos window_pos hash window :
  max <= chunk_pos ->
  scan_loop mask val max data chunk_pos window_pos hash window =
  {| sc_data := data; sc_chunk_pos := chunk_pos; sc_window_pos := window_pos;
     sc_hash := hash; sc_window := window; sc_boundary := false |}.
Proof.
  intros Hmax. destruct data as [| b rest]; simpl; [reflexivity |].
  destruct (Z.ltb_spec chunk_pos max); [lia | reflexivity].
Qed.

Lemma length_window_set w i b : length (window_set w i b) = length w.
Proof. unfold window_set. apply length_insert. Qed.

(** With nothing left to read, [_next_point] returns [false] and changes
    nothing. *)
Lemma next_point_nil (s : Splitter) :
  splitter_inv s -> _next_point s [] = Some (false, s, []).
Proof.
  intros (Hmin & Hle & [Hpos Hlt] & Hint). unfold Splitter._next_point. simpl length.
  rewrite Z.add_0_r.
  destruct (Z.ltb_spec INT_MAX (_chunk_pos s)); [lia |].
  assert (Hskip : (_chunk_pos s <?
            (if _chunk_pos s <? _min_chunk s then _chunk_pos s else _min_chunk s))
          = false).
  { destruct (Z.ltb_spec (_chunk_pos s) (_min_chunk s)); apply Z.ltb_ge; lia. }
  rewrite Hskip. simpl.
  destruct (Z.leb_spec (_max_chunk s) (_chunk_pos s)); [lia |].
  rewrite set_scan_state_id. reflexivity.
Qed.

(** One byte peeled off the buffer: either the byte ends the chunk and
    [_next_point] returns [true] right after it, or [_next_point] goes on as
    it would from the state the byte leaves. *)
Lemma next_point_cons (s : Splitter) b data :
  splitter_inv s ->
  _chunk_pos s + Z.of_nat (length (b :: data)) <= INT_MAX ->
  (feed_byte s b = end_chunk s (_chunk_pos s + 1) /\
   _next_point s (b :: data) =
     Some (true,
           set_scan_state s (repeat x00 (length (_window s))) 0 (_chunk_pos s + 1) 0,
           data))
  \/
  (_split_points (feed_byte s b) = _split_points s /\
   _chunk_pos (feed_byte s b) = _chunk_pos s + 1 /\
   _chunk_pos s + 1 < _max_chunk s /\
   _next_point s (b :: data) = _next_point (feed_byte s b) data).
Proof.
  intros (Hmin & Hle & [Hpos Hlt] & Hint) Hfit.
  unfold Splitter.feed_byte, Splitter._next_point.
  change (length (b :: data)) with (S (length data)) in *.
  set (n := Z.of_nat (length data)).
  replace (Z.of_nat (S (length data))) with (n + 1) in * by lia.
  assert (0 <= n) by lia.
  destruct (Z.ltb_spec INT_MAX (_chunk_pos s + (n + 1))); [lia |].
  destruct (Z.ltb_spec (_chunk_pos s) (_min_chunk s)) as [Hskip | Hscan].
  - (* the byte is below min_chunk *)
    destruct (Z.leb_spec (_max_chunk s) (_chunk_pos s + 1)) as [Hend | Hgo].
    + left. split; [reflexivity |].
      assert (Heq : _chunk_pos s + 1 = _min_chunk s) by lia.
      destruct (Z.ltb_spec (_chunk_pos s + (n + 1)) (_min_chunk s)); [lia |].
      destruct (Z.ltb_spec (_chunk_pos s + (n + 1)) (_max_chunk s)); [lia |].
      destruct (Z.ltb_spec (_chunk_pos s) (_min_chunk s)); [| lia].
      replace (Z.to_nat (_min_chunk s - _chunk_pos s)) with 1%nat by lia.
      simpl skipn. rewrite scan_loop_done by lia. simpl.
      destruct (Z.leb_spec (_max_chunk s) (_min_chunk s)); [| lia].
      rewrite Heq. reflexivity.
    + right. simpl. repeat split; try lia.
      replace (_chunk_pos s + 1 + n) with (_chunk_pos s + (n + 1)) by lia.
      destruct (Z.ltb_spec INT_MAX (_chunk_pos s + (n + 1))); [lia |].
      set (total := _chunk_pos s + (n + 1)).
      set (min := if total <? _min_chunk s then total else _min_chunk s).
      assert (Hmin' : _chunk_pos s + 1 <= min)
        by (subst min; destruct (Z.ltb_spec total (_min_chunk s)); subst total; lia).
      destruct (Z.ltb_spec (_chunk_pos s) min); [| lia].
      replace (Z.to_nat (min - _chunk_pos s))
        with (S (Z.to_nat (min - (_chunk_pos s + 1)))) by lia.
      simpl skipn.
      destruct (Z.ltb_spec (_chunk_pos s + 1) min) as [Hlt' | Hge'].
      * reflexivity.
      * replace (min - (_chunk_pos s + 1)) with 0 by lia. simpl skipn.
        replace min with (_chunk_pos s + 1) by lia. reflexivity.
  - (* the byte is hashed *)
    destruct (Z.ltb_spec (_chunk_pos s + (n + 1)) (_min_chunk s)); [lia |].
    destruct (Z.ltb_spec (_chunk_pos s) (_min_chunk s)); [lia |].
    set (max := if _chunk_pos s + (n + 1) <? _max_chunk s
                then _chunk_pos s + (n + 1) else _max_chunk s).
    assert (Hmax : _chunk_pos s < max /\ max <= _max_chunk s)
      by (subst max; destruct (Z.ltb_spec (_chunk_pos s + (n + 1)) (_max_chunk s)); lia).
    simpl scan_loop.
    destruct (Z.ltb_spec (_chunk_pos s) max); [| lia].
    unfold hash_matches.
    set (hash := rabin_update (_hash s) b (window_get (_window s) (_window_pos s))).
    destruct (Z.eqb_spec (Z.land hash (avg_chunk_mask (_avg_chunk_bits s)))
                         (avg_chunk_val (_avg_chunk_bits s))) as [Hm | Hm].
    + left. simpl. split; reflexivity.
    + simpl orb.
      destruct (Z.leb_spec (_max_chunk s) (_chunk_pos s + 1)) as [Hend | Hgo].
      * left. split; [reflexivity |].
        rewrite scan_loop_done by lia. simpl.
        destruct (Z.leb_spec (_max_chunk s) (_chunk_pos s + 1)); [| lia].
        reflexivity.
      * right. simpl. repeat split; try lia.
        replace (_chunk_pos s + 1 + n) with (_chunk_pos s + (n + 1)) by lia.
      destruct (Z.ltb_spec INT_MAX (_chunk_pos s + (n + 1))); [lia |].
        destruct (Z.ltb_spec (_chunk_pos s + (n + 1)) (_min_chunk s)); [lia |].
        destruct (Z.ltb_spec (_chunk_pos s + 1) (_min_chunk s)); [lia |].
        fold max. rewrite length_window_set. reflexivity.
Qed.

Lemma feed_byte_static (s : Splitter) b :
  _min_chunk (feed_byte s b) = _min_chunk s /\
  _max_chunk (feed_byte s b) = _max_chunk s /\
  _avg_chunk_bits (feed_byte s b) = _avg_chunk_bits s /\
  _calc_md5 (feed_byte s b) = _calc_md5 s /\
  _calc_sha256 (feed_byte s b) = _calc_sha256 s /\
  _md5_ctx (feed_byte s b) = _md5_ctx s /\
  _sha256_ctx (feed_byte s b) = _sha256_ctx s.
Proof.
  unfold Splitter.feed_byte.
  repeat match goal with |- context [if ?c then _ else _] => destruct c end;
    repeat split; reflexivity.
Qed.

Lemma feed_static data : forall (s : Splitter),
  _min_chunk (feed s data) = _min_chunk s /\
  _max_chunk (feed s data) = _max_chunk s /\
  _avg_chunk_bits (feed s data) = _avg_chunk_bits s /\
  _calc_md5 (feed s data) = _calc_md5 s /\
  _calc_sha256 (feed s data) = _calc_sha256 s /\
  _md5_ctx (feed s data) = _md5_ctx s /\
  _sha256_ctx (feed s data) = _sha256_ctx s.
Proof.
  induction data as [| b data IH]; intros s; [repeat split; reflexivity |].
  change (feed s (b :: data)) with (feed (feed_byte s b) data).
  destruct (IH (feed_byte s b)) as (-> & -> & -> & -> & -> & -> & ->).
  apply feed_byte_static.
Qed.

(** A byte either ends the chunk, at a length above [min_chunk] or equal
    to [max_chunk], or extends it by one, below [max_chunk]. *)
Lemma feed_byte_cases (s : Splitter) b :
  splitter_inv s ->
  (feed_byte s b = end_chunk s (_chunk_pos s + 1) /\
   (_min_chunk s < _chunk_pos s + 1 \/ _chunk_pos s + 1 = _max_chunk s))
  \/
  (_split_points (feed_byte s b) = _split_points s /\
   _chunk_pos (feed_byte s b) = _chunk_pos s + 1 /\
   _chunk_pos s + 1 < _max_chunk s).
Proof.
  intros (Hmin & Hle & [Hpos Hlt] & Hint). unfold Splitter.feed_byte.
  destruct (Z.ltb_spec (_chunk_pos s) (_min_chunk s)).
  - destruct (Z.leb_spec (_max_chunk s) (_chunk_pos s + 1)).
    + left. split; [reflexivity | lia].
    + right. simpl. repeat split; try reflexivity; lia.
  - match goal with |- context [if ?c then _ else _] => destruct c eqn:Hc end.
    + left. split; [reflexivity | lia].
    + right. apply orb_false_iff in Hc. destruct Hc as [_ Hc].
      apply Z.leb_gt in Hc. simpl. repeat split; try reflexivity; lia.
Qed.

Lemma end_chunk_inv (s : Splitter) chunk_pos :
  0 < _min_chunk s -> _min_chunk s <= _max_chunk s -> _max_chunk s <= INT_MAX ->
  splitter_inv (end_chunk s chunk_pos).
Proof. intros H1 H2 H3. unfold splitter_inv. simpl. lia. Qed.

Lemma feed_byte_inv (s : Splitter) b :
  splitter_inv s -> splitter_inv (feed_byte s b).
Proof.
  intros Hinv. destruct (feed_byte_cases s b Hinv) as [[Hf _] | (_ & Hc & Hm)].
  - rewrite Hf. destruct Hinv as (? & ? & ? & ?). apply end_chunk_inv; assumption.
  - destruct Hinv as (H1 & H2 & H3 & H4). unfold splitter_inv. rewrite Hc.
    destruct (feed_byte_static s b) as (-> & -> & _). lia.
Qed.

(** A byte adds at most one to the length of the open chunk. *)
Lemma feed_chunk_pos_le data : forall (s : Splitter),
  splitter_inv s -> _chunk_pos (feed s data) <= _chunk_pos s + Z.of_nat (length data).
Proof.
  induction data as [| b data IH]; intros s Hinv; [simpl; lia |].
  change (feed s (b :: data)) with (feed (feed_byte s b) data).
  specialize (IH (feed_byte s b) (feed_byte_inv s b Hinv)).
  change (length (b :: data)) with (S (length data)).
  destruct (feed_byte_cases s b Hinv) as [[Hf _] | (_ & Hc & _)];
    destruct Hinv as (_ & _ & [Hpos _] & _).
  - rewrite Hf in IH |- *. simpl in IH. lia.
  - lia.
Qed.

Lemma feed_inv (s : Splitter) data :
  splitter_inv s -> splitter_inv (feed s data).
Proof.
  revert s. induction data as [| b data IH]; intros s Hinv; [exact Hinv |].
  apply IH, feed_byte_inv, Hinv.
Qed.

(** The loop of [push] ends, and ends in the state the byte-at-a-time
    machine reaches. *)
Lemma push_loop_feed data : forall fuel (s : Splitter),
  splitter_inv s -> (length data < fuel)%nat ->
  _chunk_pos s + Z.of_nat (length data) <= INT_MAX ->
  push_loop fuel s data = Some (feed s data).
Proof.
  induction data as [| b data IH]; intros fuel s Hinv Hfuel Hfit.
  - destruct fuel as [| fuel]; [simpl in Hfuel; lia |].
    simpl. rewrite next_point_nil by assumption. reflexivity.
  - destruct fuel as [| fuel]; [simpl in Hfuel; lia |].
    simpl in Hfuel.
    pose proof (feed_byte_inv s b Hinv) as Hinv'.
    destruct (next_point_cons s b data Hinv Hfit)
      as [[Hf Hnp] | (_ & Hc & _ & Hnp)];
      change (length (b :: data)) with (S (length data)) in Hfit.
    + cbn [Splitter.push_loop]. rewrite Hnp.
      change (feed s (b :: data)) with (feed (feed_byte s b) data).
      destruct Hinv as (_ & _ & [Hpos _] & _).
      rewrite Hf in *. apply IH; [assumption | lia | simpl; lia].
    + change (feed s (b :: data)) with (feed (feed_byte s b) data).
      rewrite <- (IH (S fuel) (feed_byte s b)) by (assumption || lia).
      cbn [Splitter.push_loop]. rewrite Hnp. reflexivity.
Qed.

(** The digest contexts and the scanning state do not interact. *)
Lemma feed_byte_update_digests (s : Splitter) d b :
  feed_byte (update_digests s d) b = update_digests (feed_byte s b) d.
Proof.
  unfold Splitter.feed_byte, hash_matches. simpl.
  repeat match goal with |- context [if ?c then _ else _] => destruct c end;
    reflexivity.
Qed.

Lemma feed_update_digests data : forall (s : Splitter) d,
  feed (update_digests s d) data = update_digests (feed s data) d.
Proof.
  induction data as [| b data IH]; intros s d; [reflexivity |].
  change (feed (update_digests s d) (b :: data))
    with (feed (feed_byte (update_digests s d) b) data).
  rewrite feed_byte_update_digests. apply IH.
Qed.

Lemma update_digests_inv (s : Splitter) d :
  splitter_inv s -> splitter_inv (update_digests s d).
Proof. intros H. exact H. Qed.

Lemma update_digests_nil (s : Splitter) : update_digests s [] = s.
Proof.
  destruct s as [mn mx bits c1 c2 w wp cp h m5 s2 pts].
  unfold update_digests. simpl.
  destruct m5, s2, c1, c2; simpl; rewrite ?DigestUpdate_nil; reflexivity.
Qed.

Lemma update_digests_app (s : Splitter) a b :
  update_digests (update_digests s a) b = update_digests s (a ++ b).
Proof.
  destruct s as [mn mx bits c1 c2 w wp cp h m5 s2 pts].
  unfold update_digests. simpl.
  destruct m5, s2, c1, c2; simpl; rewrite ?DigestUpdate_app; reflexivity.
Qed.

Lemma feed_app (s : Splitter) a b : feed s (a ++ b) = feed (feed s a) b.
Proof. apply fold_left_app. Qed.

(** [push] always returns, with the digests updated and the bytes fed. *)
Lemma push_feed (s : Splitter) data :
  splitter_inv s ->
  _chunk_pos s + Z.of_nat (length data) <= INT_MAX ->
  push s data = Some (update_digests (feed s data) data).
Proof.
  intros Hinv Hfit. unfold Splitter.push.
  rewrite push_loop_feed by (try apply update_digests_inv; auto).
  rewrite feed_update_digests. reflexivity.
Qed.

Lemma push_all_feed segments : forall (s : Splitter),
  splitter_inv s ->
  segments_fit (_max_chunk s) segments ->
  push_all s segments =
  Some (update_digests (feed s (concat segments)) (concat segments)).
Proof.
  induction segments as [| seg rest IH]; intros s Hinv Hfit.
  - simpl. rewrite update_digests_nil. reflexivity.
  - apply Forall_cons in Hfit. destruct Hfit as [Hseg Hrest].
    cbn [Splitter.push_all].
    rewrite push_feed by (try assumption; destruct Hinv as (_ & _ & ? & _); lia).
    rewrite IH.
    + rewrite feed_update_digests, update_digests_app, <- feed_app. reflexivity.
    + apply update_digests_inv, feed_inv, Hinv.
    + change (_max_chunk (update_digests ?x _)) with (_max_chunk x).
      destruct (feed_static seg s) as (_ & -> & _). exact Hrest.
Qed.

(** The same when the segments together are no longer than an [int]. *)
Lemma push_all_feed_short segments : forall (s : Splitter),
  splitter_inv s ->
  _chunk_pos s + Z.of_nat (length (concat segments)) <= INT_MAX ->
  push_all s segments =
  Some (update_digests (feed s (concat segments)) (concat segments)).
Proof.
  induction segments as [| seg rest IH]; intros s Hinv Hfit.
  - simpl. rewrite update_digests_nil. reflexivity.
  - cbn [concat] in Hfit. rewrite length_app in Hfit.
    cbn [Splitter.push_all].
    rewrite push_feed by (try assumption; lia).
    rewrite IH.
    + rewrite feed_update_digests, update_digests_app, <- feed_app. reflexivity.
    + apply update_digests_inv, feed_inv, Hinv.
    + change (_chunk_pos (update_digests ?x _)) with (_chunk_pos x).
      pose proof (feed_chunk_pos_le seg s Hinv). lia.
Qed.

Lemma new_Splitter_inv min_chunk max_chunk avg_chunk_bits c1 c2 :
  params_ok min_chunk max_chunk avg_chunk_bits ->
  splitter_inv (new_Splitter EVP_md5 EVP_sha256 min_chunk max_chunk avg_chunk_bits c1 c2).
Proof. intros (H1 & H2 & H3 & H4). unfold splitter_inv. simpl. lia. Qed.

(** *** Chunk lengths *)

Lemma sum_points_snoc points p : sum_points (points ++ [p]) = sum_points points + p.
Proof.
  unfold sum_points. induction points as [| q points IH]; simpl; [lia |].
  rewrite IH. lia.
Qed.

Lemma feed_chunks data : forall (s : Splitter),
  splitter_inv s ->
  Forall (fun c => _min_chunk s <= c <= _max_chunk s) (_split_points s) ->
  Forall (fun c => _min_chunk s <= c <= _max_chunk s) (_split_points (feed s data)) /\
  sum_points (_split_points (feed s data)) + _chunk_pos (feed s data)
    = sum_points (_split_points s) + _chunk_pos s + Z.of_nat (length data).
Proof.
  induction data as [| b data IH]; intros s Hinv Hall.
  - simpl. split; [assumption | lia].
  - change (feed s (b :: data)) with (feed (feed_byte s b) data).
    pose proof (feed_byte_inv s b Hinv) as Hinv'.
    destruct (feed_byte_static s b) as (Emin & Emax & _).
    specialize (IH (feed_byte s b) Hinv'). rewrite Emin, Emax in IH.
    destruct Hinv as (Hmin & Hle & Hpos & Hlt).
    destruct (feed_byte_cases s b) as [[Hf Hlen] | (Hp & Hc & Hm)];
      [unfold splitter_inv; lia | |].
    + destruct IH as [IH1 IH2].
      { rewrite Hf. simpl. apply Forall_app. split; [assumption |].
        constructor; [lia | constructor]. }
      split; [assumption |]. rewrite IH2, Hf. simpl.
      rewrite sum_points_snoc. change (length (b :: data)) with (S (length data)). lia.
    + destruct IH as [IH1 IH2]; [rewrite Hp; assumption |].
      split; [assumption |]. rewrite IH2, Hp, Hc.
      change (length (b :: data)) with (S (length data)). lia.
Qed.

(** Below [min_chunk] nothing is hashed and nothing is cut. *)
Lemma feed_short data : forall (s : Splitter),
  splitter_inv s ->
  _chunk_pos s + Z.of_nat (length data) < _min_chunk s ->
  feed s data =
  set_scan_state s (_window s) (_window_pos s)
                 (_chunk_pos s + Z.of_nat (length data)) (_hash s).
Proof.
  induction data as [| b data IH]; intros s Hinv Hshort.
  - simpl. rewrite Z.add_0_r. symmetry. apply set_scan_state_id.
  - change (length (b :: data)) with (S (length data)) in *.
    change (feed s (b :: data)) with (feed (feed_byte s b) data).
    pose proof (feed_byte_inv s b Hinv) as Hinv'.
    destruct Hinv as (Hmin & Hle & Hpos & Hlt).
    assert (Hf : feed_byte s b =
                 set_scan_state s (_window s) (_window_pos s) (_chunk_pos s + 1) (_hash s)).
    { unfold Splitter.feed_byte.
      destruct (Z.ltb_spec (_chunk_pos s) (_min_chunk s)); [| lia].
      destruct (Z.leb_spec (_max_chunk s) (_chunk_pos s + 1)); [lia | reflexivity]. }
    rewrite IH; rewrite Hf in *; simpl in *; [| assumption | lia].
    f_equal. lia.
Qed.

(** *** The boundary rule *)

Lemma roll_length st b : length (snd (roll st b)) = length (snd st).
Proof. destruct st as [[h wp] w]. simpl. apply length_window_set. Qed.

Lemma fold_roll_length bytes : forall st,
  length (snd (fold_left roll bytes st)) = length (snd st).
Proof.
  induction bytes as [| b bytes IH]; intros st; [reflexivity |].
  simpl. rewrite IH. apply roll_length.
Qed.

Lemma boundary_rule_dec min_chunk max_chunk bits data p :
  boundary_rule min_chunk max_chunk bits data p \/
  ~ boundary_rule min_chunk max_chunk bits data p.
Proof.
  unfold Splitter.boundary_rule.
  destruct (Z.eq_dec p max_chunk); [left; right; assumption |].
  destruct (Z_lt_dec min_chunk p); [| right; intros [[? _] | ?]; contradiction].
  destruct (Z.eq_dec (Z.land (chunk_hash min_chunk data p) (avg_chunk_mask bits))
                     (avg_chunk_mask bits)).
  - left. left. split; assumption.
  - right. intros [[_ ?] | ?]; contradiction.
Qed.

(** The rule at [p] looks at the first [p] bytes of the chunk only. *)
Lemma chunk_hash_app min_chunk data ext p :
  0 <= min_chunk -> p <= Z.of_nat (length data) ->
  chunk_hash min_chunk (data ++ ext) p = chunk_hash min_chunk data p.
Proof.
  intros Hmin Hp. unfold Splitter.chunk_hash. f_equal.
  rewrite skipn_app, firstn_app.
  rewrite length_skipn.
  replace (Z.to_nat (p - min_chunk) - (length data - Z.to_nat min_chunk))%nat
    with 0%nat by lia.
  simpl. apply app_nil_r.
Qed.

Lemma boundary_rule_app min_chunk max_chunk bits data ext p :
  0 <= min_chunk -> p <= Z.of_nat (length data) ->
  boundary_rule min_chunk max_chunk bits (data ++ ext) p <->
  boundary_rule min_chunk max_chunk bits data p.
Proof.
  intros Hmin Hp. unfold Splitter.boundary_rule. rewrite chunk_hash_app by assumption.
  reflexivity.
Qed.

Lemma feed_byte_prepend_points points (s : Splitter) b :
  feed_byte (prepend_points points s) b = prepend_points points (feed_byte s b).
Proof.
  unfold Splitter.feed_byte, hash_matches. simpl.
  repeat match goal with |- context [if ?c then _ else _] => destruct c end;
    try reflexivity;
    unfold end_chunk, record_point, prepend_points; simpl;
    rewrite <- app_assoc; reflexivity.
Qed.

Lemma feed_prepend_points points data : forall (s : Splitter),
  feed (prepend_points points s) data = prepend_points points (feed s data).
Proof.
  induction data as [| b data IH]; intros s; [reflexivity |].
  change (feed (prepend_points points s) (b :: data))
    with (feed (feed_byte (prepend_points points s) b) data).
  rewrite feed_byte_prepend_points. apply IH.
Qed.

Section FreshSplitter.

Variables min_chunk max_chunk avg_chunk_bits : Z.
Variables calc_md5 calc_sha256 : bool.
Hypothesis Hparams : params_ok min_chunk max_chunk avg_chunk_bits.

#[local] Abbreviation s0 :=
  (new_Splitter EVP_md5 EVP_sha256 min_chunk max_chunk avg_chunk_bits
                calc_md5 calc_sha256).

(** One more byte of an open chunk: the chunk ends when the rule holds at
    the new length, and stays open otherwise. *)
Lemma feed_byte_open data b :
  Z.of_nat (length data) < max_chunk ->
  let p := Z.of_nat (length data) + 1 in
  (boundary_rule min_chunk max_chunk avg_chunk_bits (data ++ [b]) p ->
   feed_byte (open_chunk rabin_update s0 data) b = prepend_points [p] s0) /\
  (~ boundary_rule min_chunk max_chunk avg_chunk_bits (data ++ [b]) p ->
   feed_byte (open_chunk rabin_update s0 data) b = open_chunk rabin_update s0 (data ++ [b])).
Proof.
  intros Hlen p. destruct Hparams as (Hmin & Hle & Hbits & Hint).
  unfold Splitter.open_chunk, Splitter.boundary_rule, Splitter.chunk_hash,
    Splitter.rolling_hash.
  change (_min_chunk s0) with min_chunk.
  rewrite length_app. simpl length.
  set (init := (0, 0, repeat x00 NB_RABIN_WINDOW_LEN)).
  pose proof (fold_roll_length (skipn (Z.to_nat min_chunk) data) init) as Hw.
  change (length (snd init)) with 16%nat in Hw.
  destruct (Z_lt_dec (Z.of_nat (length data)) min_chunk) as [Hskip | Hscan].
  - (* the new byte is below min_chunk *)
    rewrite !skipn_all2 by (rewrite ?length_app; simpl; lia).
    subst init. simpl fold_left. unfold Splitter.feed_byte. simpl.
    destruct (Z.ltb_spec (Z.of_nat (length data)) min_chunk); [| lia].
    destruct (Z.leb_spec max_chunk (Z.of_nat (length data) + 1)).
    + split; [intros _; reflexivity |].
      intros Hn. exfalso. apply Hn. right. subst p. lia.
    + split.
      * intros [[Hlt _] | Heq]; subst p; lia.
      * intros _. f_equal. lia.
  - (* the new byte is hashed *)
    rewrite skipn_app.
    replace (Z.to_nat min_chunk - length data)%nat with 0%nat by lia.
    simpl skipn.
    replace (Z.to_nat (p - min_chunk))
      with (length (skipn (Z.to_nat min_chunk) data ++ [b]))
      by (rewrite length_app, length_skipn; simpl; subst p; lia).
    rewrite firstn_all, fold_left_app.
    destruct (fold_left roll (skipn (Z.to_nat min_chunk) data) init) as [[h wp] w].
    clearbody init. simpl fold_left.
    simpl in Hw. unfold Splitter.feed_byte, hash_matches. simpl.
    destruct (Z.ltb_spec (Z.of_nat (length data)) min_chunk); [lia |].
    rewrite avg_chunk_val_mask.
    set (h' := rabin_update h b (window_get w wp)).
    destruct (Z.eqb_spec (Z.land h' (avg_chunk_mask avg_chunk_bits))
                         (avg_chunk_mask avg_chunk_bits)) as [Hm | Hm]; simpl.
    + split; [| intros Hn; exfalso; apply Hn; left; split; [subst p; lia | assumption]].
      intros _. unfold end_chunk, record_point, prepend_points. simpl.
      rewrite Hw. reflexivity.
    + destruct (Z.leb_spec max_chunk (Z.of_nat (length data) + 1)).
      * split; [| intros Hn; exfalso; apply Hn; right; subst p; lia].
        intros _. unfold end_chunk, record_point, prepend_points. simpl.
        rewrite Hw. reflexivity.
      * split; [intros [[_ Hx] | Hx]; [contradiction | subst p; lia] |].
        intros _. f_equal. lia.
Qed.

(** Either no position of [data] meets the rule and the chunk is open, or
    the chunk ended at the first position that meets it and the splitter
    went on from there as from the start of a chunk. *)
Lemma first_boundary data :
  ((forall q, 0 < q <= Z.of_nat (length data) ->
      ~ boundary_rule min_chunk max_chunk avg_chunk_bits data q) /\
   feed s0 data = open_chunk rabin_update s0 data)
  \/
  (exists p, 0 < p <= Z.of_nat (length data) /\
     boundary_rule min_chunk max_chunk avg_chunk_bits data p /\
     (forall q, 0 < q < p ->
        ~ boundary_rule min_chunk max_chunk avg_chunk_bits data q) /\
     feed s0 data = prepend_points [p] (feed s0 (skipn (Z.to_nat p) data))).
Proof.
  assert (Hmin0 : 0 <= min_chunk) by (destruct Hparams; lia).
  induction data as [| b data IH] using rev_ind.
  - left. split; [simpl; intros q Hq; lia |].
    unfold Splitter.open_chunk. rewrite skipn_nil. reflexivity.
  - rewrite length_app. simpl length.
    destruct IH as [[Hnone Hopen] | (p & Hp & Hrule & Hfirst & Hfeed)].
    + assert (Hlen : Z.of_nat (length data) < max_chunk).
      { pose proof (feed_inv s0 data (new_Splitter_inv _ _ _ _ _ Hparams)) as Hinv.
        rewrite Hopen in Hinv.
        destruct Hinv as (_ & _ & [_ Hlt] & _).
        unfold Splitter.open_chunk in Hlt.
        destruct (fold_left roll _ _) as [[h wp] w]. exact Hlt. }
      destruct (feed_byte_open data b Hlen) as [Hend Hgo].
      rewrite feed_app, Hopen. simpl.
      destruct (boundary_rule_dec min_chunk max_chunk avg_chunk_bits (data ++ [b])
                  (Z.of_nat (length data) + 1)) as [Hr | Hr].
      * right. exists (Z.of_nat (length data) + 1). split; [lia |].
        split; [assumption |]. split.
        { intros q Hq. rewrite boundary_rule_app by lia. apply Hnone. lia. }
        change (feed (open_chunk rabin_update s0 data) [b])
          with (feed_byte (open_chunk rabin_update s0 data) b).
        rewrite (Hend Hr), skipn_all2 by (rewrite length_app; simpl; lia).
        reflexivity.
      * left. split.
        { intros q Hq.
          destruct (Z.eq_dec q (Z.of_nat (length data) + 1)) as [-> | Hne];
            [assumption |].
          rewrite boundary_rule_app by lia. apply Hnone. lia. }
        apply (Hgo Hr).
    + right. exists p. split; [lia |].
      split; [rewrite boundary_rule_app by lia; assumption |].
      split; [intros q Hq; rewrite boundary_rule_app by lia; apply Hfirst; assumption |].
      rewrite feed_app, Hfeed. rewrite skipn_app.
      replace (Z.to_nat p - length data)%nat with 0%nat by lia. simpl skipn.
      rewrite feed_app.
      change (feed (prepend_points [p] (feed s0 (skipn (Z.to_nat p) data))) [b])
        with (feed_byte (prepend_points [p] (feed s0 (skipn (Z.to_nat p) data))) b).
      rewrite feed_byte_prepend_points. reflexivity.
Qed.

Lemma open_chunk_points data : _split_points (open_chunk rabin_update s0 data) = [].
Proof.
  unfold Splitter.open_chunk. destruct (fold_left roll _ _) as [[h wp] w]. reflexivity.
Qed.

End FreshSplitter.

Lemma first_point_update_digests (s : Splitter) d :
  first_point (update_digests s d) = first_point s.
Proof. reflexivity. Qed.

Lemma concat_drop_bytes segments : forall n,
  concat (drop_bytes n segments) = skipn n (concat segments).
Proof.
  induction segments as [| seg rest IH]; intros n; simpl.
  - rewrite skipn_nil. reflexivity.
  - rewrite skipn_app. destruct (Nat.ltb_spec n (length seg)) as [Hlt | Hge].
    + simpl. replace (n - length seg)%nat with 0%nat by lia. reflexivity.
    + rewrite IH, (skipn_all2 seg) by lia. reflexivity.
Qed.

Lemma segments_fit_drop_bytes max_chunk segments : forall n,
  segments_fit max_chunk segments -> segments_fit max_chunk (drop_bytes n segments).
Proof.
  unfold segments_fit.
  induction segments as [| seg rest IH]; intros n Hfit; simpl; [constructor |].
  apply Forall_cons in Hfit. destruct Hfit as [Hseg Hrest].
  destruct (Nat.ltb_spec n (length seg)).
  - apply Forall_cons. split; [| exact Hrest].
    rewrite length_skipn. lia.
  - apply IH, Hrest.
Qed.

(** C1, as amended.  For parameters that pass the constructor's
    assertions, with [avg_chunk_bits] below the 64-bit width of the hash,
    and a stream of any length handed to a new splitter in any sequence of
    [push] calls, each of a length that keeps [chunk_pos + len] an [int]:
    all the calls return; the first boundary is declared at position [p]
    exactly when [p] is the first position of the stream at which either
    [p > min_chunk] and [(hash & mask) == mask], for the rolling hash of the
    bytes at offsets [min_chunk .. p-1], or [p == max_chunk]; the bytes past
    that boundary can be handed over in pushes of their own, and however
    that is done the splitter has treated them as it treats a stream of its
    own, so the rule holds for every chunk; and
    [mask = (1 << avg_chunk_bits) - 1]. *)
Theorem boundary_rule_first_point min_chunk max_chunk avg_chunk_bits
    calc_md5 calc_sha256 segments :
  params_ok min_chunk max_chunk avg_chunk_bits ->
  avg_chunk_bits < HASH_BITS ->
  segments_fit max_chunk segments ->
  let s0 := new_Splitter EVP_md5 EVP_sha256 min_chunk max_chunk avg_chunk_bits
                         calc_md5 calc_sha256 in
  let data := concat segments in
  exists s, push_all s0 segments = Some s /\
    (forall p, first_point s = Some p <->
       (0 < p <= Z.of_nat (length data) /\
        boundary_rule min_chunk max_chunk avg_chunk_bits data p /\
        forall q, 0 < q < p ->
          ~ boundary_rule min_chunk max_chunk avg_chunk_bits data q)) /\
    (forall p, first_point s = Some p ->
       segments_fit max_chunk (drop_bytes (Z.to_nat p) segments) /\
       concat (drop_bytes (Z.to_nat p) segments) = skipn (Z.to_nat p) data /\
       forall rest,
         segments_fit max_chunk rest ->
         concat rest = skipn (Z.to_nat p) data ->
         exists s', push_all s0 rest = Some s' /\
           _split_points s = p :: _split_points s' /\
           _chunk_pos s = _chunk_pos s' /\
           _hash s = _hash s' /\
           _window s = _window s' /\
           _window_pos s = _window_pos s') /\
    avg_chunk_mask avg_chunk_bits = Z.shiftl 1 avg_chunk_bits - 1.
Proof.
  intros Hparams Hbits Hfit s0 data.
  pose proof (new_Splitter_inv min_chunk max_chunk avg_chunk_bits calc_md5 calc_sha256
                Hparams) as Hinv.
  pose proof (first_boundary min_chunk max_chunk avg_chunk_bits calc_md5 calc_sha256
                Hparams data) as Hfb.
  change (new_Splitter _ _ _ _ _ _ _) with s0 in Hinv, Hfb.
  assert (Hmask : avg_chunk_mask avg_chunk_bits = Z.shiftl 1 avg_chunk_bits - 1)
    by (apply avg_chunk_mask_shift; destruct Hparams as (_ & _ & ? & _); lia).
  eexists. split; [apply push_all_feed; [exact Hinv | exact Hfit] |].
  fold data. rewrite first_point_update_digests.
  destruct Hfb as [[Hnone Hopen] | (p0 & Hp0 & Hrule & Hfirst & Hfeed)].
  - (* no boundary within the stream *)
    assert (Hpts : first_point (feed s0 data) = None)
      by (unfold first_point; rewrite Hopen; unfold s0;
          rewrite open_chunk_points; reflexivity).
    rewrite Hpts. split; [| split; [| exact Hmask]].
    + intros p. split; [discriminate |].
      intros (Hp & Hr & _). exfalso. exact (Hnone p Hp Hr).
    + intros p Hp. discriminate.
  - (* the first boundary is p0 *)
    assert (Hpts : first_point (feed s0 data) = Some p0)
      by (unfold first_point; rewrite Hfeed; reflexivity).
    rewrite Hpts. split; [| split; [| exact Hmask]].
    + intros p. split.
      * intros [= <-]. repeat split; try assumption; lia.
      * intros (Hp & Hr & Hf). f_equal.
        destruct (Z.lt_trichotomy p p0) as [Hlt | [Heq | Hgt]]; [| symmetry; assumption |].
        -- exfalso. apply (Hfirst p); [lia | assumption].
        -- exfalso. apply (Hf p0); [lia | assumption].
    + intros p [= <-].
      split; [apply segments_fit_drop_bytes, Hfit |].
      split; [apply concat_drop_bytes |].
      intros rest Hrest Hcat. eexists. split.
      * apply push_all_feed; [exact Hinv | exact Hrest].
      * rewrite Hcat. simpl. rewrite Hfeed. simpl. repeat split; reflexivity.
Qed.

(** C2, as amended.  For parameters that pass the constructor's
    assertions and any stream handed over in any sequence of [push] calls,
    each of a length that keeps [chunk_pos + len] an [int]: all the calls
    return; every chunk cut has a length between [min_chunk] and
    [max_chunk]; the residual bytes left for the final chunk are fewer
    than [max_chunk] (and may be fewer than [min_chunk] whatever the length
    of the stream); the chunks and the residue add up to the stream; and a
    stream shorter than [min_chunk] is cut nowhere, the residue being the
    whole stream. *)
Theorem chunk_bounds min_chunk max_chunk avg_chunk_bits calc_md5 calc_sha256 segments :
  params_ok min_chunk max_chunk avg_chunk_bits ->
  segments_fit max_chunk segments ->
  exists s,
    push_all (new_Splitter EVP_md5 EVP_sha256 min_chunk max_chunk avg_chunk_bits
                           calc_md5 calc_sha256) segments = Some s /\
    Forall (fun c => min_chunk <= c <= max_chunk) (_split_points s) /\
    0 <= _chunk_pos s < max_chunk /\
    sum_points (_split_points s) + _chunk_pos s = total_length segments /\
    (total_length segments < min_chunk ->
       _split_points s = [] /\ _chunk_pos s = total_length segments).
Proof.
  intros Hparams Hfit.
  set (s0 := new_Splitter EVP_md5 EVP_sha256 min_chunk max_chunk avg_chunk_bits
                          calc_md5 calc_sha256).
  pose proof (new_Splitter_inv min_chunk max_chunk avg_chunk_bits calc_md5 calc_sha256
                Hparams) as Hinv. fold s0 in Hinv.
  eexists. split; [apply push_all_feed; [exact Hinv | exact Hfit] |].
  change (_split_points (update_digests ?x _)) with (_split_points x).
  change (_chunk_pos (update_digests ?x _)) with (_chunk_pos x).
  unfold total_length.
  destruct (feed_chunks (concat segments) s0 Hinv) as [Hall Hsum]; [constructor |].
  pose proof (feed_inv s0 (concat segments) Hinv) as (_ & _ & Hpos & _).
  destruct (feed_static (concat segments) s0) as (_ & Emax & _).
  rewrite Emax in Hpos.
  split; [exact Hall |]. split; [exact Hpos |]. split; [rewrite Hsum; simpl; lia |].
  intros Hshort. rewrite feed_short by (simpl; assumption || lia).
  simpl. split; [reflexivity | lia].
Qed.

(** C3.  For parameters that pass the constructor's assertions, any byte
    string that one push can take and any way of cutting it into
    consecutive segments: pushing the segments one by one returns, and
    leaves the splitter (the recorded boundaries, the open chunk's length,
    window and hash, and the digest contexts) exactly as one push of the
    whole string leaves it. *)
Theorem push_fragmentation_invariant min_chunk max_chunk avg_chunk_bits
    calc_md5 calc_sha256 segments :
  params_ok min_chunk max_chunk avg_chunk_bits ->
  Z.of_nat (length (concat segments)) <= INT_MAX ->
  let s0 := new_Splitter EVP_md5 EVP_sha256 min_chunk max_chunk avg_chunk_bits
                         calc_md5 calc_sha256 in
  exists s, push s0 (concat segments) = Some s /\ push_all s0 segments = Some s.
Proof.
  intros Hparams Hfit s0.
  pose proof (new_Splitter_inv min_chunk max_chunk avg_chunk_bits calc_md5 calc_sha256
                Hparams) as Hinv.
  eexists. split.
  - apply push_feed; [exact Hinv | exact Hfit].
  - apply push_all_feed_short; [exact Hinv | exact Hfit].
Qed.

(** The same from any state the splitter can be in between two pushes. *)
Lemma push_all_concat (s : Splitter) segments :
  splitter_inv s ->
  _chunk_pos s + Z.of_nat (length (concat segments)) <= INT_MAX ->
  push_all s segments = push s (concat segments).
Proof.
  intros Hinv Hfit. rewrite push_all_feed_short, push_feed by assumption. reflexivity.
Qed.

(** C4.  For parameters that pass the constructor's assertions and any
    stream handed over in any sequence of [push] calls, each of a length
    that keeps [chunk_pos + len] an [int]: [finish] writes to a non-null
    destination of an enabled digest the MD5 (resp. SHA-256) of
    the concatenation of all the bytes pushed, writes nothing else, records
    no boundary, and leaves the state of the open chunk as it was. *)
Theorem finish_digests min_chunk max_chunk avg_chunk_bits calc_md5 calc_sha256
    segments want_md5 want_sha256 :
  params_ok min_chunk max_chunk avg_chunk_bits ->
  segments_fit max_chunk segments ->
  exists s,
    push_all (new_Splitter EVP_md5 EVP_sha256 min_chunk max_chunk avg_chunk_bits
                           calc_md5 calc_sha256) segments = Some s /\
    let '(s', md5, sha256) := finish s want_md5 want_sha256 in
    md5 = (if want_md5 && calc_md5
           then Some (digest_of EVP_md5 (concat segments)) else None) /\
    sha256 = (if want_sha256 && calc_sha256
              then Some (digest_of EVP_sha256 (concat segments)) else None) /\
    _split_points s' = _split_points s /\
    _chunk_pos s' = _chunk_pos s /\
    _window s' = _window s /\
    _window_pos s' = _window_pos s /\
    _hash s' = _hash s.
Proof.
  intros Hparams Hfit.
  set (s0 := new_Splitter EVP_md5 EVP_sha256 min_chunk max_chunk avg_chunk_bits
                          calc_md5 calc_sha256).
  pose proof (new_Splitter_inv min_chunk max_chunk avg_chunk_bits calc_md5 calc_sha256
                Hparams) as Hinv. fold s0 in Hinv.
  eexists. split; [apply push_all_feed; [exact Hinv | exact Hfit] |].
  unfold finish. simpl.
  destruct (feed_static (concat segments) s0) as (_ & _ & _ & -> & -> & -> & ->).
  simpl. unfold digest_of.
  destruct want_md5, want_sha256, calc_md5, calc_sha256; simpl;
    repeat split; reflexivity.
Qed.

End WithEnvironment.

(** *** The statements at concrete streams *)

Ltac params_ok_tac := unfold params_ok, INT_MAX; lia.

Ltac segments_fit_tac :=
  unfold segments_fit, INT_MAX; repeat constructor; simpl; lia.

Lemma boundary_rule_first_point_witness :
  params_ok 2 8 1 /\
  1 < HASH_BITS /\
  segments_fit 8 [[x41; x42]; [x43; x44]] /\
  exists s,
    push_all Rabin.shl_mod_width Rabin.update
         (new_Splitter Rabin.transcript Rabin.transcript 2 8 1 true false)
         [[x41; x42]; [x43; x44]] = Some s /\
    first_point s = Some 3 /\
    drop_bytes 3 [[x41; x42]; [x43; x44]] = [[x44]].
Proof.
  split; [params_ok_tac |]. split; [reflexivity |]. split; [segments_fit_tac |].
  destruct (boundary_rule_first_point Rabin.shl_mod_width Rabin.update
              (EVP_md5 := Rabin.transcript) (EVP_sha256 := Rabin.transcript)
              2 8 1 true false [[x41; x42]; [x43; x44]])
    as (s & Hpush & _); [params_ok_tac | reflexivity | segments_fit_tac |].
  exists s. split; [exact Hpush |].
  vm_compute in Hpush. injection Hpush as <-. split; reflexivity.
Defined.

(** With [min_chunk = 1], [max_chunk = 3] and [avg_chunk_bits = 0] the
    rule as the design document words it holds at position 1, whatever the
    hash (the mask is zero), so the first boundary it gives is 1; the
    splitter cuts the first chunk at position 2. *)
Lemma stated_rule_fails_at_min_chunk :
  exists s,
    push Rabin.shl_mod_width Rabin.update
         (new_Splitter Rabin.transcript Rabin.transcript 1 3 0 false false)
         [x41; x42; x43] = Some s /\
    _split_points s = [2] /\
    forall hash_at,
      stated_first_boundary hash_at 1 3 0 3 1 /\
      ~ (forall p, first_point s = Some p <-> stated_first_boundary hash_at 1 3 0 3 p).
Proof.
  eexists. split; [vm_compute; reflexivity |].
  split; [reflexivity |].
  intros hash_at.
  assert (H1 : stated_first_boundary hash_at 1 3 0 3 1).
  { unfold stated_first_boundary, stated_boundary_rule. split; [lia |]. split.
    - split; [lia |]. left. simpl. apply Z.land_0_r.
    - intros q Hq. lia. }
  split; [exact H1 |].
  intros Hiff. apply Hiff in H1. discriminate.
Qed.

(** With [avg_chunk_bits = 64] the cuts depend on what the undefined shift
    yields: a shift that takes its count modulo 64 makes the mask zero, so
    every hash matches and the chunks are [min_chunk + 1] long; a shift
    that yields zero makes the mask all ones, and the chunks end at
    [max_chunk]. *)
Example undefined_shift_decides_cuts :
  let s0 := new_Splitter Rabin.transcript Rabin.transcript 2 5 64 false false in
  let data := [x41; x42; x43; x44; x45; x46; x47] in
  option_map (fun s => (_split_points s, _chunk_pos s))
             (push Rabin.shl_mod_width Rabin.update s0 data) = Some ([3; 3], 1) /\
  option_map (fun s => (_split_points s, _chunk_pos s))
             (push (fun _ _ => 0) Rabin.update s0 data) = Some ([5], 2).
Proof. split; vm_compute; reflexivity. Qed.

Lemma chunk_bounds_witness :
  params_ok 2 4 1 /\
  segments_fit 4 [[x00; x00; x00]; [x00; x00]] /\
  exists s,
    push_all Rabin.shl_mod_width Rabin.update
      (new_Splitter Rabin.transcript Rabin.transcript 2 4 1 true true)
      [[x00; x00; x00]; [x00; x00]] = Some s /\
    Forall (fun c => 2 <= c <= 4) (_split_points s) /\
    0 <= _chunk_pos s < 4 /\
    sum_points (_split_points s) + _chunk_pos s
      = total_length [[x00; x00; x00]; [x00; x00]] /\
    (total_length [[x00; x00; x00]; [x00; x00]] < 2 ->
       _split_points s = [] /\
       _chunk_pos s = total_length [[x00; x00; x00]; [x00; x00]]).
Proof.
  split; [params_ok_tac |]. split; [segments_fit_tac |].
  apply (chunk_bounds Rabin.shl_mod_width Rabin.update 2 4 1 true true [[x00; x00; x00]; [x00; x00]]);
    [params_ok_tac | segments_fit_tac].
Defined.

(** Five zero bytes with [min_chunk = 2] and [max_chunk = 4]: one chunk of
    four bytes is cut and one byte is left for the final chunk, shorter
    than [min_chunk] although the stream is not. *)
Lemma short_residual_of_long_stream :
  exists s,
    push_all Rabin.shl_mod_width Rabin.update
      (new_Splitter Rabin.transcript Rabin.transcript 2 4 1 false false)
      [[x00; x00; x00; x00; x00]] = Some s /\
    _split_points s = [4] /\
    _chunk_pos s = 1 /\
    ~ (0 < _chunk_pos s < 2 -> total_length [[x00; x00; x00; x00; x00]] < 2).
Proof.
  eexists. split; [vm_compute; reflexivity |].
  split; [reflexivity |]. split; [reflexivity |].
  simpl. unfold total_length. simpl. lia.
Qed.

Lemma push_fragmentation_invariant_witness :
  params_ok 2 8 1 /\
  Z.of_nat (length (concat [[x41]; [x42]])) <= INT_MAX /\
  exists s,
    push Rabin.shl_mod_width Rabin.update
         (new_Splitter Rabin.transcript Rabin.transcript 2 8 1 true true)
         (concat [[x41]; [x42]]) = Some s /\
    push_all Rabin.shl_mod_width Rabin.update
         (new_Splitter Rabin.transcript Rabin.transcript 2 8 1 true true)
         [[x41]; [x42]] = Some s.
Proof.
  split; [params_ok_tac |]. split; [unfold INT_MAX; simpl; lia |].
  apply (push_fragmentation_invariant Rabin.shl_mod_width Rabin.update 2 8 1 true true [[x41]; [x42]]);
    [params_ok_tac | unfold INT_MAX; simpl; lia].
Defined.

Example fragmentation_of_a_longer_stream :
  let s0 := new_Splitter Rabin.transcript Rabin.transcript 2 8 2 true true in
  let stream := [x41; x42; x43; x44; x45; x46; x47; x48; x49; x4a; x4b; x4c] in
  push_all Rabin.shl_mod_width Rabin.update s0
           [[x41; x42; x43]; []; [x44]; [x45; x46; x47; x48; x49]; [x4a; x4b; x4c]]
    = push Rabin.shl_mod_width Rabin.update s0 stream /\
  option_map (fun s => (_split_points s, _chunk_pos s)) (push Rabin.shl_mod_width Rabin.update s0 stream)
    = Some ([3; 4; 4], 1).
Proof. vm_compute. auto. Qed.

Lemma finish_digests_witness :
  params_ok 2 8 1 /\
  segments_fit 8 [[x41]; [x42; x43]] /\
  exists s,
    push_all Rabin.shl_mod_width Rabin.update
      (new_Splitter Rabin.transcript Rabin.transcript 2 8 1 true false)
      [[x41]; [x42; x43]] = Some s /\
    let '(s', md5, sha256) := finish s true true in
    md5 = Some (digest_of Rabin.transcript [x41; x42; x43]) /\
    sha256 = None /\
    _split_points s' = _split_points s /\
    _chunk_pos s' = _chunk_pos s /\
    _window s' = _window s /\
    _window_pos s' = _window_pos s /\
    _hash s' = _hash s.
Proof.
  split; [params_ok_tac |]. split; [segments_fit_tac |].
  apply (finish_digests Rabin.shl_mod_width Rabin.update (EVP_md5 := Rabin.transcript)
           (EVP_sha256 := Rabin.transcript) 2 8 1 true false
           [[x41]; [x42; x43]] true true);
    [params_ok_tac | segments_fit_tac].
Defined.

(** *** Further properties of the splitter *)

Section MoreProperties.

Variable shl_undefined : Z -> Z -> Z.
Variable rabin_update : Z -> byte -> byte -> Z.
Context {EVP_md5 EVP_sha256 : EVP_MD}.

#[local] Abbreviation Splitter := (Splitter.Splitter EVP_md5 EVP_sha256).
#[local] Abbreviation push := (Splitter.push shl_undefined rabin_update).
#[local] Abbreviation push_all := (Splitter.push_all shl_undefined rabin_update).
#[local] Abbreviation feed_byte := (Splitter.feed_byte shl_undefined rabin_update).
#[local] Abbreviation feed := (Splitter.feed shl_undefined rabin_update).

(** The boundaries recorded so far are kept, and the new ones follow. *)
Lemma feed_points_extend data : forall (s : Splitter),
  splitter_inv s ->
  exists cut,
    _split_points (feed s data) = _split_points s ++ cut /\
    Forall (fun c => _min_chunk s <= c <= _max_chunk s) cut.
Proof.
  induction data as [| b data IH]; intros s Hinv.
  - exists []. rewrite app_nil_r. split; [reflexivity | constructor].
  - change (feed s (b :: data)) with (feed (feed_byte s b) data).
    destruct (IH (feed_byte s b) (feed_byte_inv shl_undefined rabin_update s b Hinv))
      as (cut & Hcut & Hall).
    destruct (feed_byte_static shl_undefined rabin_update s b) as (Emin & Emax & _).
    rewrite Emin, Emax in Hall.
    destruct (feed_byte_cases shl_undefined rabin_update s b Hinv) as [[Hf Hlen] | (Hp & _ & _)].
    + exists ((_chunk_pos s + 1) :: cut). rewrite Hcut, Hf. simpl.
      rewrite <- app_assoc. split; [reflexivity |].
      constructor; [| exact Hall].
      destruct Hinv as (? & ? & ? & ?). lia.
    + exists cut. rewrite Hcut, Hp. split; [reflexivity | exact Hall].
Qed.

(** X1.  A push of no bytes changes nothing: no boundary is recorded, the open
    chunk, the window and the hash are as they were, and so are the digest
    contexts. *)
Theorem push_empty (s : Splitter) :
  splitter_inv s -> push s [] = Some s.
Proof.
  intros Hinv.
  rewrite (push_feed shl_undefined rabin_update s [] Hinv)
    by (destruct Hinv as (_ & _ & ? & ?); simpl; lia).
  simpl. f_equal. apply update_digests_nil.
Qed.

(** X2.  A boundary, once recorded, stays: a later push keeps the boundaries
    recorded before it, in their order, and adds its own after them, each
    of a length between [min_chunk] and [max_chunk]. *)
Theorem split_points_only_grow (s : Splitter) data more :
  splitter_inv s ->
  _chunk_pos s + Z.of_nat (length data) <= INT_MAX ->
  _max_chunk s + Z.of_nat (length more) <= INT_MAX ->
  exists s1 s2 cut,
    push s data = Some s1 /\ push s1 more = Some s2 /\
    _split_points s2 = _split_points s1 ++ cut /\
    Forall (fun c => _min_chunk s <= c <= _max_chunk s) cut.
Proof.
  intros Hinv Hfit Hmore.
  pose proof (feed_inv shl_undefined rabin_update s data Hinv) as Hinv1.
  destruct (feed_static shl_undefined rabin_update data s) as (Emin & Emax & _).
  assert (Hinv1' : splitter_inv (update_digests (feed s data) data)) by exact Hinv1.
  destruct (feed_points_extend more (update_digests (feed s data) data) Hinv1')
    as (cut & Hcut & Hall).
  eexists _, _, cut. split; [apply push_feed; assumption |].
  split.
  - apply push_feed; [exact Hinv1' |].
    change (_chunk_pos (update_digests ?x _)) with (_chunk_pos x).
    destruct Hinv1 as (_ & _ & ? & _). lia.
  - change (_split_points (update_digests ?x _)) with (_split_points x).
    split; [exact Hcut |].
    change (_min_chunk (update_digests ?x _)) with (_min_chunk x) in Hall.
    change (_max_chunk (update_digests ?x _)) with (_max_chunk x) in Hall.
    rewrite Emin, Emax in Hall. exact Hall.
Qed.

(** **** The number of chunks *)

Lemma sum_points_bounds lo hi points :
  Forall (fun c => lo <= c <= hi) points ->
  Z.of_nat (length points) * lo <= sum_points points <= Z.of_nat (length points) * hi.
Proof.
  unfold sum_points. induction 1 as [| c points Hc Hall IH]; [simpl; lia |].
  change (length (c :: points)) with (S (length points)).
  simpl fold_right. lia.
Qed.

(** X3.  The number of chunks cut from a stream lies between what [max_chunk]
    and [min_chunk] allow: [n] chunks take at least [n * min_chunk] bytes
    of the stream, and the stream has fewer than [(n + 1) * max_chunk]
    bytes. *)
Theorem chunk_count_bounds min_chunk max_chunk avg_chunk_bits calc_md5 calc_sha256
    segments :
  params_ok min_chunk max_chunk avg_chunk_bits ->
  segments_fit max_chunk segments ->
  exists s,
    push_all (new_Splitter EVP_md5 EVP_sha256 min_chunk max_chunk avg_chunk_bits
                           calc_md5 calc_sha256) segments = Some s /\
    let n := Z.of_nat (length (_split_points s)) in
    n * min_chunk <= total_length segments < (n + 1) * max_chunk.
Proof.
  intros Hparams Hfit.
  set (s0 := new_Splitter EVP_md5 EVP_sha256 min_chunk max_chunk avg_chunk_bits
                          calc_md5 calc_sha256).
  assert (Hinv : splitter_inv s0) by (apply new_Splitter_inv, Hparams).
  eexists. split; [apply push_all_feed; [exact Hinv | exact Hfit] |].
  change (_split_points (update_digests ?x _)) with (_split_points x).
  unfold total_length.
  destruct (feed_chunks shl_undefined rabin_update (concat segments) s0 Hinv) as [Hall Hsum];
    [constructor |].
  pose proof (feed_inv shl_undefined rabin_update s0 (concat segments) Hinv) as (_ & _ & Hpos & _).
  destruct (feed_static shl_undefined rabin_update (concat segments) s0) as (_ & Emax & _).
  rewrite Emax in Hpos.
  pose proof (sum_points_bounds _ _ _ Hall) as Hb.
  simpl in Hsum, Hb, Hpos. cbv zeta. lia.
Qed.

(** **** The bytes below [min_chunk] *)

Lemma feed_byte_skipped (s : Splitter) b b' :
  _chunk_pos s < _min_chunk s -> feed_byte s b = feed_byte s b'.
Proof.
  intros Hlt. unfold Splitter.feed_byte.
  destruct (Z.ltb_spec (_chunk_pos s) (_min_chunk s)); [reflexivity | lia].
Qed.

Lemma feed_skipped a : forall a' (s : Splitter),
  splitter_inv s ->
  length a = length a' ->
  _chunk_pos s + Z.of_nat (length a) <= _min_chunk s ->
  feed s a = feed s a'.
Proof.
  induction a as [| b a IH]; intros [| b' a'] s Hinv Hlen Hskip;
    try discriminate; [reflexivity |].
  change (feed s (b :: a)) with (feed (feed_byte s b) a).
  change (feed s (b' :: a')) with (feed (feed_byte s b') a').
  change (length (b :: a)) with (S (length a)) in *.
  assert (Hlt : _chunk_pos s < _min_chunk s) by lia.
  rewrite (feed_byte_skipped s b' b Hlt).
  apply IH.
  - apply feed_byte_inv, Hinv.
  - simpl in Hlen. congruence.
  - destruct (feed_byte_static shl_undefined rabin_update s b) as (-> & _).
    destruct (feed_byte_cases shl_undefined rabin_update s b Hinv) as [[Hf _] | (_ & -> & _)].
    + rewrite Hf. simpl. destruct Hinv as (_ & _ & ? & _). lia.
    + lia.
Qed.

(** X4.  The bytes of a chunk below [min_chunk] do not bear on where the chunk
    ends: two streams that differ only in bytes that fall below
    [min_chunk] in the open chunk are cut at the same places and leave the
    same open chunk, window and hash. *)
Theorem leading_bytes_do_not_matter (s : Splitter) a a' rest :
  splitter_inv s ->
  length a = length a' ->
  _chunk_pos s + Z.of_nat (length a) <= _min_chunk s ->
  _chunk_pos s + Z.of_nat (length (a ++ rest)) <= INT_MAX ->
  exists s1 s2,
    push s (a ++ rest) = Some s1 /\ push s (a' ++ rest) = Some s2 /\
    _split_points s1 = _split_points s2 /\
    _chunk_pos s1 = _chunk_pos s2 /\
    _hash s1 = _hash s2 /\
    _window s1 = _window s2 /\
    _window_pos s1 = _window_pos s2.
Proof.
  intros Hinv Hlen Hskip Hfit.
  assert (Hfit' : _chunk_pos s + Z.of_nat (length (a' ++ rest)) <= INT_MAX)
    by (rewrite length_app in *; lia).
  eexists _, _. split; [apply push_feed; assumption |].
  split; [apply push_feed; assumption |].
  rewrite !feed_app, (feed_skipped a a' s Hinv Hlen Hskip).
  repeat split; reflexivity.
Qed.

(** **** Chunks when [avg_chunk_bits] is zero *)

Lemma feed_byte_unmasked (s : Splitter) b :
  splitter_inv s ->
  _avg_chunk_bits s = 0 ->
  let c := unmasked_chunk_length (_min_chunk s) (_max_chunk s) in
  _chunk_pos s < c ->
  (feed_byte s b = end_chunk s c /\ _chunk_pos s + 1 = c)
  \/
  (_split_points (feed_byte s b) = _split_points s /\
   _chunk_pos (feed_byte s b) = _chunk_pos s + 1 /\
   _chunk_pos s + 1 < c).
Proof.
  intros (Hmin & Hle & [Hpos Hlt] & Hint) Hbits c Hc.
  unfold unmasked_chunk_length in c. unfold Splitter.feed_byte.
  destruct (Z.ltb_spec (_chunk_pos s) (_min_chunk s)).
  - destruct (Z.leb_spec (_max_chunk s) (_chunk_pos s + 1)).
    + left. assert (Heq : _chunk_pos s + 1 = c) by (subst c; lia).
      rewrite Heq. split; reflexivity.
    + right. simpl. subst c. repeat split; try reflexivity; lia.
  - left. assert (Heq : _chunk_pos s + 1 = c) by (subst c; lia).
    unfold hash_matches. rewrite Hbits.
    change (avg_chunk_mask shl_undefined 0) with 0.
    change (avg_chunk_val shl_undefined 0) with 0.
    rewrite Z.land_0_r. simpl. rewrite Heq. split; reflexivity.
Qed.

Lemma feed_unmasked data : forall (s : Splitter),
  splitter_inv s ->
  _avg_chunk_bits s = 0 ->
  let c := unmasked_chunk_length (_min_chunk s) (_max_chunk s) in
  _chunk_pos s < c ->
  exists n : nat,
    _split_points (feed s data) = _split_points s ++ repeat c n /\
    0 <= _chunk_pos (feed s data) < c /\
    Z.of_nat n * c + _chunk_pos (feed s data) = _chunk_pos s + Z.of_nat (length data).
Proof.
  induction data as [| b data IH]; intros s Hinv Hbits c Hc.
  - exists 0%nat. simpl. rewrite app_nil_r.
    destruct Hinv as (_ & _ & ? & _). repeat split; try reflexivity; lia.
  - change (feed s (b :: data)) with (feed (feed_byte s b) data).
    change (length (b :: data)) with (S (length data)).
    pose proof (feed_byte_inv shl_undefined rabin_update s b Hinv) as Hinv'.
    destruct (feed_byte_static shl_undefined rabin_update s b) as (Emin & Emax & Ebits & _).
    specialize (IH (feed_byte s b) Hinv'). rewrite Emin, Emax, Ebits in IH.
    fold c in IH.
    assert (Hc0 : 0 < c)
      by (subst c; unfold unmasked_chunk_length;
          destruct Hinv as (? & ? & ? & ?); lia).
    destruct (feed_byte_unmasked s b Hinv Hbits Hc) as [[Hf Heq] | (Hp & Hcp & Hlt)];
      fold c in Hf || fold c in Hlt.
    + destruct IH as (n & Hpts & Hpos & Hsum);
        [exact Hbits | rewrite Hf; simpl; exact Hc0 |].
      exists (S n). rewrite Hpts, Hf. simpl. rewrite <- app_assoc.
      split; [reflexivity |]. split; [rewrite Hf in Hpos; exact Hpos |].
      rewrite Hf in Hsum. simpl in Hsum. fold c in Heq. lia.
    + destruct IH as (n & Hpts & Hpos & Hsum); [exact Hbits | lia |].
      exists n. rewrite Hpts, Hp. split; [reflexivity |].
      split; [exact Hpos |]. lia.
Qed.

(** X5.  With [avg_chunk_bits = 0] the hash decides nothing: every chunk is
    [min_chunk + 1] bytes long ([max_chunk] bytes when that is less), so a
    stream of [n] bytes is cut into [n / c] chunks of that length [c], and
    [n mod c] bytes are left for the final chunk. *)
Theorem zero_avg_bits_fixed_chunks min_chunk max_chunk calc_md5 calc_sha256 segments :
  params_ok min_chunk max_chunk 0 ->
  segments_fit max_chunk segments ->
  let c := unmasked_chunk_length min_chunk max_chunk in
  exists s,
    push_all (new_Splitter EVP_md5 EVP_sha256 min_chunk max_chunk 0
                           calc_md5 calc_sha256) segments = Some s /\
    _split_points s = repeat c (Z.to_nat (total_length segments / c)) /\
    _chunk_pos s = total_length segments mod c.
Proof.
  intros Hparams Hfit c.
  set (s0 := new_Splitter EVP_md5 EVP_sha256 min_chunk max_chunk 0
                          calc_md5 calc_sha256).
  assert (Hinv : splitter_inv s0) by (apply new_Splitter_inv, Hparams).
  assert (Hc0 : 0 < c)
    by (subst c; unfold unmasked_chunk_length; destruct Hparams as (? & ? & ? & ?); lia).
  eexists. split; [apply push_all_feed; [exact Hinv | exact Hfit] |].
  change (_split_points (update_digests ?x _)) with (_split_points x).
  change (_chunk_pos (update_digests ?x _)) with (_chunk_pos x).
  destruct (feed_unmasked (concat segments) s0 Hinv eq_refl) as (n & Hpts & Hpos & Hsum);
    [exact Hc0 |].
  change (unmasked_chunk_length (_min_chunk s0) (_max_chunk s0)) with c in *.
  simpl in Hsum. unfold total_length.
  set (total := Z.of_nat (length (concat segments))) in *.
  set (r := _chunk_pos (feed s0 (concat segments))) in *.
  assert (Hdiv : total / c = Z.of_nat n)
    by (symmetry; apply (Z.div_unique_pos total c (Z.of_nat n) r); lia).
  assert (Hmod : total mod c = r)
    by (symmetry; apply (Z.mod_unique_pos total c (Z.of_nat n) r); lia).
  rewrite Hpts, Hdiv, Hmod, Nat2Z.id. split; reflexivity.
Qed.

(** **** The window *)

Lemma end_chunk_scan_state_ok (s : Splitter) chunk_pos :
  0 < _min_chunk s ->
  length (_window s) = NB_RABIN_WINDOW_LEN ->
  scan_state_ok (end_chunk s chunk_pos).
Proof.
  intros Hmin Hlen. unfold scan_state_ok. simpl. rewrite Hlen.
  rewrite repeat_length.
  split; [reflexivity |]. split; [unfold NB_RABIN_WINDOW_LEN; simpl; lia |].
  split; [auto |]. intros H. lia.
Qed.

Lemma feed_byte_scan_state_ok (s : Splitter) b :
  splitter_inv s -> scan_state_ok s -> scan_state_ok (feed_byte s b).
Proof.
  intros (Hmin & Hle & [Hpos Hlt] & Hint) (Hlen & Hwp & Hzero & Hidx).
  unfold Splitter.feed_byte.
  destruct (Z.ltb_spec (_chunk_pos s) (_min_chunk s)) as [Hskip | Hscan].
  - destruct (Z.leb_spec (_max_chunk s) (_chunk_pos s + 1)).
    + apply end_chunk_scan_state_ok; assumption.
    + destruct (Hzero ltac:(lia)) as (Hh & Hw & Hp).
      unfold scan_state_ok. simpl.
      split; [exact Hlen |]. split; [exact Hwp |].
      split; [auto |]. intros Hge.
      replace (_chunk_pos s + 1 - _min_chunk s) with 0 by lia.
      rewrite Hp. reflexivity.
  - match goal with |- context [if ?c then _ else _] => destruct c end.
    + apply end_chunk_scan_state_ok; assumption.
    + unfold scan_state_ok. simpl. rewrite length_window_set, Hlen.
      specialize (Hidx ltac:(lia)).
      change (Z.of_nat NB_RABIN_WINDOW_LEN) with 16 in *.
      pose proof (Z.div_mod (_chunk_pos s - _min_chunk s) 16 ltac:(lia)) as Hdm.
      rewrite <- Hidx in Hdm.
      split; [reflexivity |].
      destruct (Z.leb_spec 16 (_window_pos s + 1)).
      * split; [lia |]. split; [intros; lia |]. intros _.
        apply (Z.mod_unique_pos _ 16 ((_chunk_pos s - _min_chunk s) / 16 + 1) 0); lia.
      * split; [lia |]. split; [intros; lia |]. intros _.
        apply (Z.mod_unique_pos _ 16 ((_chunk_pos s - _min_chunk s) / 16)
                 (_window_pos s + 1)); lia.
Qed.

Lemma feed_scan_state_ok data : forall (s : Splitter),
  splitter_inv s -> scan_state_ok s -> scan_state_ok (feed s data).
Proof.
  induction data as [| b data IH]; intros s Hinv Hok; [exact Hok |].
  change (feed s (b :: data)) with (feed (feed_byte s b) data).
  apply IH; [apply feed_byte_inv, Hinv | apply feed_byte_scan_state_ok; assumption].
Qed.

(** X6.  Whatever has been pushed into a new splitter, the window is 16 bytes
    long and the index into it is inside it, so the next
    [window_data[window_pos]] is an access inside the window; while the
    open chunk is no longer than [min_chunk] nothing of it has been
    hashed, the hash is zero and the window is zeroed; beyond that the
    index is the number of hashed bytes modulo 16. *)
Theorem window_state_kept min_chunk max_chunk avg_chunk_bits calc_md5 calc_sha256
    segments :
  params_ok min_chunk max_chunk avg_chunk_bits ->
  segments_fit max_chunk segments ->
  exists s,
    push_all (new_Splitter EVP_md5 EVP_sha256 min_chunk max_chunk avg_chunk_bits
                           calc_md5 calc_sha256) segments = Some s /\
    scan_state_ok s.
Proof.
  intros Hparams Hfit.
  set (s0 := new_Splitter EVP_md5 EVP_sha256 min_chunk max_chunk avg_chunk_bits
                          calc_md5 calc_sha256).
  assert (Hinv : splitter_inv s0) by (apply new_Splitter_inv, Hparams).
  eexists. split; [apply push_all_feed; [exact Hinv | exact Hfit] |].
  assert (Hok : scan_state_ok (feed s0 (concat segments))).
  { apply feed_scan_state_ok; [exact Hinv |].
    unfold scan_state_ok. simpl.
    split; [reflexivity |]. split; [unfold NB_RABIN_WINDOW_LEN; simpl; lia |].
    split; [auto |].
    intros H. destruct Hparams as (? & _). lia. }
  exact Hok.
Qed.

End MoreProperties.


(** **** The further properties at concrete streams *)

Ltac splitter_inv_tac := unfold splitter_inv, INT_MAX; simpl; lia.

Lemma push_empty_witness :
  let s := new_Splitter Rabin.transcript Rabin.transcript 2 8 1 true true in
  splitter_inv s /\ push Rabin.shl_mod_width Rabin.update s [] = Some s.
Proof.
  intros s. split; [splitter_inv_tac |].
  apply (push_empty Rabin.shl_mod_width Rabin.update s). splitter_inv_tac.
Defined.

Lemma split_points_only_grow_witness :
  let s := new_Splitter Rabin.transcript Rabin.transcript 1 2 1 false false in
  splitter_inv s /\
  _chunk_pos s + Z.of_nat (length [x41; x42; x43]) <= INT_MAX /\
  _max_chunk s + Z.of_nat (length [x44; x45]) <= INT_MAX /\
  exists s1 s2 cut,
    push Rabin.shl_mod_width Rabin.update s [x41; x42; x43] = Some s1 /\
    push Rabin.shl_mod_width Rabin.update s1 [x44; x45] = Some s2 /\
    _split_points s2 = _split_points s1 ++ cut /\
    Forall (fun c => _min_chunk s <= c <= _max_chunk s) cut.
Proof.
  intros s. split; [splitter_inv_tac |].
  split; [unfold INT_MAX; simpl; lia |]. split; [unfold INT_MAX; simpl; lia |].
  apply (split_points_only_grow Rabin.shl_mod_width Rabin.update s [x41; x42; x43] [x44; x45]);
    [splitter_inv_tac | unfold INT_MAX; simpl; lia | unfold INT_MAX; simpl; lia].
Defined.

Lemma chunk_count_bounds_witness :
  params_ok 2 4 1 /\
  segments_fit 4 [[x00; x00; x00]; [x00; x00]] /\
  exists s,
    push_all Rabin.shl_mod_width Rabin.update
      (new_Splitter Rabin.transcript Rabin.transcript 2 4 1 false false)
      [[x00; x00; x00]; [x00; x00]] = Some s /\
    let n := Z.of_nat (length (_split_points s)) in
    n * 2 <= total_length [[x00; x00; x00]; [x00; x00]] < (n + 1) * 4.
Proof.
  split; [params_ok_tac |]. split; [segments_fit_tac |].
  apply (chunk_count_bounds Rabin.shl_mod_width Rabin.update 2 4 1 false false [[x00; x00; x00]; [x00; x00]]);
    [params_ok_tac | segments_fit_tac].
Defined.

Lemma leading_bytes_do_not_matter_witness :
  let s := new_Splitter Rabin.transcript Rabin.transcript 2 8 1 false false in
  splitter_inv s /\
  length [x41; x42] = length [x61; x62] /\
  _chunk_pos s + Z.of_nat (length [x41; x42]) <= _min_chunk s /\
  _chunk_pos s + Z.of_nat (length ([x41; x42] ++ [x43; x44; x45])) <= INT_MAX /\
  exists s1 s2,
    push Rabin.shl_mod_width Rabin.update s ([x41; x42] ++ [x43; x44; x45]) = Some s1 /\
    push Rabin.shl_mod_width Rabin.update s ([x61; x62] ++ [x43; x44; x45]) = Some s2 /\
    _split_points s1 = _split_points s2 /\
    _chunk_pos s1 = _chunk_pos s2 /\
    _hash s1 = _hash s2 /\
    _window s1 = _window s2 /\
    _window_pos s1 = _window_pos s2.
Proof.
  intros s. split; [splitter_inv_tac |]. split; [reflexivity |].
  split; [simpl; lia |]. split; [unfold INT_MAX; simpl; lia |].
  apply (leading_bytes_do_not_matter Rabin.shl_mod_width Rabin.update s [x41; x42] [x61; x62]
           [x43; x44; x45]);
    [splitter_inv_tac | reflexivity | simpl; lia | unfold INT_MAX; simpl; lia].
Defined.

Lemma zero_avg_bits_fixed_chunks_witness :
  params_ok 2 8 0 /\
  segments_fit 8 [[x41; x42; x43; x44]; [x45; x46; x47]] /\
  exists s,
    push_all Rabin.shl_mod_width Rabin.update
      (new_Splitter Rabin.transcript Rabin.transcript 2 8 0 false false)
      [[x41; x42; x43; x44]; [x45; x46; x47]] = Some s /\
    _split_points s = [3; 3] /\
    _chunk_pos s = 1.
Proof.
  split; [params_ok_tac |]. split; [segments_fit_tac |].
  apply (zero_avg_bits_fixed_chunks Rabin.shl_mod_width Rabin.update 2 8 false false
           [[x41; x42; x43; x44]; [x45; x46; x47]]);
    [params_ok_tac | segments_fit_tac].
Defined.

Lemma window_state_kept_witness :
  params_ok 2 8 1 /\
  segments_fit 8 [[x41; x42; x43]; [x44]] /\
  exists s,
    push_all Rabin.shl_mod_width Rabin.update
      (new_Splitter Rabin.transcript Rabin.transcript 2 8 1 true true)
      [[x41; x42; x43]; [x44]] = Some s /\
    scan_state_ok s.
Proof.
  split; [params_ok_tac |]. split; [segments_fit_tac |].
  apply (window_state_kept Rabin.shl_mod_width Rabin.update 2 8 1 true true [[x41; x42; x43]; [x44]]);
    [params_ok_tac | segments_fit_tac].
Defined.

End SplitterFacts.

(** ** Object I/O *)

Module ObjectIOFacts.

Import ObjectIO.

(** *** Upload parts *)

Lemma parts_of_cons chunk chunks :
  parts_of (chunk :: chunks) = ci_parts (chunk_info chunk) ++ parts_of chunks.
Proof. reflexivity. Qed.

Lemma parts_of_app a b : parts_of (a ++ b) = parts_of a ++ parts_of b.
Proof. unfold parts_of. rewrite map_app, concat_app. reflexivity. Qed.

(** What one batch does to the running offsets and counters, and the parts
    it makes: a chain that any chain from the new offsets continues. *)
Lemma map_chunks_spec chunks : forall params complete_params,
  let '(params', complete', mapped) := map_chunks params complete_params chunks in
  (forall more,
     contiguous_from (params_start params') (params_seq params') more ->
     contiguous_from (params_start params) (params_seq params) (parts_of mapped ++ more)) /\
  Forall2 (fun part chunk => part_end part - part_start part = chunk_size chunk)
          (parts_of mapped) mapped /\
  map chunk_size mapped = map ci_size chunks /\
  params_start params' = params_start params + sum_sizes (map ci_size chunks) /\
  params_seq params' = params_seq params + Z.of_nat (length chunks) /\
  complete_size complete' = complete_size complete_params + sum_sizes (map ci_size chunks) /\
  complete_num_parts complete' = complete_num_parts complete_params + Z.of_nat (length chunks).
Proof.
  induction chunks as [| chunk_info rest IH]; intros params complete_params.
  - simpl. repeat split; try lia; auto.
  - cbn [map_chunks].
    destruct (map_chunk_info params complete_params chunk_info)
      as [[params1 complete1] chunk] eqn:E1.
    specialize (IH params1 complete1).
    destruct (map_chunks params1 complete1 rest) as [[params' complete'] mapped].
    destruct IH as (Hchain & Hsizes & Hmap & Hstart & Hseq & Hsize & Hnum).
    unfold map_chunk_info in E1. injection E1 as <- <- <-.
    simpl in *. unfold chunk_size in *. simpl in *.
    repeat split.
    + intros. apply Hchain. assumption.
    + constructor; [simpl; lia | exact Hsizes].
    + f_equal. exact Hmap.
    + lia.
    + lia.
    + lia.
    + lia.
Qed.

Lemma contiguous_from_seq_lower start seq parts :
  contiguous_from start seq parts -> Forall (fun q => seq <= q) (map part_seq parts).
Proof.
  revert start seq. induction parts as [| part rest IH]; intros start seq H.
  - constructor.
  - destruct H as (_ & Hs & Hrest). simpl. constructor; [lia |].
    apply IH in Hrest. eapply List.Forall_impl; [| exact Hrest]. simpl. intros; lia.
Qed.

(** In a chain the sequence numbers increase strictly. *)
Lemma contiguous_from_sorted start seq parts :
  contiguous_from start seq parts -> StronglySorted Z.lt (map part_seq parts).
Proof.
  revert start seq. induction parts as [| part rest IH]; intros start seq H.
  - constructor.
  - destruct H as (_ & Hs & Hrest). simpl. constructor; [eapply IH; eassumption |].
    apply contiguous_from_seq_lower in Hrest.
    eapply List.Forall_impl; [| exact Hrest]. simpl. intros; lia.
Qed.

Lemma uploader_spec mc_run batches : forall params complete_params,
  let '(params', complete', mapped, outcome) :=
    uploader mc_run params complete_params batches in
  (forall more,
     contiguous_from (params_start params') (params_seq params') more ->
     contiguous_from (params_start params) (params_seq params) (parts_of mapped ++ more)) /\
  Forall2 (fun part chunk => part_end part - part_start part = chunk_size chunk)
          (parts_of mapped) mapped /\
  (exists n, map chunk_size mapped = map ci_size (concat (firstn n batches)) /\
             (outcome = None -> firstn n batches = batches)) /\
  params_start params' = params_start params + sum_sizes (map chunk_size mapped) /\
  complete_size complete' = complete_size complete_params + sum_sizes (map chunk_size mapped) /\
  complete_num_parts complete' = complete_num_parts complete_params + Z.of_nat (length mapped).
Proof.
  induction batches as [| chunks rest IH]; intros params complete_params.
  - simpl. repeat split; try lia; auto; try constructor.
    exists 0%nat. split; reflexivity.
  - cbn [uploader]. unfold _upload_chunks.
    set (params0 := {| params_obj_id := params_obj_id params;
                       params_range := Some (params_start params, params_start params) |}).
    pose proof (map_chunks_spec chunks params0 complete_params) as Hb.
    destruct (map_chunks params0 complete_params chunks)
      as [[params1 complete1] mapped1].
    destruct Hb as (Hchain1 & Hsz1 & Hmap1 & Hstart1 & Hseq1 & Hsize1 & Hnum1).
    simpl in Hchain1, Hstart1, Hseq1.
    assert (Hlen1 : length mapped1 = length chunks).
    { rewrite <- (length_map chunk_size mapped1), Hmap1. apply length_map. }
    set (outcome1 := match mc_run mapped1 with
                     | McDone false => None
                     | McDone true => Some (new_Error "Upload map errors")
                     | McThrew e => Some e
                     end).
    destruct outcome1 as [e |] eqn:Eo.
    + repeat split.
      * exact Hchain1.
      * exact Hsz1.
      * exists 1%nat. simpl. rewrite app_nil_r. split; [exact Hmap1 | discriminate].
      * rewrite Hmap1. exact Hstart1.
      * rewrite Hmap1. exact Hsize1.
      * rewrite Hlen1. exact Hnum1.
    + specialize (IH params1 complete1).
      destruct (uploader mc_run params1 complete1 rest)
        as [[[params' complete'] mapped'] outcome].
      destruct IH as (Hchain & Hsz & (n & Hmap & Hall) & Hstart & Hsize & Hnum).
      assert (Hsum : forall a b, sum_sizes (a ++ b) = sum_sizes a + sum_sizes b).
      { intros a b. unfold sum_sizes. induction a as [| x a IHa]; simpl; lia. }
      repeat split.
      * intros. rewrite parts_of_app, <- app_assoc.
        apply Hchain1, Hchain. assumption.
      * rewrite parts_of_app. apply Forall2_app; assumption.
      * exists (S n). simpl. rewrite !map_app, Hmap1, Hmap.
        split; [reflexivity |]. intros Ho. f_equal. apply Hall, Ho.
      * rewrite map_app, Hsum, Hstart, Hstart1, Hmap1. lia.
      * rewrite map_app, Hsum, Hsize, Hsize1, Hmap1. lia.
      * rewrite length_app, Hnum, Hnum1, Hlen1. lia.
Qed.

(** Every chunk made of a batch carries one part of the upload, and the
    identifiers in [params] stay as they are. *)
Lemma map_chunks_parts chunks : forall params complete_params,
  let '(params', _, mapped) := map_chunks params complete_params chunks in
  params_obj_id params' = params_obj_id params /\
  params_multipart_id params' = params_multipart_id params /\
  Forall (part_of_upload (params_obj_id params) (params_multipart_id params)) mapped.
Proof.
  induction chunks as [| info rest IH]; intros params complete_params.
  - simpl. split; [reflexivity |]. split; [reflexivity | constructor].
  - cbn [map_chunks].
    destruct (map_chunk_info params complete_params info)
      as [[params1 complete1] chunk] eqn:E1.
    specialize (IH params1 complete1).
    destruct (map_chunks params1 complete1 rest) as [[params' complete'] mapped].
    destruct IH as (Hobj & Hmulti & Hparts).
    unfold map_chunk_info in E1. injection E1 as <- <- <-.
    simpl in Hobj, Hmulti, Hparts.
    split; [exact Hobj |]. split; [exact Hmulti |].
    constructor; [| exact Hparts].
    eexists. split; [reflexivity |]. unfold chunk_size. simpl.
    split; [reflexivity |]. split; [reflexivity |]. split; [reflexivity | lia].
Qed.

(** The chunks the uploader made are those of the batches that reached the
    map client, batch by batch, and the uploader ended as the map client
    answered the last of them. *)
Lemma uploader_batches mc_run batches : forall params complete_params,
  let '(_, _, mapped, outcome) := uploader mc_run params complete_params batches in
  Forall (part_of_upload (params_obj_id params) (params_multipart_id params)) mapped /\
  exists per_batch,
    mapped = concat per_batch /\
    Forall2 (fun chunks infos => map chunk_size chunks = map ci_size infos)
            per_batch (firstn (length per_batch) batches) /\
    batches_uploaded mc_run batches per_batch outcome.
Proof.
  induction batches as [| chunks rest IH]; intros params complete_params.
  - simpl. split; [constructor |]. exists []. split; [reflexivity |].
    split; [constructor |]. split; [reflexivity | constructor].
  - cbn [uploader]. unfold _upload_chunks.
    set (params0 := {| params_obj_id := params_obj_id params;
                       params_range := Some (params_start params, params_start params) |}).
    pose proof (map_chunks_spec chunks params0 complete_params) as Hb.
    pose proof (map_chunks_parts chunks params0 complete_params) as Hp.
    destruct (map_chunks params0 complete_params chunks)
      as [[params1 complete1] mapped1].
    destruct Hb as (_ & _ & Hmap1 & _).
    destruct Hp as (Hobj1 & Hmulti1 & Hparts1).
    simpl in Hobj1, Hmulti1, Hparts1.
    fold (batch_outcome mc_run mapped1).
    destruct (batch_outcome mc_run mapped1) as [e |] eqn:Eo.
    + split; [exact Hparts1 |]. exists [mapped1].
      split; [simpl; rewrite app_nil_r; reflexivity |].
      split; [simpl; constructor; [exact Hmap1 | constructor] |].
      exists [], mapped1. split; [reflexivity |].
      split; [simpl; lia |]. split; [constructor | exact Eo].
    + specialize (IH params1 complete1).
      destruct (uploader mc_run params1 complete1 rest)
        as [[[params' complete'] mapped'] outcome].
      destruct IH as (Hparts & per_batch & Hcat & Hsizes & Hup).
      rewrite Hobj1, Hmulti1 in Hparts.
      split; [apply Forall_app; split; assumption |].
      exists (mapped1 :: per_batch).
      split; [simpl; rewrite Hcat; reflexivity |].
      split; [simpl; constructor; assumption |].
      destruct outcome as [e |]; simpl in Hup |- *.
      * destruct Hup as (finalized & failed & -> & Hlen & Hfin & Hfail).
        exists (mapped1 :: finalized), failed.
        split; [reflexivity |]. split; [simpl; lia |].
        split; [constructor; assumption | exact Hfail].
      * destruct Hup as [Hlen Hfin].
        split; [simpl; lia | constructor; assumption].
Qed.

(** C5.  For every sequence of coalesced batches given to the uploader of
    one upload, whatever the map client answers: the parts generated are a
    chain that starts at offset 0 and sequence number 0, each part starting
    where the one before ends; each part is as long as its chunk; the
    sequence numbers increase strictly; every chunk carries one part, of
    the object and the multipart of the upload; the chunks are those of the
    batches taken in order and batch by batch, each of the size the coder
    gave it: all the batches when the map client finalizes every one, and
    otherwise the batches up to and including the first one the map client
    fails, whose error ends the upload; [complete_params.size] is the sum
    of the sizes of these chunks, [complete_params.num_parts] is their
    number, and [params.start] ends at that size. *)
Theorem upload_parts_contiguous mc_run params batches :
  let '(params0, complete0) := start_upload params in
  let '(params', complete', chunks, outcome) :=
    uploader mc_run params0 complete0 batches in
  contiguous_from 0 0 (parts_of chunks) /\
  Forall2 (fun part chunk => part_end part - part_start part = chunk_size chunk)
          (parts_of chunks) chunks /\
  StronglySorted Z.lt (map part_seq (parts_of chunks)) /\
  Forall (part_of_upload (params_obj_id params) (params_multipart_id params)) chunks /\
  (exists per_batch,
     chunks = concat per_batch /\
     Forall2 (fun mapped infos => map chunk_size mapped = map ci_size infos)
             per_batch (firstn (length per_batch) batches) /\
     map chunk_size chunks = map ci_size (concat (firstn (length per_batch) batches)) /\
     batches_uploaded mc_run batches per_batch outcome) /\
  complete_size complete' = sum_sizes (map chunk_size chunks) /\
  complete_num_parts complete' = Z.of_nat (length chunks) /\
  params_start params' = complete_size complete'.
Proof.
  unfold start_upload.
  set (params0 := {| params_obj_id := params_obj_id params; params_start := 0 |}).
  set (complete0 := {| complete_size := 0 |}).
  pose proof (uploader_spec mc_run batches params0 complete0) as H.
  pose proof (uploader_batches mc_run batches params0 complete0) as Hb.
  destruct (uploader mc_run params0 complete0 batches)
    as [[[params' complete'] chunks] outcome].
  destruct H as (Hchain & Hsz & _ & Hstart & Hsize & Hnum).
  destruct Hb as (Hparts & per_batch & Hcat & Hsizes & Hup).
  simpl in Hchain, Hstart, Hsize, Hnum, Hparts.
  assert (Hc : contiguous_from 0 0 (parts_of chunks)).
  { specialize (Hchain [] I). rewrite app_nil_r in Hchain. exact Hchain. }
  split; [exact Hc |]. split; [exact Hsz |].
  split; [eapply contiguous_from_sorted, Hc |].
  split; [exact Hparts |].
  split.
  - exists per_batch. split; [exact Hcat |]. split; [exact Hsizes |].
    split; [| exact Hup].
    rewrite Hcat. clear - Hsizes.
    induction Hsizes as [| mapped infos pb bs Hm _ IH]; [reflexivity |].
    simpl. rewrite !map_app, Hm, IH. reflexivity.
  - split; [exact Hsize |]. split; [exact Hnum | lia].
Qed.

(** When the map client fails the second of three batches, the chunks of
    the first two are mapped and counted, and the third is not. *)
Example upload_fails_at_second_batch :
  let params := {| params_obj_id := JStr "obj"; params_multipart_id := JUndefined;
                   params_tier_id := JStr "tier"; params_bucket_id := JStr "bucket";
                   params_start := 7; params_seq := 3; params_range := None |} in
  let chunk size := {| ci_size := size; ci_data := Some []; ci_tier_id := JUndefined;
                       ci_bucket_id := JUndefined; ci_parts := []; ci_frags := [] |} in
  let mc_run mapped :=
    match mapped with
    | [_] => McDone true
    | _ => McDone false
    end in
  let '(params0, complete0) := start_upload params in
  let '(params', complete', chunks, outcome) :=
    uploader mc_run params0 complete0 [[chunk 10; chunk 20]; [chunk 5]; [chunk 1; chunk 2]] in
  map (fun part => (part_start part, part_end part, part_seq part)) (parts_of chunks)
    = [(0, 10, 0); (10, 30, 1); (30, 35, 2)] /\
  complete_size complete' = 35 /\ complete_num_parts complete' = 3 /\
  params_start params' = 35 /\
  outcome = Some (new_Error "Upload map errors").
Proof. vm_compute. auto. Qed.

Example upload_two_batches :
  let params := {| params_obj_id := JStr "obj"; params_multipart_id := JUndefined;
                   params_tier_id := JStr "tier"; params_bucket_id := JStr "bucket";
                   params_start := 7; params_seq := 3; params_range := None |} in
  let chunk size := {| ci_size := size; ci_data := Some []; ci_tier_id := JUndefined;
                       ci_bucket_id := JUndefined; ci_parts := []; ci_frags := [] |} in
  let '(params0, complete0) := start_upload params in
  let '(_, complete', chunks, _) :=
    uploader (fun _ => McDone false) params0 complete0
             [[chunk 10; chunk 20]; [chunk 5]] in
  map (fun part => (part_start part, part_end part, part_seq part)) (parts_of chunks)
    = [(0, 10, 0); (10, 30, 1); (30, 35, 2)] /\
  complete_size complete' = 35 /\ complete_num_parts complete' = 3.
Proof. vm_compute. auto. Qed.

(** *** Semaphore timeouts *)

Lemma has_code_true err code : has_code err code = true <-> err_code err = Some code.
Proof.
  unfold has_code. destruct (err_code err) as [c |]; [| split; discriminate].
  destruct (String.string_dec c code) as [-> | Hne]; split; try reflexivity;
    try discriminate. intros [= ?]. contradiction.
Qed.

(** One failure handled: nothing is reported and the instance is as it
    was, or an hour has passed since the last report, a report is sent and
    the clock value is remembered. *)
Lemma handle_semaphore_errors_step io now err :
  let '(io', reports, _) := _handle_semaphore_errors io now err in
  (reports = [] /\ io' = io) \/
  (HOUR_IN_MILI <= now - _last_io_bottleneck_report io /\
   _last_io_bottleneck_report io' = now /\ reports = [stress_report io]).
Proof.
  unfold _handle_semaphore_errors.
  destruct (has_code err "OBJECT_IO_STREAM_ITEM_TIMEOUT"); [| left; split; reflexivity].
  destruct (Z.leb_spec HOUR_IN_MILI (now - _last_io_bottleneck_report io)).
  - right. split; [assumption | split; reflexivity].
  - left. split; reflexivity.
Qed.

Lemma handle_all_hourly failures : forall io,
  hourly (_last_io_bottleneck_report io :: snd (handle_all io failures)).
Proof.
  induction failures as [| [now err] rest IH]; intros io.
  - simpl. auto.
  - cbn [handle_all].
    pose proof (handle_semaphore_errors_step io now err) as Hstep.
    destruct (_handle_semaphore_errors io now err) as [[io' reports] res].
    specialize (IH io'). destruct (handle_all io' rest) as [io'' times].
    simpl in IH |- *.
    destruct Hstep as [[-> ->] | (Hhour & Hlast & ->)].
    + exact IH.
    + rewrite Hlast in IH. simpl. split; [exact Hhour | exact IH].
Qed.

(** When the error handed to [_handle_semaphore_errors] carries the
    timeout code of the stream semaphore, the call throws an [RpcError]
    with that code, and so does [_upload_stream] to its caller; a stress
    report is sent exactly when at least 3600000 ms have passed since the
    last report (none within that interval, one at the first failure after
    it), the time of the report being remembered; and over any later run
    of failures, every report comes at least an hour after the one
    before. *)
Lemma handle_semaphore_timeout io now err :
  err_code err = Some timeout_error_code ->
  let '(io', reports, res) := _handle_semaphore_errors io now err in
  res = Throw (RpcError timeout_error_code "") /\
  (forall (A : Type),
     _upload_stream (A := A) io now (Throw err)
       = (io', reports, Throw (RpcError timeout_error_code ""))) /\
  (now - _last_io_bottleneck_report io < HOUR_IN_MILI ->
     reports = [] /\ io' = io) /\
  (HOUR_IN_MILI <= now - _last_io_bottleneck_report io ->
     reports = [stress_report io] /\ _last_io_bottleneck_report io' = now) /\
  (forall failures,
     hourly (_last_io_bottleneck_report io' :: snd (handle_all io' failures))).
Proof.
  intros Hcode. apply has_code_true in Hcode. unfold timeout_error_code in *.
  unfold _upload_stream, _handle_semaphore_errors. rewrite Hcode.
  destruct (Z.leb_spec HOUR_IN_MILI (now - _last_io_bottleneck_report io)).
  - split; [reflexivity |]. split; [reflexivity |].
    split; [intros; lia |]. split; [intros; split; reflexivity |].
    intros failures. apply handle_all_hourly.
  - split; [reflexivity |]. split; [reflexivity |].
    split; [intros; split; reflexivity |]. split; [intros; lia |].
    intros failures. apply handle_all_hourly.
Qed.

Example two_timeouts_within_the_hour :
  let io := {| _last_io_bottleneck_report := 0; _verification_mode := false;
               location_node_id := JUndefined; location_host_id := JUndefined |} in
  let err := {| err_code := Some timeout_error_code; err_rpc_code := None;
                err_message := "" |} in
  snd (handle_all io [(1700000000000, err); (1700003599999, err); (1700003600000, err)])
    = [1700000000000; 1700003600000].
Proof. reflexivity. Qed.

(** In [read_object_stream] the handler runs inside the rejection handler
    of the read: a timeout is thrown from there, with the same hourly
    report, before the reader's ['error'] event is emitted; any other
    error is emitted on the reader. *)
Lemma read_stream_on_error_spec io now err :
  let '(io', reports, emitted, res) := read_stream_on_error io now err in
  (io', reports) = fst (_handle_semaphore_errors io now err) /\
  if has_code err timeout_error_code
  then emitted = [] /\ res = Throw (RpcError timeout_error_code "")
  else emitted = [err] /\ res = Return tt /\ reports = [] /\ io' = io.
Proof.
  unfold read_stream_on_error, _handle_semaphore_errors, timeout_error_code.
  destruct (has_code err "OBJECT_IO_STREAM_ITEM_TIMEOUT").
  - destruct (HOUR_IN_MILI <=? now - _last_io_bottleneck_report io); simpl; auto.
  - simpl. auto.
Qed.

(** *** The read cache *)




(** A slice between offsets that are not negative. *)
Lemma js_slice_nonneg {A : Type} (l : list A) (start end_ : Z) :
  0 <= start -> 0 <= end_ ->
  js_slice l start end_ = firstn (Z.to_nat (end_ - start)) (skipn (Z.to_nat start) l).
Proof.
  intros Hs He. unfold js_slice, adjust_offset.
  destruct (Z.ltb_spec start 0); [lia |]. destruct (Z.ltb_spec end_ 0); [lia |].
  set (len := Z.of_nat (length l)).
  destruct (Z_le_dec start len) as [Hsl | Hsl].
  - rewrite (Z.min_l start len) by lia.
    destruct (Z_le_dec end_ len) as [Hel | Hel].
    + rewrite (Z.min_l end_ len) by lia. reflexivity.
    + rewrite (Z.min_r end_ len) by lia.
      rewrite !firstn_all2; try reflexivity; rewrite length_skipn; subst len; lia.
  - rewrite (Z.min_r start len) by lia.
    rewrite !skipn_all2 by (subst len; lia). rewrite !firstn_nil. reflexivity.
Qed.

Lemma align_down_bounds offset align :
  0 < align -> align_down offset align <= offset < align_down offset align + align.
Proof.
  intros Ha. unfold align_down.
  pose proof (Z.mul_div_le offset align Ha).
  pose proof (Z.mul_succ_div_gt offset align Ha). lia.
Qed.





Example stale_entry_is_reloaded :
  let md := {| md_obj_id := JStr "o1"; md_etag := JStr "e1"; md_size := JNum 5;
               md_create_time := JNum 1000; md_other := [] |} in
  let md' := {| md_obj_id := JStr "o1"; md_etag := JStr "e2"; md_size := JNum 5;
                md_create_time := JNum 1000; md_other := [] |} in
  let stale := {| data_object_md := md; data_buffer := Some [x61; x62; x63] |} in
  let fresh := {| data_object_md := md'; data_buffer := Some [x41; x42; x43] |} in
  let params := {| read_obj_id := "o1"; read_bucket := "b"; read_key := "k";
                   read_start := 1; read_end := 3 |} in
  get_with_cache 8 1024 [(("o1"%string, 0, 8), stale)] params (Return md')
                 (fun _ => Return fresh)
    = ([(("o1"%string, 0, 8), fresh)], Return (Some [x42; x43])).
Proof. reflexivity. Qed.

(** *** Range assembly *)

Lemma intersection_overlap start1 end1 start2 end2 :
  intersection start1 end1 start2 end2 =
  if Z.max start1 start2 <? Z.min end1 end2
  then Some (Z.max start1 start2, Z.min end1 end2) else None.
Proof.
  unfold intersection.
  destruct (Z.leb_spec (Z.min end1 end2) (Z.max start1 start2));
    destruct (Z.ltb_spec (Z.max start1 start2) (Z.min end1 end2));
    try reflexivity; lia.
Qed.

(** The walk, when it returns, has reached [covered_to] and has added
    the intersecting slices. *)
Lemma combine_walk_returns parts end_ : forall pos buffers pos' buffers',
  combine_walk parts pos end_ buffers = Return (pos', buffers') ->
  pos' = covered_to parts pos end_ /\
  buffers' = buffers ++ intersecting_slices parts pos end_ /\
  parts_decoded parts pos end_.
Proof.
  induction parts as [| part rest IH]; intros pos buffers pos' buffers' H.
  - simpl in *. injection H as <- <-. rewrite app_nil_r. auto.
  - cbn [combine_walk covered_to intersecting_slices parts_decoded] in *.
    rewrite intersection_overlap in H.
    destruct (Z.max (rpart_start part) pos <? Z.min (rpart_end part) end_).
    + destruct (rpart_chunk_data part) as [data |] eqn:Edata; [| discriminate].
      apply IH in H. destruct H as (-> & -> & Hdec).
      rewrite <- app_assoc. simpl. repeat split; [discriminate | exact Hdec].
    + apply IH in H. exact H.
Qed.

(** The walk returns when every part it takes a slice of has its data. *)
Lemma combine_walk_decoded parts end_ : forall pos buffers,
  parts_decoded parts pos end_ ->
  combine_walk parts pos end_ buffers =
  Return (covered_to parts pos end_, buffers ++ intersecting_slices parts pos end_).
Proof.
  induction parts as [| part rest IH]; intros pos buffers Hdec.
  - simpl. rewrite app_nil_r. reflexivity.
  - cbn [combine_walk covered_to intersecting_slices parts_decoded] in *.
    rewrite intersection_overlap.
    destruct (Z.max (rpart_start part) pos <? Z.min (rpart_end part) end_).
    + destruct Hdec as [Hdata Hdec].
      destruct (rpart_chunk_data part) as [data |]; [| contradiction].
      rewrite IH by assumption. rewrite <- app_assoc. reflexivity.
    + apply IH, Hdec.
Qed.

(** C9.  [combine_parts_buffers_in_range] returns null when
    [end <= start]; for a range that is not empty it throws when the list
    of parts is empty; when every intersecting part has its chunk data it
    throws if the walk over the parts ends at a position other than [end],
    throws if the joined buffer is not [end - start] bytes long, and
    otherwise returns the joined buffer; and whenever it returns a buffer,
    the buffer has exactly [end - start] bytes and is the concatenation of
    the intersecting slices of the parts' chunk data, shifted by
    [chunk_offset] where one is set. *)
Theorem combine_parts_buffers_in_range_spec parts start end_ :
  (end_ <= start -> combine_parts_buffers_in_range parts start end_ = Return None) /\
  (start < end_ -> parts = [] ->
     combine_parts_buffers_in_range parts start end_
       = Throw (new_Error "no parts for data")) /\
  (start < end_ -> parts <> [] -> parts_decoded parts start end_ ->
     let buffer := buffer_join (intersecting_slices parts start end_) in
     combine_parts_buffers_in_range parts start end_ =
       if negb (covered_to parts start end_ =? end_)
       then Throw (new_Error "missing parts for data")
       else if negb (Z.of_nat (length buffer) =? end_ - start)
       then Throw (new_Error "short buffer from parts")
       else Return (Some buffer)) /\
  (forall buffer,
     combine_parts_buffers_in_range parts start end_ = Return (Some buffer) ->
     start < end_ /\
     Z.of_nat (length buffer) = end_ - start /\
     covered_to parts start end_ = end_ /\
     buffer = buffer_join (intersecting_slices parts start end_)).
Proof.
  unfold combine_parts_buffers_in_range.
  split; [| split; [| split]].
  - intros H. destruct (Z.leb_spec end_ start); [reflexivity | lia].
  - intros H ->. destruct (Z.leb_spec end_ start); [lia | reflexivity].
  - intros H Hne Hdec. destruct (Z.leb_spec end_ start); [lia |].
    destruct parts as [| part rest]; [contradiction |].
    rewrite combine_walk_decoded by assumption. reflexivity.
  - intros buffer H. destruct (Z.leb_spec end_ start); [discriminate |].
    destruct parts as [| part rest]; [discriminate |].
    destruct (combine_walk (part :: rest) start end_ []) as [[pos buffers] | e] eqn:Ew;
      [| discriminate].
    apply combine_walk_returns in Ew. destruct Ew as (-> & -> & _).
    rewrite app_nil_l in H.
    destruct (Z.eqb_spec (covered_to (part :: rest) start end_) end_);
      cbn [negb] in H; [| discriminate].
    destruct (Z.eqb_spec
                (Z.of_nat (length (buffer_join
                   (intersecting_slices (part :: rest) start end_))))
                (end_ - start));
      cbn [negb] in H; [| discriminate].
    injection H as <-.
    repeat split; assumption.
Qed.

Lemma combine_parts_buffers_in_range_spec_witness :
  let parts :=
    [ {| rpart_start := 0; rpart_end := 4; rpart_chunk_offset := None;
         rpart_chunk_data := Some [x61; x62; x63; x64] |};
      {| rpart_start := 4; rpart_end := 6; rpart_chunk_offset := Some 1;
         rpart_chunk_data := Some [x00; x65; x66] |} ] in
  2 < 6 /\ parts <> [] /\ parts_decoded parts 2 6 /\
  combine_parts_buffers_in_range parts 2 6 = Return (Some [x63; x64; x65; x66]).
Proof.
  intros parts.
  assert (Hdec : parts_decoded parts 2 6) by (simpl; repeat split; discriminate).
  split; [lia |]. split; [discriminate |]. split; [exact Hdec |].
  destruct (combine_parts_buffers_in_range_spec parts 2 6) as (_ & _ & H & _).
  rewrite H; [reflexivity | lia | discriminate | exact Hdec].
Defined.

Example combine_missing_part :
  combine_parts_buffers_in_range
    [ {| rpart_start := 0; rpart_end := 4; rpart_chunk_offset := None;
         rpart_chunk_data := Some [x61; x62; x63; x64] |} ] 2 6
  = Throw (new_Error "missing parts for data").
Proof. reflexivity. Qed.

Example combine_short_buffer :
  combine_parts_buffers_in_range
    [ {| rpart_start := 0; rpart_end := 6; rpart_chunk_offset := None;
         rpart_chunk_data := Some [x61; x62; x63; x64] |} ] 2 6
  = Throw (new_Error "short buffer from parts").
Proof. reflexivity. Qed.

(** *** Part reconstruction *)

Section ReadPath.

Context {Env : Type}.
Variable block_store_read : Env -> BlockMD -> Env * Completion Buffer.
Variable crypto_digest_b64 : string -> Buffer -> string.
Variable chunk_coder : list Frag -> Completion Buffer.
Variable frag_digest_type : string.

#[local] Abbreviation World := (@ObjectIO.World Env).
#[local] Abbreviation _read_block :=
  (ObjectIO._read_block block_store_read crypto_digest_b64).
#[local] Abbreviation read_next_block :=
  (ObjectIO.read_next_block block_store_read crypto_digest_b64).
#[local] Abbreviation verify_block :=
  (ObjectIO.verify_block block_store_read crypto_digest_b64 frag_digest_type).
#[local] Abbreviation _read_frag :=
  (ObjectIO._read_frag block_store_read crypto_digest_b64 frag_digest_type).
#[local] Abbreviation decode_chunk := (ObjectIO.decode_chunk (Env := Env) chunk_coder).
#[local] Abbreviation _read_frags :=
  (ObjectIO._read_frags block_store_read crypto_digest_b64 chunk_coder frag_digest_type).
#[local] Abbreviation _read_part :=
  (ObjectIO._read_part block_store_read crypto_digest_b64 chunk_coder frag_digest_type).

(** **** Traces *)

Lemma trace_extends_intro (w w' : World) t :
  w_trace w' = w_trace w ++ t -> trace_extends w w' /\ new_events w w' = t.
Proof.
  intros H. unfold trace_extends, new_events. rewrite H, drop_app_length. auto.
Qed.

Lemma trace_extends_refl (w : World) : trace_extends w w /\ new_events w w = [].
Proof. apply trace_extends_intro. rewrite app_nil_r. reflexivity. Qed.

Lemma trace_extends_trans (w w1 w2 : World) :
  trace_extends w w1 -> trace_extends w1 w2 ->
  trace_extends w w2 /\ new_events w w2 = new_events w w1 ++ new_events w1 w2.
Proof.
  unfold trace_extends. intros H1 H2. apply trace_extends_intro.
  rewrite H2, H1 at 1. rewrite <- app_assoc. reflexivity.
Qed.

Lemma decodes_app t1 t2 : decodes (t1 ++ t2) = decodes t1 ++ decodes t2.
Proof. apply omap_app. Qed.

Lemma reads_only_refl (w : World) : reads_only w w.
Proof.
  destruct (trace_extends_refl w) as [H1 H2].
  unfold reads_only. rewrite H2. repeat split; auto.
Qed.

Lemma reads_only_trans (w w1 w2 : World) :
  reads_only w w1 -> reads_only w1 w2 -> reads_only w w2.
Proof.
  intros (T1 & D1 & S1 & A1 & B1 & C1) (T2 & D2 & S2 & A2 & B2 & C2).
  destruct (trace_extends_trans w w1 w2 T1 T2) as [T E].
  unfold reads_only. rewrite E, decodes_app, D1, D2.
  repeat split; try congruence; try assumption.
Qed.

(** **** The primitive steps *)

Lemma read_block_spec io block (w : World) :
  let '(w', r) := _read_block io block w in
  reads_only w w' /\
  new_events w w' = [EvReadBlock block (is_return r)] /\
  w_frags w' = w_frags w.
Proof.
  unfold ObjectIO._read_block.
  destruct (block_store_read (w_env w) block) as [env res].
  match goal with |- context [EvReadBlock block (is_return ?r)] => set (r' := r) end.
  match goal with |- reads_only w ?w1 /\ _ =>
    destruct (trace_extends_intro w w1 [EvReadBlock block (is_return r')] eq_refl)
      as [T E] end.
  unfold reads_only. rewrite E. repeat split; auto.
Qed.

Lemma report_error_spec block err (w : World) :
  let '(w', r) := _report_error_on_object_read block err w in
  r = Throw err /\
  reads_only w w' /\
  new_events w w' = [EvReportError block err] /\
  w_frags w' = w_frags w.
Proof.
  unfold _report_error_on_object_read, then_, emit, reject. cbv beta iota.
  match goal with |- _ /\ reads_only w ?w1 /\ _ =>
    destruct (trace_extends_intro w w1 [EvReportError block err] eq_refl) as [T E] end.
  unfold reads_only. rewrite E. repeat split; auto.
Qed.

Lemma frag_shape_with_data f buffer : frag_shape (frag_with_data f buffer) = frag_shape f.
Proof. reflexivity. Qed.

Lemma shape_alter_data (frags : list Frag) frag buffer :
  frag_shape <$> alter (fun f => frag_with_data f buffer) frag frags
    = frag_shape <$> frags.
Proof.
  apply list_eq. intros j. rewrite !list_lookup_fmap, list_lookup_alter.
  destruct (decide (frag = j)) as [-> |]; [| reflexivity].
  destruct (frags !! j); reflexivity.
Qed.

Lemma set_frag_data_spec frag buffer (w : World) :
  let '(w', r) := set_frag_data frag buffer w in
  r = Return tt /\
  reads_only w w' /\
  new_events w w' = [] /\
  w_frags w' = alter (fun f => frag_with_data f buffer) frag (w_frags w).
Proof.
  unfold set_frag_data. cbv beta iota.
  match goal with |- _ /\ reads_only w ?w1 /\ _ =>
    destruct (trace_extends_intro w w1 [] (eq_sym (app_nil_r _))) as [T E] end.
  unfold reads_only. rewrite E. repeat split; auto.
  simpl. apply shape_alter_data.
Qed.

Lemma reads_only_events (w w1 w2 : World) :
  reads_only w w1 -> reads_only w1 w2 ->
  new_events w w2 = new_events w w1 ++ new_events w1 w2.
Proof.
  intros (T1 & _) (T2 & _). apply (trace_extends_trans w w1 w2 T1 T2).
Qed.

(** **** The replicas of a fragment, one after the other *)

Lemma read_next_block_spec io frag blocks : forall (w : World),
  let '(w', r) := read_next_block io frag blocks w in
  r = Return tt /\
  reads_only w w' /\
  exists attempts,
    (map fst attempts = map block_md blocks /\
     new_events w w' = failed_reads attempts /\
     w_frags w' = w_frags w)
    \/
    (exists k block buffer,
       blocks !! k = Some block /\
       map fst attempts = map block_md (take k blocks) /\
       new_events w w' = failed_reads attempts ++ [EvReadBlock (block_md block) true] /\
       w_frags w' = alter (fun f => frag_with_data f buffer) frag (w_frags w)).
Proof.
  induction blocks as [| block rest IH]; intros w.
  - simpl. split; [reflexivity |]. split; [apply reads_only_refl |].
    exists []. left. repeat split; try reflexivity. apply trace_extends_refl.
  - cbn [ObjectIO.read_next_block]. unfold catch_ at 1 2. unfold then_ at 1.
    pose proof (read_block_spec io (block_md block) w) as Hread.
    destruct (_read_block io (block_md block) w) as [w1 [buffer | err]].
    + (* the block is read *)
      destruct Hread as (R1 & E1 & F1). simpl in E1.
      pose proof (set_frag_data_spec frag buffer w1) as Hset.
      destruct (set_frag_data frag buffer w1) as [w2 r2].
      destruct Hset as (-> & R2 & E2 & F2).
      split; [reflexivity |]. split; [eapply reads_only_trans; eassumption |].
      exists []. right. exists 0%nat, block, buffer.
      split; [reflexivity |]. split; [reflexivity |].
      split; [rewrite (reads_only_events w w1 w2), E1, E2 by assumption; reflexivity |].
      rewrite F2, F1. reflexivity.
    + (* the read fails, is reported, and the next block is tried *)
      destruct Hread as (R1 & E1 & F1). simpl in E1.
      pose proof (report_error_spec (block_md block) err w1) as Hrep.
      destruct (_report_error_on_object_read (block_md block) err w1) as [w2 r2].
      destruct Hrep as (-> & R2 & E2 & F2).
      specialize (IH w2).
      destruct (read_next_block io frag rest w2) as [w3 r3].
      destruct IH as (-> & R3 & attempts & Hcases).
      assert (R02 : reads_only w w2) by (eapply reads_only_trans; eassumption).
      split; [reflexivity |]. split; [eapply reads_only_trans; eassumption |].
      exists ((block_md block, err) :: attempts).
      assert (E02 : new_events w w2
                    = [EvReadBlock (block_md block) false;
                       EvReportError (block_md block) err])
        by (rewrite (reads_only_events w w1 w2), E1, E2 by assumption; reflexivity).
      destruct Hcases as [(Hm & E3 & F3) | (k & b & buffer & Hk & Hm & E3 & F3)].
      * left. split; [simpl; f_equal; exact Hm |].
        split; [rewrite (reads_only_events w w2 w3), E02, E3 by assumption; reflexivity |].
        congruence.
      * right. exists (S k), b, buffer.
        split; [exact Hk |]. split; [simpl; f_equal; exact Hm |].
        split; [rewrite (reads_only_events w w2 w3), E02, E3 by assumption; reflexivity |].
        congruence.
Qed.

(** **** Everything a fragment read does is reading *)

Lemma P_map_reads_only {A : Type} (f : A -> World -> World * Completion unit) items :
  (forall item w, reads_only w (fst (f item w))) ->
  forall w, reads_only w (fst (P_map f items w)).
Proof.
  intros Hf. induction items as [| item rest IH]; intros w.
  - apply reads_only_refl.
  - cbn [P_map]. specialize (Hf item w). destruct (f item w) as [w1 r1].
    specialize (IH w1). destruct (P_map f rest w1) as [w2 r2].
    simpl in *. eapply reads_only_trans; eassumption.
Qed.

Lemma verify_block_reads_only io frag digest_b64 block (w : World) :
  reads_only w (fst (verify_block io frag digest_b64 block w)).
Proof.
  unfold ObjectIO.verify_block, catch_, then_.
  pose proof (read_block_spec io (block_md block) w) as Hread.
  destruct (_read_block io (block_md block) w) as [w1 [buffer | err]];
    destruct Hread as (R1 & _ & _).
  - assert (Hrep : forall e, reads_only w
               (fst (_report_error_on_object_read (block_md block) e w1))).
    { intros e. pose proof (report_error_spec (block_md block) e w1) as H.
      destruct (_report_error_on_object_read (block_md block) e w1) as [w2 r2].
      destruct H as (_ & R2 & _). simpl. eapply reads_only_trans; eassumption. }
    destruct (negb (string_eqb (block_digest_type (block_md block)) frag_digest_type)
              || negb (string_eqb (block_digest_b64 (block_md block)) digest_b64)).
    { unfold reject at 1. apply Hrep. }
    assert (Hset : reads_only w (fst (set_frag_data frag buffer w1)) /\
                   snd (set_frag_data frag buffer w1) = Return tt).
    { pose proof (set_frag_data_spec frag buffer w1) as H.
      destruct (set_frag_data frag buffer w1) as [w2 r2].
      destruct H as (-> & R2 & _). simpl. split; [| reflexivity].
      eapply reads_only_trans; eassumption. }
    destruct (w_frags w1 !! frag) as [[di pi li dg bl [data |]] |].
    + destruct (buffer_equals buffer data).
      * simpl. exact R1.
      * unfold reject at 1. apply Hrep.
    + destruct (set_frag_data frag buffer w1) as [w2 r2]. simpl in Hset.
      destruct Hset as [Hset ->]. exact Hset.
    + destruct (set_frag_data frag buffer w1) as [w2 r2]. simpl in Hset.
      destruct Hset as [Hset ->]. exact Hset.
  - pose proof (report_error_spec (block_md block) err w1) as H.
    destruct (_report_error_on_object_read (block_md block) err w1) as [w2 r2].
    destruct H as (_ & R2 & _). simpl. eapply reads_only_trans; eassumption.
Qed.

Lemma read_frag_reads_only io frag (w : World) :
  reads_only w (fst (_read_frag io frag w)).
Proof.
  unfold ObjectIO._read_frag.
  destruct (w_frags w !! frag) as [f |]; [| apply reads_only_refl].
  destruct (frag_data f); [apply reads_only_refl |].
  destruct (frag_blocks f) as [blocks |]; [| apply reads_only_refl].
  destruct (get_frag_desc f); [| apply reads_only_refl].
  destruct (_verification_mode io).
  - apply P_map_reads_only. intros block w'. apply verify_block_reads_only.
  - pose proof (read_next_block_spec io frag blocks w) as H.
    destruct (read_next_block io frag blocks w) as [w' r].
    destruct H as (_ & R & _). exact R.
Qed.

Lemma get_frag_desc_ok f : frag_kind_ok f -> exists d, get_frag_desc f = Return d.
Proof.
  unfold frag_kind_ok, get_frag_desc. intros H.
  destruct (index_ge_0 (frag_data_index f)); [eexists; reflexivity |].
  destruct (index_ge_0 (frag_parity_index f)); [eexists; reflexivity |].
  destruct (index_ge_0 (frag_lrc_index f)); [eexists; reflexivity |].
  destruct H as [H | [H | H]]; discriminate.
Qed.

(** Outside verification mode the read of a well-formed fragment never
    rejects. *)
Lemma read_frag_resolves io frag (w : World) :
  _verification_mode io = false ->
  frags_well_formed w [frag] ->
  snd (_read_frag io frag w) = Return tt.
Proof.
  intros Hmode Hwf. apply Forall_cons in Hwf. destruct Hwf as [(f & Hf & Hk) _].
  unfold ObjectIO._read_frag. rewrite Hf, Hmode.
  destruct (frag_data f); [reflexivity |].
  destruct (frag_blocks f) as [blocks |]; [| reflexivity].
  destruct (get_frag_desc_ok f Hk) as [d ->].
  pose proof (read_next_block_spec io frag blocks w) as H.
  destruct (read_next_block io frag blocks w) as [w' r].
  destruct H as (-> & _). reflexivity.
Qed.

Lemma frags_well_formed_reads_only (w w' : World) frags :
  reads_only w w' -> frags_well_formed w frags -> frags_well_formed w' frags.
Proof.
  intros (_ & _ & Hshape & _) Hwf. unfold frags_well_formed in *.
  eapply List.Forall_impl; [| exact Hwf]. intros frag (f & Hf & Hk).
  assert (H : (frag_shape <$> w_frags w') !! frag = Some (frag_shape f))
    by (rewrite Hshape, list_lookup_fmap, Hf; reflexivity).
  apply list_lookup_fmap_Some in H. destruct H as (f' & Hs & Hf').
  exists f'. split; [exact Hf' |].
  unfold frag_kind_ok in *.
  replace (frag_data_index f') with (frag_data_index (frag_shape f')) by reflexivity.
  replace (frag_parity_index f') with (frag_parity_index (frag_shape f')) by reflexivity.
  replace (frag_lrc_index f') with (frag_lrc_index (frag_shape f')) by reflexivity.
  rewrite <- Hs. exact Hk.
Qed.

Lemma P_map_read_frag_resolves io frags : forall (w : World),
  _verification_mode io = false ->
  frags_well_formed w frags ->
  snd (P_map (_read_frag io) frags w) = Return tt.
Proof.
  induction frags as [| frag rest IH]; intros w Hmode Hwf; [reflexivity |].
  cbn [P_map].
  apply Forall_cons in Hwf. destruct Hwf as [Hfrag Hrest].
  pose proof (read_frag_resolves io frag w Hmode) as Hr.
  pose proof (read_frag_reads_only io frag w) as Hro.
  destruct (_read_frag io frag w) as [w1 r1]. simpl in Hr, Hro.
  rewrite Hr by (constructor; [exact Hfrag | constructor]).
  specialize (IH w1 Hmode (frags_well_formed_reads_only w w1 rest Hro Hrest)).
  destruct (P_map (_read_frag io) rest w1) as [w2 r2]. simpl in IH. subst r2.
  reflexivity.
Qed.

(** **** [_read_frags]: the reads, then the decode kernel *)

(** [_read_frags] either fails while reading, before any decode call, or
    calls the decode kernel once, on the fragments it was given, and ends
    as the kernel does. *)
Lemma read_frags_spec io frags (w : World) :
  let '(w', r) := _read_frags io frags w in
  trace_extends w w' /\
  frag_shape <$> w_frags w' = frag_shape <$> w_frags w /\
  ((decodes (new_events w w') = [] /\ (exists e, r = Throw e) /\
    snd (P_map (_read_frag io) frags
           {| w_env := w_env w; w_frags := w_frags w; w_chunk_data := None;
              w_chunk_frags := frags; w_chunk_coder := Some "dec"%string;
              w_trace := w_trace w |}) = r)
   \/
   (decodes (new_events w w') = [(frags, is_return r)] /\
    w_chunk_frags w' = frags /\
    r = match chunk_coder (frags_at w' frags) with
        | Return _ => Return tt
        | Throw e => Throw e
        end /\
    w_chunk_data w' = match chunk_coder (frags_at w' frags) with
                      | Return data => Some data
                      | Throw _ => None
                      end)).
Proof.
  unfold ObjectIO._read_frags, then_ at 1. cbv beta iota. unfold then_ at 1.
  set (w0 := {| w_env := w_env w; w_frags := w_frags w; w_chunk_data := None;
                w_chunk_frags := frags; w_chunk_coder := Some "dec"%string;
                w_trace := w_trace w |}).
  pose proof (P_map_reads_only (_read_frag io) frags
                (fun frag w => read_frag_reads_only io frag w) w0) as Hro.
  destruct (P_map (_read_frag io) frags w0) as [w1 [[] | e]]; simpl in Hro;
    destruct Hro as (T & D & S & A & B & C).
  - (* all the reads resolve: the kernel is called *)
    unfold ObjectIO.decode_chunk.
    set (res := chunk_coder (frags_at w1 (w_chunk_frags w1))).
    match goal with |- trace_extends w ?x /\ _ => set (w2 := x) end.
    assert (T12 : trace_extends w1 w2 /\
                  new_events w1 w2 = [EvDecode (w_chunk_frags w1) (is_return res)])
      by (apply trace_extends_intro; reflexivity).
    destruct T12 as [T12 E12].
    destruct (trace_extends_trans w0 w1 w2 T T12) as [T02 E02].
    change (new_events w0 w2) with (new_events w w2) in E02.
    change (new_events w0 w1) with (new_events w w1) in *.
    split; [exact T02 |]. split; [exact S |]. right.
    rewrite E02, decodes_app, D, E12. simpl in B. rewrite B in *.
    assert (Hat : frags_at w2 frags = frags_at w1 frags) by reflexivity.
    rewrite Hat.
    assert (Hres : res = chunk_coder (frags_at w1 frags))
      by (subst res; rewrite B; reflexivity).
    rewrite <- Hres.
    split; [simpl; destruct res; reflexivity |].
    split; [exact B |].
    split; [reflexivity |].
    change (w_chunk_data w2)
      with (match res with Return data => Some data | Throw _ => w_chunk_data w1 end).
    rewrite A. destruct res; reflexivity.
  - (* a read rejects: no decode *)
    split; [exact T |]. split; [exact S |]. left.
    split; [exact D |]. split; [eexists; reflexivity | reflexivity].
Qed.

Lemma frags_well_formed_shape (w w' : World) frags :
  frag_shape <$> w_frags w' = frag_shape <$> w_frags w ->
  frags_well_formed w frags -> frags_well_formed w' frags.
Proof.
  intros Hshape Hwf. unfold frags_well_formed in *.
  eapply List.Forall_impl; [| exact Hwf]. intros frag (f & Hf & Hk).
  assert (H : (frag_shape <$> w_frags w') !! frag = Some (frag_shape f))
    by (rewrite Hshape, list_lookup_fmap, Hf; reflexivity).
  apply list_lookup_fmap_Some in H. destruct H as (f' & Hs & Hf').
  exists f'. split; [exact Hf' |].
  unfold frag_kind_ok in *.
  replace (frag_data_index f') with (frag_data_index (frag_shape f')) by reflexivity.
  replace (frag_parity_index f') with (frag_parity_index (frag_shape f')) by reflexivity.
  replace (frag_lrc_index f') with (frag_lrc_index (frag_shape f')) by reflexivity.
  rewrite <- Hs. exact Hk.
Qed.

(** Outside verification mode, on well-formed fragments, [_read_frags]
    always reaches the decode kernel and ends as the kernel does. *)
Lemma read_frags_decodes io frags (w : World) :
  _verification_mode io = false ->
  frags_well_formed w frags ->
  let '(w', r) := _read_frags io frags w in
  decodes (new_events w w') = [(frags, is_return r)] /\
  r = match chunk_coder (frags_at w' frags) with
      | Return _ => Return tt
      | Throw e => Throw e
      end.
Proof.
  intros Hmode Hwf.
  pose proof (read_frags_spec io frags w) as H.
  destruct (_read_frags io frags w) as [w' r].
  destruct H as (_ & _ & [(_ & (e & ->) & Hmap) | (D & _ & Hr & _)]).
  - rewrite P_map_read_frag_resolves in Hmap by assumption. discriminate.
  - split; assumption.
Qed.

(** C10.  Outside verification mode, for a fragment of one of the three
    kinds that has blocks and no data yet: [_read_frag] resolves, whatever
    the agents answer; its block reads are made one after the other, each
    failed read being reported before the next block is tried, up to the
    first block that is read, whose buffer becomes the fragment's data;
    when every block fails the fragment is left without data.  And
    [_read_frags] on well-formed fragments calls the decode kernel once,
    on the fragments as they are then, and fails exactly when the kernel
    fails. *)
Theorem read_frag_tries_blocks_in_turn io (w : World) frag f blocks :
  _verification_mode io = false ->
  w_frags w !! frag = Some f ->
  frag_kind_ok f ->
  frag_data f = None ->
  frag_blocks f = Some blocks ->
  let '(w', r) := _read_frag io frag w in
  r = Return tt /\
  (exists attempts,
     (map fst attempts = map block_md blocks /\
      new_events w w' = failed_reads attempts /\
      w_frags w' !! frag = Some f)
     \/
     (exists k block buffer,
        blocks !! k = Some block /\
        map fst attempts = map block_md (take k blocks) /\
        new_events w w'
          = failed_reads attempts ++ [EvReadBlock (block_md block) true] /\
        w_frags w' !! frag = Some (frag_with_data f buffer))) /\
  (forall frags,
     frags_well_formed w frags ->
     let '(w2, r2) := _read_frags io frags w in
     decodes (new_events w w2) = [(frags, is_return r2)] /\
     r2 = match chunk_coder (frags_at w2 frags) with
          | Return _ => Return tt
          | Throw e => Throw e
          end).
Proof.
  intros Hmode Hf Hkind Hdata Hblocks.
  unfold ObjectIO._read_frag. rewrite Hf, Hdata, Hblocks, Hmode.
  destruct (get_frag_desc_ok f Hkind) as [d ->].
  pose proof (read_next_block_spec io frag blocks w) as H.
  destruct (read_next_block io frag blocks w) as [w' r].
  destruct H as (-> & _ & attempts & Hcases).
  split; [reflexivity |]. split.
  - exists attempts.
    destruct Hcases as [(Hm & E & F) | (k & block & buffer & Hk & Hm & E & F)].
    + left. rewrite F. auto.
    + right. exists k, block, buffer. rewrite F, list_lookup_alter_eq, Hf. auto.
  - intros frags Hwf. apply read_frags_decodes; assumption.
Qed.

(** **** [_read_part] *)

Lemma filter_length_all {A : Type} (P : A -> Prop) `{forall x, Decision (P x)}
    (l : list A) :
  (length (filter P l) =? length l)%nat = true <-> Forall P l.
Proof.
  rewrite Nat.eqb_eq. split.
  - intros Hlen. apply Forall_forall. intros x Hx.
    destruct (decide (P x)) as [HP | HP]; [exact HP |].
    pose proof (length_filter_lt P l x Hx HP). lia.
  - intros Hall. induction Hall as [| x l HP Hall IH]; [reflexivity |].
    rewrite filter_cons_True by exact HP. simpl. f_equal. exact IH.
Qed.

Lemma buffer_equals_true a b : buffer_equals a b = true <-> a = b.
Proof.
  unfold buffer_equals. destruct (List.list_eq_dec Byte.byte_eq_dec a b);
    split; congruence.
Qed.

Lemma read_frags_trace io frags (w : World) :
  trace_extends w (fst (_read_frags io frags w)).
Proof.
  pose proof (read_frags_spec io frags w) as H.
  destruct (_read_frags io frags w) as [w' r]. destruct H as (T & _). exact T.
Qed.

(** C8.  With [data_frags] the data fragments of the chunk's fragments
    [all_frags], and [(w1, r1)] the outcome of [_read_frags] on
    [data_frags]: [_read_part] begins with that read, which calls the
    decode kernel on the data fragments unless a fragment read rejects
    first (outside verification mode and on well-formed fragments it
    always calls it).  Outside verification mode: on success the part
    is read; on failure the error is thrown on when the chunk has no
    fragments other than data fragments, and otherwise [_read_part] ends
    as one more [_read_frags], on all the fragments, ends; on well-formed
    fragments the decode kernel is so called once or twice.  In
    verification mode: a failure of the data fragments is thrown on at
    once; on success [_read_frags] runs again on the parity fragments
    followed by leading data fragments, a set that holds every parity
    fragment, and the part is read exactly when that run succeeds and the
    chunk data it yields equals the data decoded from the data
    fragments. *)
Theorem read_part_recovery io (w : World) :
  let all_frags := w_chunk_frags w in
  let data_frags := filter (fun frag => is_data_frag w frag = true) all_frags in
  let '(w1, r1) := _read_frags io data_frags w in
  (exists t, new_events w (fst (_read_part io w)) = new_events w w1 ++ t) /\
  (decodes (new_events w w1) = [(data_frags, is_return r1)] \/
   decodes (new_events w w1) = [] /\ exists e, r1 = Throw e) /\
  (_verification_mode io = false -> frags_well_formed w data_frags ->
     decodes (new_events w w1) = [(data_frags, is_return r1)]) /\
  (_verification_mode io = false ->
     match r1 with
     | Return _ => _read_part io w = (w1, Return tt)
     | Throw err =>
         if (length data_frags =? length all_frags)%nat
         then _read_part io w = (w1, Throw err)
         else _read_part io w = _read_frags io all_frags w1
     end) /\
  ((length data_frags =? length all_frags)%nat = false <->
     exists frag, frag ∈ all_frags /\ is_data_frag w frag = false) /\
  (_verification_mode io = false -> frags_well_formed w all_frags ->
     let '(w', r) := _read_part io w in
     decodes (new_events w w') =
       if is_return r1 || (length data_frags =? length all_frags)%nat
       then [(data_frags, is_return r1)]
       else [(data_frags, false); (all_frags, is_return r)]) /\
  (_verification_mode io = true ->
     match r1 with
     | Throw err => _read_part io w = (w1, Throw err)
     | Return _ =>
         let verify := verify_parity_frags w1 all_frags data_frags in
         let '(w2, r2) := _read_frags io verify w1 in
         (forall frag, frag ∈ all_frags -> is_parity_frag w1 frag = true ->
            frag ∈ verify) /\
         match r2 with
         | Throw err => _read_part io w = (w2, Throw err)
         | Return _ =>
             exists r, _read_part io w = (w2, r) /\
               (r = Return tt <->
                exists data, w_chunk_data w2 = Some data /\ w_chunk_data w1 = Some data)
         end
     end).
Proof.
  intros all_frags data_frags.
  pose proof (read_frags_spec io data_frags w) as Hspec.
  pose proof (read_frags_decodes io data_frags w) as Hdec.
  assert (Hpart : _read_part io w =
    catch_
      (then_
         (catch_ (_read_frags io data_frags)
            (fun err =>
               if _verification_mode io then reject err
               else if (length data_frags =? length all_frags)%nat then reject err
               else _read_frags io all_frags))
         (fun _ =>
            if _verification_mode io then
              fun w' =>
                then_ (_read_frags io (verify_parity_frags w' all_frags data_frags))
                      (fun _ => assert_same_data (w_chunk_data w')) w'
            else resolve tt))
      (fun err => reject err) w) by reflexivity.
  unfold catch_, then_ in Hpart.
  destruct (_read_frags io data_frags w) as [w1 r1].
  destruct Hspec as (T1 & S1 & Hcases).
  (* the outcome in each mode *)
  assert (Hplain : _verification_mode io = false ->
     match r1 with
     | Return _ => _read_part io w = (w1, Return tt)
     | Throw err =>
         if (length data_frags =? length all_frags)%nat
         then _read_part io w = (w1, Throw err)
         else _read_part io w = _read_frags io all_frags w1
     end).
  { intros Hmode. rewrite Hmode in Hpart. destruct r1 as [[] | err]; [exact Hpart |].
    destruct (length data_frags =? length all_frags)%nat; [exact Hpart |].
    rewrite Hpart. destruct (_read_frags io all_frags w1) as [w2 [[] | e]]; reflexivity. }
  assert (Hverif : _verification_mode io = true ->
     match r1 with
     | Throw err => _read_part io w = (w1, Throw err)
     | Return _ =>
         let verify := verify_parity_frags w1 all_frags data_frags in
         let '(w2, r2) := _read_frags io verify w1 in
         (forall frag, frag ∈ all_frags -> is_parity_frag w1 frag = true ->
            frag ∈ verify) /\
         match r2 with
         | Throw err => _read_part io w = (w2, Throw err)
         | Return _ =>
             exists r, _read_part io w = (w2, r) /\
               (r = Return tt <->
                exists data, w_chunk_data w2 = Some data /\ w_chunk_data w1 = Some data)
         end
     end).
  { intros Hmode. rewrite Hmode in Hpart. destruct r1 as [[] | err]; [| exact Hpart].
    cbv zeta.
    destruct (_read_frags io (verify_parity_frags w1 all_frags data_frags) w1)
      as [w2 [[] | e]].
    - split.
      { intros frag Hin Hpar. unfold verify_parity_frags. apply elem_of_app. left.
        apply list_elem_of_filter. split; assumption. }
      unfold assert_same_data in Hpart.
      destruct (w_chunk_data w2) as [d2 |], (w_chunk_data w1) as [d1 |].
      + destruct (buffer_equals d2 d1) eqn:Eeq.
        * eexists. split; [exact Hpart |]. split; [| reflexivity].
          intros _. apply buffer_equals_true in Eeq. subst. eauto.
        * eexists. split; [exact Hpart |]. split; [discriminate |].
          intros (d & [= ->] & [= ->]).
          assert (buffer_equals d d = true) by (apply buffer_equals_true; reflexivity).
          congruence.
      + eexists. split; [exact Hpart |]. split; [discriminate |].
        intros (d & _ & ?). discriminate.
      + eexists. split; [exact Hpart |]. split; [discriminate |].
        intros (d & ? & _). discriminate.
      + eexists. split; [exact Hpart |]. split; [discriminate |].
        intros (d & ? & _). discriminate.
    - split.
      { intros frag Hin Hpar. unfold verify_parity_frags. apply elem_of_app. left.
        apply list_elem_of_filter. split; assumption. }
      exact Hpart. }
  (* the trace of the part continues the trace of the first read *)
  assert (Hext : trace_extends w1 (fst (_read_part io w))).
  { destruct (_verification_mode io) eqn:Hmode.
    - specialize (Hverif eq_refl). destruct r1 as [[] | err].
      + cbv zeta in Hverif.
        pose proof (read_frags_trace io (verify_parity_frags w1 all_frags data_frags) w1)
          as T2.
        destruct (_read_frags io (verify_parity_frags w1 all_frags data_frags) w1)
          as [w2 r2].
        destruct Hverif as [_ Hverif]. destruct r2 as [[] | e].
        * destruct Hverif as (r & -> & _). exact T2.
        * rewrite Hverif. exact T2.
      + rewrite Hverif. apply trace_extends_refl.
    - specialize (Hplain eq_refl). destruct r1 as [[] | err].
      + rewrite Hplain. apply trace_extends_refl.
      + destruct (length data_frags =? length all_frags)%nat.
        * rewrite Hplain. apply trace_extends_refl.
        * rewrite Hplain. apply read_frags_trace. }
  split.
  { eexists. apply (trace_extends_trans w w1 _ T1 Hext). }
  split.
  { destruct Hcases as [(D & He & _) | (D & _)]; [right | left]; auto. }
  split.
  { intros Hmode Hwf. apply (Hdec Hmode Hwf). }
  split; [exact Hplain |].
  split.
  { subst data_frags.
    pose proof (filter_length_all (fun frag => is_data_frag w frag = true) all_frags)
      as Hall.
    destruct (length (filter (fun frag => is_data_frag w frag = true) all_frags)
              =? length all_frags)%nat.
    - split; [discriminate |]. intros (frag & Hin & Hn). exfalso.
      apply proj1 in Hall. specialize (Hall eq_refl).
      rewrite Forall_forall in Hall. specialize (Hall frag Hin). congruence.
    - split; [| reflexivity]. intros _.
      assert (Hn : ~ Forall (fun frag => is_data_frag w frag = true) all_frags)
        by (intros HF; apply Hall in HF; discriminate).
      apply not_Forall_Exists in Hn; [| intros frag; apply _].
      apply Exists_exists in Hn. destruct Hn as (frag & Hin & Hn).
      exists frag. split; [exact Hin |]. apply not_true_iff_false, Hn. }
  split; [| exact Hverif].
  intros Hmode Hwf.
  assert (Hwfd : frags_well_formed w data_frags).
  { unfold frags_well_formed in *. apply Forall_forall. intros frag Hin.
    apply list_elem_of_filter in Hin. destruct Hin as [_ Hin].
    rewrite Forall_forall in Hwf. apply Hwf, Hin. }
  specialize (Hdec Hmode Hwfd). destruct Hdec as [D1 _].
  specialize (Hplain Hmode).
  destruct r1 as [[] | err].
  - rewrite Hplain. exact D1.
  - destruct (length data_frags =? length all_frags)%nat.
    + rewrite Hplain. exact D1.
    + rewrite Hplain.
      pose proof (read_frags_decodes io all_frags w1 Hmode
                    (frags_well_formed_shape w w1 all_frags S1 Hwf)) as H2.
      pose proof (read_frags_trace io all_frags w1) as T2.
      destruct (_read_frags io all_frags w1) as [w2 r2]. simpl in T2.
      destruct H2 as [D2 _].
      destruct (trace_extends_trans w w1 w2 T1 T2) as [_ E].
      rewrite E, decodes_app, D1, D2. reflexivity.
Qed.

End ReadPath.

(** **** The statements in the example world *)

Lemma read_frag_tries_blocks_in_turn_witness :
  let io := example_io false in
  let blocks := [example_block "b1" "down" "AA"; example_block "b2" "n2" "AA"] in
  let f := {| frag_data_index := Some 0; frag_parity_index := None;
              frag_lrc_index := None; frag_digest_b64 := "AA";
              frag_blocks := Some blocks; frag_data := None |} in
  _verification_mode io = false /\
  w_frags example_world !! 0%nat = Some f /\
  frag_kind_ok f /\
  frag_data f = None /\
  frag_blocks f = Some blocks /\
  snd (_read_frag example_agents example_digest "sha1" io 0 example_world) = Return tt.
Proof.
  intros io blocks f.
  assert (Hk : frag_kind_ok f) by (left; reflexivity).
  split; [reflexivity |]. split; [reflexivity |]. split; [exact Hk |].
  split; [reflexivity |]. split; [reflexivity |].
  pose proof (read_frag_tries_blocks_in_turn example_agents example_digest example_coder
                "sha1" io example_world 0%nat f blocks
                eq_refl eq_refl Hk eq_refl eq_refl) as H.
  destruct (_read_frag example_agents example_digest "sha1" io 0 example_world)
    as [w' r].
  destruct H as [Hr _]. exact Hr.
Defined.

Example all_replicas_down :
  let '(w', r) :=
    _read_frag example_agents example_digest "sha1" (example_io false) 1 example_world in
  r = Return tt /\
  w_frags w' = w_frags example_world /\
  map (fun ev => match ev with
                 | EvReadBlock b ok => (block_id b, Some ok)
                 | EvReportError b _ => (block_id b, None)
                 | EvDecode _ _ => (""%string, None)
                 end) (new_events example_world w')
    = [("b3"%string, Some false); ("b3"%string, None)].
Proof. vm_compute. auto. Qed.

Lemma read_part_recovery_witness :
  let io := example_io false in
  let '(w', r) :=
    _read_part example_agents example_digest example_coder "sha1" io example_world in
  _verification_mode io = false /\
  frags_well_formed example_world (w_chunk_frags example_world) /\
  r = Return tt /\
  decodes (new_events example_world w')
    = [([0; 1]%nat, false); ([0; 1; 2]%nat, true)].
Proof.
  intros io.
  assert (Hwf : frags_well_formed example_world (w_chunk_frags example_world)).
  { repeat constructor; eexists; (split; [reflexivity |]);
      unfold frag_kind_ok; simpl; auto. }
  pose proof (read_part_recovery example_agents example_digest example_coder "sha1"
                io example_world) as H.
  cbv zeta in H.
  destruct (_read_frags example_agents example_digest example_coder "sha1" io
              (filter (fun frag => is_data_frag example_world frag = true)
                      (w_chunk_frags example_world)) example_world) as [w1 r1] eqn:E1.
  destruct H as (_ & _ & _ & _ & _ & Hdec & _).
  specialize (Hdec eq_refl Hwf).
  vm_compute in E1. injection E1 as <- <-.
  destruct (_read_part example_agents example_digest example_coder "sha1" io
              example_world) as [w' r] eqn:E.
  split; [reflexivity |]. split; [exact Hwf |].
  vm_compute in E. injection E as <- <-.
  split; [reflexivity |]. exact Hdec.
Defined.

Example verification_mode_raises_at_once :
  let '(w', r) :=
    _read_part example_agents example_digest example_coder "sha1" (example_io true)
               example_world in
  r = Throw (RpcError "RPC_CONNECT_TIMEOUT" "") /\
  decodes (new_events example_world w') = [].
Proof. vm_compute. auto. Qed.

(** *** The upload entry points *)

Ltac step_cases H :=
  repeat (apply elem_of_cons in H; destruct H as [H | H]);
  try (apply elem_of_nil in H; contradiction); try discriminate.

Ltac solve_steps :=
  repeat match goal with
  | H : _ ∈ _ |- _ => step_cases H
  | H : complete_object_upload _ = complete_object_upload _ |- _ => injection H as ->
  | H : complete_multipart _ = complete_multipart _ |- _ => injection H as ->
  | |- _ /\ _ => split
  | |- exists before, _ = before ++ _ /\ _ => eexists; split; [reflexivity |]
  | |- exists _, _ => eexists
  | |- _ ∉ _ => let H := fresh in intros H; step_cases H
  | |- forall _, _ => intro
  end; try reflexivity.

(** X7.  [upload_object] resolves exactly when the creation, the data stage and
    the completion all succeed, to the reply of the completion, and then
    nothing was aborted.  Otherwise it rejects with the error of the first
    of the three that failed, whatever the answer to the abort call; the
    abort call is the last call, is made once, and is made exactly when
    [params.obj_id] is set by then: to the id of the reply once the object
    is created, to what the caller passed before.  The completion is
    called only after the data stage has succeeded. *)
Theorem upload_object_aborts_and_rethrows {R : Type} params_obj_id copy_source
    (answers : UploadAnswers R) :
  let '(steps, result) := upload_object params_obj_id copy_source answers in
  match first_failure answers with
  | None =>
      (exists complete_result,
         completed answers = Return complete_result /\
         result = Return (complete_result, copy_source)) /\
      (forall obj_id, abort_object_upload obj_id ∉ steps)
  | Some err =>
      result = Throw err /\
      let obj_id := known_obj_id params_obj_id answers in
      if truthy obj_id
      then exists before,
             steps = before ++ [abort_object_upload obj_id] /\
             forall obj_id', abort_object_upload obj_id' ∉ before
      else forall obj_id', abort_object_upload obj_id' ∉ steps
  end /\
  (forall obj_id, complete_object_upload obj_id ∈ steps ->
     obj_id = known_obj_id params_obj_id answers /\
     exists create_reply, created answers = Return create_reply /\
                          uploaded answers = Return tt).
Proof.
  unfold upload_object, first_failure, known_obj_id, abort_upload.
  destruct copy_source as [source |];
    (destruct (created answers) as [create_reply | e1];
     [destruct (uploaded answers) as [[] | e2];
      [destruct (completed answers) as [complete_result | e3] |] |]);
    cbv zeta;
    try destruct (truthy (reply_obj_id create_reply));
    try destruct (truthy params_obj_id);
    try destruct (aborted answers);
    solve_steps.
Qed.

(** X8.  [upload_multipart] aborts nothing: it resolves or rejects as the
    completion does once the creation and the data stage have succeeded,
    and otherwise rejects with the error of the first of the two that
    failed; the completion is called only then, for the multipart id of
    the reply to the creation. *)
Theorem upload_multipart_rethrows {R : Type} copy_source (answers : UploadAnswers R) :
  let '(steps, result) := upload_multipart copy_source answers in
  result = match created answers, uploaded answers with
           | Throw err, _ => Throw err
           | Return _, Throw err => Throw err
           | Return _, Return _ => completed answers
           end /\
  (forall obj_id, abort_object_upload obj_id ∉ steps) /\
  (forall multipart_id, complete_multipart multipart_id ∈ steps ->
     exists multipart_reply,
       created answers = Return multipart_reply /\
       multipart_id = reply_multipart_id multipart_reply /\
       uploaded answers = Return tt).
Proof.
  unfold upload_multipart.
  destruct copy_source as [source |];
    (destruct (created answers) as [multipart_reply | e1];
     [destruct (uploaded answers) as [[] | e2] |]);
    cbv zeta; solve_steps.
Qed.

Example upload_object_aborts_the_created_object :
  let answers :=
    {| created := Return {| reply_obj_id := JStr "obj1"; reply_tier_id := JStr "t";
                            reply_bucket_id := JStr "b"; reply_multipart_id := JUndefined |};
       uploaded := Throw (RpcError "OBJECT_IO_STREAM_ITEM_TIMEOUT" "");
       completed := Return tt;
       aborted := Throw (RpcError "NO_SUCH_UPLOAD" "") |} in
  upload_object JUndefined None answers
    = ([create_object_upload; upload_stream; abort_object_upload (JStr "obj1")],
       Throw (RpcError "OBJECT_IO_STREAM_ITEM_TIMEOUT" "")).
Proof. reflexivity. Qed.

(** **** Copies *)

(** X9.  A copy inside one bucket and of the whole object reads no data: it
    reads the mappings of the source and finalizes its parts, in their
    order and with their offsets, sequence numbers and chunk ids, each
    under the multipart id of the upload, and [complete_params] gets the
    size and the etag of the source and the number of its parts.  A copy
    from another bucket or of ranges reads no mappings and finalizes
    nothing: it streams the source, and of the ranges only the first. *)
Theorem upload_copy_of_mappings {R : Type} params_obj_id params_bucket multipart_id
    copy_source (streamed finalized : Completion R) mappings :
  let '(steps, written, result) :=
    _upload_copy params_obj_id params_bucket multipart_id copy_source
                 streamed mappings finalized in
  if strict_eq (source_bucket copy_source) params_bucket
     && match source_ranges copy_source with Some _ => false | None => true end
  then
    (forall source range, read_object_stream source range ∉ steps) /\
    (copy_upload_stream ∉ steps) /\
    match mappings with
    | Throw err => result = Throw err /\ written = None /\
                   forall obj_id parts, finalize_object_parts obj_id parts ∉ steps
    | Return (object_md, parts) =>
        result = finalized /\
        exists new_parts,
          steps = [read_object_mappings copy_source;
                   finalize_object_parts params_obj_id new_parts] /\
          map (fun p => (part_start p, part_end p, part_seq p, part_chunk_id p)) new_parts
            = map (fun p => (part_start (source_part p), part_end (source_part p),
                             part_seq (source_part p), part_chunk_id (source_part p)))
                  parts /\
          Forall (fun p => part_multipart_id p = multipart_id) new_parts /\
          exists copied,
            written = Some copied /\
            copied_size copied = md_size object_md /\
            copied_etag copied = md_etag object_md /\
            copied_num_parts copied = Z.of_nat (length new_parts)
    end
  else
    written = None /\
    (forall source, read_object_mappings source ∉ steps) /\
    (forall obj_id parts, finalize_object_parts obj_id parts ∉ steps) /\
    match source_ranges copy_source with
    | Some [] => steps = [] /\ exists err, result = Throw err
    | ranges =>
        result = streamed /\
        steps = [read_object_stream copy_source (head (default [] ranges));
                 copy_upload_stream]
    end.
Proof.
  unfold _upload_copy.
  destruct (strict_eq (source_bucket copy_source) params_bucket);
    destruct (source_ranges copy_source) as [[| range ranges] |]; simpl;
    try solve [solve_steps].
  destruct mappings as [[object_md parts] | err]; [| solve_steps].
  split; [solve_steps |]. split; [solve_steps |]. split; [reflexivity |].
  eexists. split; [reflexivity |].
  split; [rewrite map_map; reflexivity |].
  split; [apply Forall_forall; intros p Hp; apply list_elem_of_fmap in Hp;
          destruct Hp as (q & -> & _); reflexivity |].
  eexists. split; [reflexivity |]. simpl. rewrite length_map. auto.
Qed.

(** **** Errors of the stream semaphore and other errors *)

(** X10.  [_upload_stream] passes on what is not a timeout of the stream
    semaphore: a result as it is, and any other error as the same error
    object, with nothing reported and the instance unchanged. *)
Theorem upload_stream_passes_other_errors {A : Type} io now err (res : A) :
  err_code err <> Some timeout_error_code ->
  _upload_stream io now (Throw err) = (io, [], @Throw A err) /\
  _upload_stream io now (Return res) = (io, [], Return res).
Proof.
  intros Hcode. split; [| reflexivity].
  unfold _upload_stream, _handle_semaphore_errors.
  destruct (has_code err "OBJECT_IO_STREAM_ITEM_TIMEOUT") eqn:E; [| reflexivity].
  apply has_code_true in E. contradiction.
Qed.

Lemma upload_stream_passes_other_errors_witness :
  let io := example_io false in
  let err := new_Error "socket hang up" in
  err_code err <> Some timeout_error_code /\
  _upload_stream io 5 (Throw err) = (io, [], @Throw unit err).
Proof.
  intros io err.
  assert (H : err_code err <> Some timeout_error_code) by discriminate.
  split; [exact H |].
  apply (upload_stream_passes_other_errors io 5 err tt H).
Defined.

(** *** Reading through the cache *)

Lemma align_up_next offset align :
  0 < align -> align_up (offset + 1) align = align_down offset align + align.
Proof.
  intros Ha. unfold align_up, align_down.
  replace (offset + 1 + align - 1) with (offset + 1 * align) by lia.
  rewrite Z.div_add by lia. lia.
Qed.

Lemma last_cons_default {A : Type} (l : list A) : forall a d,
  List.last (a :: l) d = List.last l a.
Proof.
  induction l as [| x l IH]; intros a d; [reflexivity |].
  change (List.last (a :: x :: l) d) with (List.last (x :: l) d).
  rewrite (IH x d), (IH x a). reflexivity.
Qed.

Lemma chain_end_cons pos range ranges :
  chain_end pos (range :: ranges) = chain_end (snd range) ranges.
Proof. unfold chain_end. cbn [map]. apply last_cons_default. Qed.

Lemma submit_ranges_spec align slots : forall pos end_,
  0 < align -> pos <= end_ ->
  let ranges := submit_ranges align slots pos end_ in
  aligned_chain align pos ranges /\
  (length ranges <= slots)%nat /\
  pos <= chain_end pos ranges <= end_ /\
  (chain_end pos ranges = end_ \/ length ranges = slots).
Proof.
  induction slots as [| slots IH]; intros pos end_ Ha Hle; cbn [submit_ranges].
  - unfold chain_end. simpl. split; [exact I |]. split; [lia |]. split; [lia |].
    right. reflexivity.
  - destruct (Z.ltb_spec pos end_) as [Hlt | Hge].
    + cbv zeta. rewrite align_up_next by assumption.
      pose proof (align_down_bounds pos align Ha) as Hb.
      set (range_end := Z.min end_ (align_down pos align + align)).
      destruct (IH range_end end_ Ha ltac:(subst range_end; lia))
        as (Hchain & Hlen & Hend & Hfull).
      rewrite chain_end_cons. cbn [snd aligned_chain length].
      split; [repeat split; try assumption; subst range_end; lia |].
      split; [lia |]. split; [subst range_end; lia |].
      destruct Hfull as [Hfull | Hfull]; [left; exact Hfull | right; lia].
    + unfold chain_end. simpl. split; [exact I |]. split; [lia |]. split; [lia |].
      left. lia.
Qed.

(** X11.  For a range that is not empty, an alignment above zero and a
    concurrency of at least one: the ranges submitted to the cache follow
    one another from [start] on without gap or overlap, none is empty,
    each lies inside the aligned range of its first byte (the range one
    cache item covers), there are at most [IO_READ_RANGE_CONCURRENCY] of
    them, and they end at [end] unless the concurrency ran out first. *)
Theorem submitted_ranges_are_an_aligned_chain align slots start end_ :
  0 < align -> (0 < slots)%nat -> start < end_ ->
  let ranges := submit_ranges align slots start end_ in
  ranges <> [] /\
  aligned_chain align start ranges /\
  (length ranges <= slots)%nat /\
  start < chain_end start ranges <= end_ /\
  (chain_end start ranges = end_ \/ length ranges = slots).
Proof.
  intros Ha Hslots Hlt ranges.
  destruct (submit_ranges_spec align slots start end_ Ha ltac:(lia))
    as (Hchain & Hlen & Hend & Hfull).
  fold ranges in Hchain, Hlen, Hend, Hfull.
  assert (Hne : ranges <> []).
  { subst ranges. destruct slots as [| slots]; [lia |]. cbn [submit_ranges].
    destruct (Z.ltb_spec start end_); [discriminate | lia]. }
  split; [exact Hne |]. split; [exact Hchain |]. split; [exact Hlen |].
  split; [| exact Hfull].
  split; [| lia].
  destruct ranges as [| [s e] rest]; [contradiction |].
  rewrite chain_end_cons. cbn [snd].
  destruct Hchain as (-> & Hse & _ & Hrest).
  assert (Hmono : forall rs p, aligned_chain align p rs -> p <= chain_end p rs).
  { induction rs as [| [s' e'] rs IHrs]; intros p Hc; [unfold chain_end; simpl; lia |].
    rewrite chain_end_cons. cbn [snd]. destruct Hc as (-> & ? & _ & Hc).
    specialize (IHrs e' Hc). lia. }
  specialize (Hmono rest e Hrest). lia.
Qed.

Lemma submitted_ranges_are_an_aligned_chain_witness :
  0 < 8 /\ (0 < 2)%nat /\ 5 < 30 /\
  submit_ranges 8 2 5 30 = [(5, 8); (8, 16)] /\
  aligned_chain 8 5 (submit_ranges 8 2 5 30).
Proof.
  split; [lia |]. split; [lia |]. split; [lia |]. split; [reflexivity |].
  apply (submitted_ranges_are_an_aligned_chain 8 2 5 30); lia.
Defined.

Section ReadWithCacheFacts.

Variable IO_OBJECT_RANGE_ALIGN : Z.
Variable IO_READ_RANGE_CONCURRENCY : nat.
Context {Cache : Type}.
Variable cache_get : Cache -> ReadParams -> Cache * Completion (option Buffer).

#[local] Abbreviation get_ranges := (ObjectIO.get_ranges cache_get).
#[local] Abbreviation read_object_with_cache :=
  (ObjectIO.read_object_with_cache IO_OBJECT_RANGE_ALIGN IO_READ_RANGE_CONCURRENCY
     cache_get).

Lemma get_ranges_length params ranges : forall cache,
  length (snd (get_ranges cache params ranges)) = length ranges.
Proof.
  induction ranges as [| [s e] rest IH]; intros cache; [reflexivity |].
  cbn [ObjectIO.get_ranges].
  destruct (cache_get cache (with_range params s e)) as [cache1 promise].
  specialize (IH cache1). destruct (get_ranges cache1 params rest) as [cache2 promises].
  simpl in *. f_equal. exact IH.
Qed.

Lemma Promise_all_length {A : Type} (promises : list (Completion A)) values :
  Promise_all promises = Return values -> length values = length promises.
Proof.
  revert values. induction promises as [| [a | e] rest IH]; intros values H; simpl in H.
  - injection H as <-. reflexivity.
  - destruct (Promise_all rest) as [vs | e]; [| discriminate].
    injection H as <-. simpl. f_equal. apply IH. reflexivity.
  - discriminate.
Qed.

Lemma omap_has_bytes buffers :
  Forall (fun buffer : Buffer => buffer <> []) (omap has_bytes buffers) /\
  (length (omap has_bytes buffers) <= length buffers)%nat.
Proof.
  induction buffers as [| b rest [IH1 IH2]]; [split; [constructor | simpl; lia] |].
  destruct b as [[| x buffer] |]; simpl;
    change (list_omap _ _ has_bytes rest) with (omap has_bytes rest).
  - split; [exact IH1 | lia].
  - split; [constructor; [discriminate | exact IH1] | simpl; lia].
  - split; [exact IH1 | lia].
Qed.

(** X12.  [read_object_with_cache] rejects a request without an object id and
    returns null for an empty range, in both cases without a call to the
    cache; otherwise it rejects as the first cache call that rejects, or
    returns buffers none of which is empty, at most one for each of the
    [IO_READ_RANGE_CONCURRENCY] ranges it may submit. *)
Theorem read_object_with_cache_returns_bytes cache params :
  let '(cache', result) := read_object_with_cache cache params in
  (read_obj_id params = ""%string ->
     cache' = cache /\ exists err, result = Throw err) /\
  (read_obj_id params <> ""%string -> read_end params <= read_start params ->
     cache' = cache /\ result = Return None) /\
  (forall buffers, result = Return (Some buffers) ->
     read_obj_id params <> ""%string /\
     read_start params < read_end params /\
     Forall (fun buffer : Buffer => buffer <> []) buffers /\
     (length buffers <= IO_READ_RANGE_CONCURRENCY)%nat).
Proof.
  unfold ObjectIO.read_object_with_cache, string_eqb.
  destruct (String.string_dec (read_obj_id params) "") as [Hid | Hid].
  { split; [intros _; split; [reflexivity | eexists; reflexivity] |].
    split; [intros Hn; contradiction | intros buffers H; discriminate]. }
  destruct (Z.leb_spec (read_end params) (read_start params)) as [Hempty | Hrange].
  { split; [intros; contradiction |]. split; [auto |]. intros buffers H. discriminate. }
  set (ranges := submit_ranges IO_OBJECT_RANGE_ALIGN IO_READ_RANGE_CONCURRENCY
                               (read_start params) (read_end params)).
  pose proof (get_ranges_length params ranges cache) as Hlen.
  destruct (get_ranges cache params ranges) as [cache' promises]. simpl in Hlen.
  destruct (Promise_all promises) as [values | e] eqn:Hall.
  - split; [intros; contradiction |]. split; [intros; lia |].
    intros buffers [= <-]. split; [exact Hid |]. split; [exact Hrange |].
    destruct (omap_has_bytes values) as [Hne Hle].
    split; [exact Hne |].
    apply Promise_all_length in Hall.
    assert (Hslots : (length ranges <= IO_READ_RANGE_CONCURRENCY)%nat).
    { subst ranges. clear. generalize (read_start params).
      induction IO_READ_RANGE_CONCURRENCY as [| n IH]; intros pos; simpl; [lia |].
      destruct (pos <? read_end params); simpl; [| lia].
      specialize (IH (Z.min (read_end params)
                        (align_up (pos + 1) IO_OBJECT_RANGE_ALIGN))). lia. }
    lia.
  - split; [intros; contradiction |]. split; [intros; lia |].
    intros buffers H. discriminate.
Qed.

End ReadWithCacheFacts.

(** *** The readable stream *)

Lemma pushed_app a b : pushed (a ++ b) = pushed a ++ pushed b.
Proof. apply omap_app. Qed.

Lemma bytes_app a b : bytes (a ++ b) = bytes a + bytes b.
Proof. unfold bytes. rewrite concat_app, length_app. lia. Qed.

Lemma bytes_cons buffer buffers :
  bytes (buffer :: buffers) = Z.of_nat (length buffer) + bytes buffers.
Proof. unfold bytes. simpl. rewrite length_app. lia. Qed.

Lemma reads_follow_app end_ a : forall offset b,
  reads_follow end_ offset (a ++ b) <->
  reads_follow end_ offset a /\ reads_follow end_ (offset + bytes (pushed a)) b.
Proof.
  induction a as [| ev a IH]; intros offset b.
  - simpl. change (bytes []) with 0. rewrite Z.add_0_r. tauto.
  - destruct ev as [[buffer |] | err | s e | s e | p]; cbn [app reads_follow].
    + change (pushed (reader_push (Some buffer) :: a)) with (buffer :: pushed a).
      rewrite IH, bytes_cons.
      replace (offset + Z.of_nat (length buffer) + bytes (pushed a))
        with (offset + (Z.of_nat (length buffer) + bytes (pushed a))) by lia.
      tauto.
    + change (pushed (reader_push None :: a)) with (pushed a). apply IH.
    + change (pushed (reader_emit_error err :: a)) with (pushed a). apply IH.
    + change (pushed (read_range s e :: a)) with (pushed a). rewrite IH. tauto.
    + change (pushed (prefetch_range s e :: a)) with (pushed a). apply IH.
    + change (pushed (report_problem p :: a)) with (pushed a). apply IH.
Qed.

Lemma pushed_reports reports : pushed (map report_problem reports) = [].
Proof. induction reports; [reflexivity | assumption]. Qed.

Lemma pushed_emitted errors : pushed (map reader_emit_error errors) = [].
Proof. induction errors; [reflexivity | assumption]. Qed.

Lemma reads_follow_no_read end_ offset events :
  ranges_read events = [] -> reads_follow end_ offset events.
Proof.
  revert offset. induction events as [| ev events IH]; intros offset H; [exact I |].
  destruct ev as [[buffer |] | err | s e | s e | p]; simpl in *;
    try discriminate; apply IH; assumption.
Qed.

Lemma ranges_read_app a b : ranges_read (a ++ b) = ranges_read a ++ ranges_read b.
Proof. apply omap_app. Qed.

Lemma ranges_read_reports reports : ranges_read (map report_problem reports) = [].
Proof. induction reports; [reflexivity | assumption]. Qed.

Lemma ranges_read_emitted errors : ranges_read (map reader_emit_error errors) = [].
Proof. induction errors; [reflexivity | assumption]. Qed.

(** What the prefetch adds to a pull: no push, no error on the reader, no
    read of the reader's own. *)
Lemma prefetch_events cap params io pull :
  let '(io', prefetch) :=
    match wants_prefetch cap params (waiting_time pull) with
    | Some (start, end_) =>
        match prefetch_answer pull with
        | Return _ => (io, [prefetch_range start end_])
        | Throw err =>
            let '(io, reports, _) :=
              _handle_semaphore_errors io (prefetch_time pull) err in
            (io, prefetch_range start end_ :: map report_problem reports)
        end
    | None => (io, [])
    end in
  pushes prefetch = [] /\ errors_emitted prefetch = [] /\
  ranges_read prefetch = [] /\ pushed prefetch = [].
Proof.
  destruct (wants_prefetch cap params (waiting_time pull)) as [[s e] |]; [| auto].
  destruct (prefetch_answer pull) as [r | err]; [auto |].
  destruct (_handle_semaphore_errors io (prefetch_time pull) err) as [[io' reports] r].
  assert (H : forall l : list EndpointProblem,
            pushes (map report_problem l) = [] /\
            errors_emitted (map report_problem l) = [] /\
            ranges_read (map report_problem l) = [] /\
            pushed (map report_problem l) = []).
  { induction l; [auto | exact IHl]. }
  apply (H reports).
Qed.

(** One pull: what happens to the position, the pending buffers and the
    buffers pushed. *)
Lemma read_step cap params io reader pull :
  let '(io', reader', events) := _read cap params io reader pull in
  reader_end reader' = reader_end reader /\
  reader_closed reader' = reader_closed reader /\
  reader_pos reader' - bytes (reader_pending reader')
    = reader_pos reader - bytes (reader_pending reader) + bytes (pushed events) /\
  reads_follow (reader_end reader)
               (reader_pos reader - bytes (reader_pending reader)) events.
Proof.
  unfold _read.
  destruct (reader_closed reader) eqn:Hclosed.
  { simpl. change (bytes []) with 0. repeat split; try assumption; lia. }
  destruct (reader_pending reader) as [| buffer pending] eqn:Hpending.
  2:{ cbn [reader_end reader_closed reader_pos reader_pending reads_follow].
      change (pushed [reader_push (Some buffer)]) with [buffer].
      rewrite !bytes_cons. change (bytes []) with 0.
      repeat split; try assumption; lia. }
  pose proof (prefetch_events cap params) as Hpre.
  change (bytes []) with 0. rewrite Z.sub_0_r.
  assert (Hend : match reader_end reader with
                 | Some e =>
                     match reader_end reader with
                     | Some end_ => Z.min end_ (reader_pos reader + requested_size pull)
                     | None => reader_pos reader + requested_size pull
                     end <= e
                 | None => True
                 end) by (destruct (reader_end reader); [lia | exact I]).
  destruct (read_answer pull) as [buffers | err].
  - destruct (default [] buffers) as [| first rest].
    + specialize (Hpre io pull).
      destruct (match wants_prefetch cap params (waiting_time pull) with
                | Some _ => _ | None => _ end) as [io' prefetch].
      destruct Hpre as (_ & _ & Hr & Hp).
      cbn [reader_end reader_closed reader_pos reader_pending app reads_follow].
      rewrite Hpending.
      change (pushed (read_range ?s ?e :: reader_push None :: prefetch))
        with (pushed prefetch).
      rewrite Hp. change (bytes []) with 0.
      repeat split; try assumption; try lia.
      apply reads_follow_no_read, Hr.
    + specialize (Hpre io pull).
      destruct (match wants_prefetch cap params (waiting_time pull) with
                | Some _ => _ | None => _ end) as [io' prefetch].
      destruct Hpre as (_ & _ & Hr & Hp).
      cbn [reader_end reader_closed reader_pos reader_pending app reads_follow].
      change (pushed (read_range ?s ?e :: reader_push (Some first) :: prefetch))
        with (first :: pushed prefetch).
      rewrite Hp, !bytes_cons. change (bytes []) with 0.
      repeat split; try assumption; try lia.
      apply reads_follow_no_read, Hr.
  - destruct (read_stream_on_error io (read_time pull) err)
      as [[[io1 reports] emitted] r].
    specialize (Hpre io1 pull).
    destruct (match wants_prefetch cap params (waiting_time pull) with
              | Some _ => _ | None => _ end) as [io' prefetch].
    destruct Hpre as (_ & _ & Hr & Hp).
    cbn [reader_end reader_closed reader_pos reader_pending reads_follow].
    rewrite Hpending.
    change (pushed (read_range ?s ?e :: ?l)) with (pushed l).
    rewrite !pushed_app, pushed_reports, pushed_emitted, Hp.
    change (bytes []) with 0.
    repeat split; try assumption; try lia.
    apply reads_follow_no_read.
    rewrite !ranges_read_app, ranges_read_reports, ranges_read_emitted. exact Hr.
Qed.

Lemma pulls_spec cap params run : forall io reader,
  let '(io', reader', events) := pulls cap params io reader run in
  reader_end reader' = reader_end reader /\
  reader_closed reader' = reader_closed reader /\
  reader_pos reader' - bytes (reader_pending reader')
    = reader_pos reader - bytes (reader_pending reader) + bytes (pushed events) /\
  reads_follow (reader_end reader)
               (reader_pos reader - bytes (reader_pending reader)) events.
Proof.
  induction run as [| pull rest IH]; intros io reader.
  - simpl. change (bytes []) with 0. repeat split; lia.
  - cbn [pulls].
    pose proof (read_step cap params io reader pull) as Hstep.
    destruct (_read cap params io reader pull) as [[io1 reader1] events1].
    specialize (IH io1 reader1).
    destruct (pulls cap params io1 reader1 rest) as [[io2 reader2] events2].
    destruct Hstep as (E1 & C1 & P1 & F1). destruct IH as (E2 & C2 & P2 & F2).
    rewrite pushed_app, bytes_app.
    split; [congruence |]. split; [congruence |]. split; [lia |].
    apply reads_follow_app. split; [exact F1 |].
    rewrite E1 in F2.
    replace (reader_pos reader - bytes (reader_pending reader) + bytes (pushed events1))
      with (reader_pos reader1 - bytes (reader_pending reader1)) by lia.
    exact F2.
Qed.

(** X13.  Over any run of pulls on a new reader, whatever the reads answer: the
    position of the reader is its first position plus the bytes pushed so
    far plus the bytes still pending; every range read starts right after
    the last byte pushed, and ends at or before the end of the reader when
    one is given. *)
Theorem reader_reads_follow_pushes cap params io start end_ run :
  let '(io', reader, events) :=
    pulls cap params io (new_ObjectReadable start end_) run in
  reader_pos reader
    = default 0 start + bytes (pushed events) + bytes (reader_pending reader) /\
  reads_follow end_ (default 0 start) events.
Proof.
  pose proof (pulls_spec cap params run io (new_ObjectReadable start end_)) as H.
  destruct (pulls cap params io (new_ObjectReadable start end_) run)
    as [[io' reader] events].
  destruct H as (_ & _ & Hpos & Hreads). simpl in Hpos, Hreads.
  change (bytes []) with 0 in *. rewrite Z.sub_0_r in *.
  split; [lia | exact Hreads].
Qed.

(** X14.  Once a reader is closed, every pull pushes the end of the stream and
    does nothing else: nothing is read, the pending buffers are not
    pushed, and the reader and the instance stay as they are. *)
Theorem closed_reader_only_ends cap params io reader run :
  pulls cap params io (close reader) run
    = (io, close reader, map (fun _ => reader_push None) run).
Proof.
  induction run as [| pull rest IH]; [reflexivity |].
  cbn [pulls]. unfold _read at 1. cbn [reader_closed close].
  rewrite IH. reflexivity.
Qed.

(** X15.  A pull makes exactly one push and emits nothing, unless its read
    fails.  A failed read pushes nothing; it emits ['error'] once, with
    the error of the read, unless that error is the timeout of the stream
    semaphore: then nothing is pushed and nothing is emitted. *)
Theorem pull_pushes_or_emits cap params io reader pull :
  let '(io', reader', events) := _read cap params io reader pull in
  if reader_closed reader
     || negb (length (reader_pending reader) =? 0)%nat
     || is_return (read_answer pull)
  then length (pushes events) = 1%nat /\ errors_emitted events = []
  else
    pushes events = [] /\
    exists err, read_answer pull = Throw err /\
      errors_emitted events = if has_code err timeout_error_code then [] else [err].
Proof.
  unfold _read.
  destruct (reader_closed reader); [simpl; auto |].
  destruct (reader_pending reader) as [| buffer pending]; [| simpl; auto].
  pose proof (prefetch_events cap params) as Hpre.
  assert (Happ : forall a b, pushes (a ++ b) = pushes a ++ pushes b)
    by (intros; apply omap_app).
  assert (Happ' : forall a b, errors_emitted (a ++ b) = errors_emitted a ++ errors_emitted b)
    by (intros; apply omap_app).
  destruct (read_answer pull) as [buffers | err]; cbn [orb negb length Nat.eqb is_return].
  - destruct (default [] buffers) as [| first rest];
      specialize (Hpre io pull);
      destruct (match wants_prefetch cap params (waiting_time pull) with
                | Some _ => _ | None => _ end) as [io' prefetch];
      destruct Hpre as (Hp & He & _ & _);
      match goal with |- context [read_range ?s ?e :: ?l ++ prefetch] =>
        change (pushes (read_range s e :: l ++ prefetch)) with (pushes (l ++ prefetch));
        change (errors_emitted (read_range s e :: l ++ prefetch))
          with (errors_emitted (l ++ prefetch))
      end;
      rewrite Happ, Happ', Hp, He; simpl; auto.
  - pose proof (read_stream_on_error_spec io (read_time pull) err) as Hspec.
    destruct (read_stream_on_error io (read_time pull) err)
      as [[[io1 reports] emitted] r].
    specialize (Hpre io1 pull).
    destruct (match wants_prefetch cap params (waiting_time pull) with
              | Some _ => _ | None => _ end) as [io' prefetch].
    destruct Hpre as (Hp & He & _ & _).
    match goal with |- context [read_range ?s ?e :: ?l ++ prefetch] =>
      change (pushes (read_range s e :: l ++ prefetch)) with (pushes (l ++ prefetch));
      change (errors_emitted (read_range s e :: l ++ prefetch))
        with (errors_emitted (l ++ prefetch))
    end.
    rewrite !Happ, !Happ', Hp, He, !app_nil_r.
    assert (H1 : pushes (map report_problem reports) = [])
      by (clear; induction reports; [reflexivity | assumption]).
    assert (H2 : pushes (map reader_emit_error emitted) = [])
      by (clear; induction emitted; [reflexivity | assumption]).
    assert (H3 : errors_emitted (map report_problem reports) = [])
      by (clear; induction reports; [reflexivity | assumption]).
    assert (H4 : errors_emitted (map reader_emit_error emitted) = emitted)
      by (clear; induction emitted as [| x l IH]; [reflexivity | simpl; f_equal; exact IH]).
    rewrite H1, H2, H3, H4. split; [reflexivity |].
    exists err. split; [reflexivity |].
    destruct Hspec as [_ Hspec].
    destruct (has_code err timeout_error_code); destruct Hspec as [-> _]; reflexivity.
Qed.

(** C6.  The timeout of the stream semaphore is raised to the caller of an
    upload, and lost by the reader of [read_object_stream].  When the
    error carries the timeout code of the stream semaphore,
    [_handle_semaphore_errors] throws an [RpcError] with that code and
    [_upload_stream] passes the throw on to its caller; a stress report is
    sent exactly when at least 3600000 ms have passed since the last one,
    so that reports are an hour apart at least.  On the read path the same
    throw, with the same report, leaves the rejection handler before
    [reader.emit('error', ...)] is reached: a pull of an open reader with
    nothing pending whose read ends with that error pushes nothing, emits
    no ['error'] and leaves the reader as it was, so the consumer of the
    stream is told of no failure. *)
Theorem stream_timeout_lost_on_read_path io now err :
  err_code err = Some timeout_error_code ->
  let '(io', reports, res) := _handle_semaphore_errors io now err in
  res = Throw (RpcError timeout_error_code "") /\
  (forall (A : Type),
     _upload_stream (A := A) io now (Throw err)
       = (io', reports, Throw (RpcError timeout_error_code ""))) /\
  (now - _last_io_bottleneck_report io < HOUR_IN_MILI ->
     reports = [] /\ io' = io) /\
  (HOUR_IN_MILI <= now - _last_io_bottleneck_report io ->
     reports = [stress_report io] /\ _last_io_bottleneck_report io' = now) /\
  (forall failures,
     hourly (_last_io_bottleneck_report io' :: snd (handle_all io' failures))) /\
  read_stream_on_error io now err
    = (io', reports, [], Throw (RpcError timeout_error_code "")) /\
  (forall cap params reader pull,
     reader_closed reader = false ->
     reader_pending reader = [] ->
     read_answer pull = Throw err ->
     read_time pull = now ->
     let '(_, reader', events) := _read cap params io reader pull in
     reader' = reader /\ pushes events = [] /\ errors_emitted events = []).
Proof.
  intros Hcode.
  pose proof (handle_semaphore_timeout io now err Hcode) as Hh.
  assert (Hread : read_stream_on_error io now err
                  = (let '(io', reports, _) := _handle_semaphore_errors io now err in
                     (io', reports, [], Throw (RpcError timeout_error_code "")))).
  { apply has_code_true in Hcode. unfold timeout_error_code in *.
    unfold read_stream_on_error, _handle_semaphore_errors. rewrite Hcode.
    destruct (HOUR_IN_MILI <=? now - _last_io_bottleneck_report io); reflexivity. }
  assert (Hpull : forall cap params reader pull,
            reader_closed reader = false ->
            reader_pending reader = [] ->
            read_answer pull = Throw err ->
            read_time pull = now ->
            let '(_, reader', events) := _read cap params io reader pull in
            reader' = reader /\ pushes events = [] /\ errors_emitted events = []).
  { intros cap params reader pull Hclosed Hpending Hanswer Htime.
    unfold _read. rewrite Hclosed, Hpending, Hanswer, Htime, Hread.
    destruct (_handle_semaphore_errors io now err) as [[io1 reports1] res1].
    pose proof (prefetch_events cap params io1 pull) as Hpre.
    destruct (match wants_prefetch cap params (waiting_time pull) with
              | Some _ => _ | None => _ end) as [io2 prefetch].
    destruct Hpre as (Hp & He & _ & _).
    split; [reflexivity |].
    change (map reader_emit_error []) with (@nil ReaderEvent). rewrite app_nil_r.
    match goal with |- context [read_range ?s ?e :: ?l ++ prefetch] =>
      change (pushes (read_range s e :: l ++ prefetch)) with (pushes (l ++ prefetch));
      change (errors_emitted (read_range s e :: l ++ prefetch))
        with (errors_emitted (l ++ prefetch))
    end.
    unfold pushes, errors_emitted in *. rewrite !omap_app, Hp, He, !app_nil_r.
    split; [clear | clear]; induction reports1; [reflexivity | assumption
                                                 | reflexivity | assumption]. }
  destruct (_handle_semaphore_errors io now err) as [[io' reports] res].
  destruct Hh as (H1 & H2 & H3 & H4 & H5).
  split; [exact H1 |]. split; [exact H2 |]. split; [exact H3 |].
  split; [exact H4 |]. split; [exact H5 |]. split; [exact Hread | exact Hpull].
Qed.

Lemma stream_timeout_lost_on_read_path_witness :
  let io := {| _last_io_bottleneck_report := 0; _verification_mode := false;
               location_node_id := JStr "node"; location_host_id := JStr "host" |} in
  let err := {| err_code := Some timeout_error_code; err_rpc_code := None;
                err_message := "Semaphore Timeout" |} in
  let params := {| stream_start := None; stream_object_md := None |} in
  let pull := {| requested_size := 16; read_answer := Throw err;
                 read_time := 3600000; waiting_time := 0;
                 prefetch_answer := Return None; prefetch_time := 0 |} in
  err_code err = Some timeout_error_code /\
  _upload_stream (A := unit) io 3600000 (Throw err)
    = ({| _last_io_bottleneck_report := 3600000; _verification_mode := false;
          location_node_id := JStr "node"; location_host_id := JStr "host" |},
       [stress_report io], Throw (RpcError timeout_error_code "")) /\
  let '(_, reader', events) := _read 0 params io (new_ObjectReadable None None) pull in
  reader' = new_ObjectReadable None None /\
  pushes events = [] /\ errors_emitted events = [] /\
  events = [read_range 0 16; report_problem (stress_report io)].
Proof.
  intros io err params pull. split; [reflexivity |].
  pose proof (stream_timeout_lost_on_read_path io 3600000 err eq_refl) as H.
  destruct (_handle_semaphore_errors io 3600000 err) as [[io' reports] res] eqn:E.
  destruct H as (_ & Hup & _ & _ & _ & _ & Hpull).
  injection E as <- <- _.
  split; [exact (Hup unit) |].
  specialize (Hpull 0 params (new_ObjectReadable None None) pull
                    eq_refl eq_refl eq_refl eq_refl).
  destruct (_read 0 params io (new_ObjectReadable None None) pull)
    as [[io2 reader'] events] eqn:E2.
  destruct Hpull as (Hr & Hp & He).
  split; [exact Hr |]. split; [exact Hp |]. split; [exact He |].
  injection E2 as _ _ <-. reflexivity.
Defined.

Example timed_out_pull_is_silent :
  let io := example_io false in
  let pull := {| requested_size := 16;
                 read_answer := Throw {| err_code := Some timeout_error_code;
                                         err_rpc_code := None;
                                         err_message := "Semaphore Timeout" |};
                 read_time := 7200000; waiting_time := 0;
                 prefetch_answer := Return None; prefetch_time := 0 |} in
  snd (_read 0 {| stream_start := None; stream_object_md := None |} io
             (new_ObjectReadable None None) pull)
    = [read_range 0 16; report_problem (stress_report io)].
Proof. reflexivity. Qed.

(** *** The bytes a range assembly returns *)

Lemma object_range_length object start end_ :
  0 <= start -> start <= end_ <= Z.of_nat (length object) ->
  Z.of_nat (length (object_range object start end_)) = end_ - start.
Proof.
  intros Hs He. unfold object_range. rewrite length_firstn, length_skipn. lia.
Qed.

Lemma object_range_empty object pos : object_range object pos pos = [].
Proof. unfold object_range. rewrite Z.sub_diag. reflexivity. Qed.

(** A range of a range is a range. *)
Lemma object_range_sub object s e a b :
  0 <= s -> s <= a -> a <= b -> b <= e ->
  object_range (object_range object s e) (a - s) (b - s) = object_range object a b.
Proof.
  intros Hs Ha Hb He. unfold object_range.
  rewrite List.skipn_firstn_comm, List.firstn_firstn, List.skipn_skipn.
  f_equal; [lia |]. f_equal. lia.
Qed.

Lemma object_range_split object a m b :
  0 <= a -> a <= m -> m <= b ->
  object_range object a m ++ object_range object m b = object_range object a b.
Proof.
  intros Ha Hm Hb. unfold object_range.
  replace (skipn (Z.to_nat m) object)
    with (skipn (Z.to_nat (m - a)) (skipn (Z.to_nat a) object))
    by (rewrite List.skipn_skipn; f_equal; lia).
  change (@firstn) with (@take). change (@skipn) with (@drop).
  rewrite take_take_drop. f_equal. lia.
Qed.

(** The slice taken of a part that holds its bytes of the object is the
    bytes of the object in the range. *)
Lemma part_slice_object object part data a b :
  rpart_chunk_data part = Some data ->
  0 <= rpart_start part ->
  0 <= default 0 (rpart_chunk_offset part) ->
  object_range data (default 0 (rpart_chunk_offset part))
               (default 0 (rpart_chunk_offset part) + (rpart_end part - rpart_start part))
    = object_range object (rpart_start part) (rpart_end part) ->
  rpart_start part <= a -> a <= b -> b <= rpart_end part ->
  part_slice part data a b = object_range object a b.
Proof.
  intros Hdata Hps Hoff Hheld Ha Hb He.
  set (off := default 0 (rpart_chunk_offset part)) in *.
  assert (Hslice : part_slice part data a b
                   = object_range data (a - rpart_start part + off)
                                  (b - rpart_start part + off)).
  { unfold part_slice, chunk_offset_set. subst off.
    destruct (rpart_chunk_offset part) as [o |]; simpl in *;
      [destruct (Z.eqb_spec o 0) as [-> | Hne]; simpl |];
      rewrite js_slice_nonneg by lia; unfold object_range;
      repeat (f_equal; try lia). }
  rewrite Hslice.
  rewrite <- (object_range_sub object (rpart_start part) (rpart_end part) a b) by lia.
  rewrite <- Hheld.
  rewrite <- (object_range_sub data off (off + (rpart_end part - rpart_start part))
                (a - rpart_start part + off) (b - rpart_start part + off)) by lia.
  f_equal; lia.
Qed.

Lemma combine_walk_done parts end_ : forall buffers,
  combine_walk parts end_ end_ buffers = Return (end_, buffers).
Proof.
  induction parts as [| part rest IH]; intros buffers; [reflexivity |].
  cbn [combine_walk]. rewrite intersection_overlap.
  destruct (Z.ltb_spec (Z.max (rpart_start part) end_) (Z.min (rpart_end part) end_));
    [lia | apply IH].
Qed.

Lemma parts_end_cons from part parts :
  parts_end from (part :: parts) = parts_end (rpart_end part) parts.
Proof. unfold parts_end. cbn [map]. apply last_cons_default. Qed.

Lemma combine_walk_object object parts end_ : forall from pos buffers,
  parts_hold object from parts ->
  0 <= from -> from <= pos -> pos <= end_ -> end_ <= parts_end from parts ->
  exists slices,
    combine_walk parts pos end_ buffers = Return (end_, buffers ++ slices) /\
    concat slices = object_range object pos end_.
Proof.
  induction parts as [| part rest IH]; intros from pos buffers Hhold H0 Hfrom Hpos Hend.
  - unfold parts_end in Hend. simpl in Hend. assert (pos = end_) by lia. subst pos.
    exists []. rewrite app_nil_r, object_range_empty. split; reflexivity.
  - destruct Hhold as (Hstart & [Hlt Hlen] & (data & Hdata & Hoff & Hheld) & Hrest).
    rewrite parts_end_cons in Hend.
    cbn [combine_walk]. rewrite intersection_overlap.
    destruct (Z.ltb_spec (Z.max (rpart_start part) pos) (Z.min (rpart_end part) end_))
      as [Hin | Hout].
    + rewrite Hdata.
      rewrite (Z.max_r (rpart_start part) pos) in * by lia.
      set (hi := Z.min (rpart_end part) end_) in *.
      assert (Hs : part_slice part data pos hi = object_range object pos hi).
      { apply part_slice_object; try assumption; subst hi; try lia.
        rewrite Hstart. exact Hheld. }
      rewrite Hs.
      destruct (Z.eq_dec hi end_) as [Heq | Hne].
      * rewrite Heq. rewrite combine_walk_done.
        exists [object_range object pos end_]. split; [reflexivity |].
        simpl. apply app_nil_r.
      * assert (Hhi : hi = rpart_end part) by (subst hi; lia).
        destruct (IH (rpart_end part) hi (buffers ++ [object_range object pos hi]) Hrest)
          as (slices & Hwalk & Hcat); try lia.
        exists (object_range object pos hi :: slices).
        rewrite Hwalk, <- app_assoc. split; [reflexivity |].
        simpl. rewrite Hcat. apply object_range_split; lia.
    + destruct (Z.eq_dec pos end_) as [-> | Hne].
      * rewrite combine_walk_done. exists [].
        rewrite app_nil_r, object_range_empty. split; reflexivity.
      * apply (IH (rpart_end part)); try assumption; lia.
Qed.

Lemma parts_end_inside object parts : forall from,
  parts_hold object from parts -> from <= Z.of_nat (length object) ->
  from <= parts_end from parts <= Z.of_nat (length object).
Proof.
  induction parts as [| part rest IH]; intros from Hhold Hfrom.
  - unfold parts_end. simpl. lia.
  - destruct Hhold as (_ & [Hlt Hlen] & _ & Hrest).
    rewrite parts_end_cons. specialize (IH (rpart_end part) Hrest Hlen). lia.
Qed.

Lemma combine_object_bytes object from parts start end_ :
  parts_hold object from parts ->
  0 <= from <= start ->
  start < end_ <= parts_end from parts ->
  combine_parts_buffers_in_range parts start end_
    = Return (Some (object_range object start end_)).
Proof.
  intros Hhold [H0 Hfrom] [Hlt Hend].
  unfold combine_parts_buffers_in_range.
  destruct (Z.leb_spec end_ start); [lia |].
  destruct parts as [| part rest]; [unfold parts_end in Hend; simpl in Hend; lia |].
  destruct (combine_walk_object object (part :: rest) end_ from start [] Hhold)
    as (slices & Hwalk & Hcat); try lia.
  rewrite Hwalk. rewrite Z.eqb_refl. cbn [negb app].
  unfold buffer_join. rewrite Hcat.
  assert (Hin : from <= Z.of_nat (length object)).
  { destruct Hhold as (_ & [? ?] & _). lia. }
  pose proof (parts_end_inside object (part :: rest) from Hhold Hin) as Hinside.
  rewrite object_range_length by lia.
  rewrite Z.eqb_refl. reflexivity.
Qed.

(** X16.  When the parts follow one another and the chunk of each holds its
    bytes of the object, the assembly of a range that the parts cover
    returns, and returns the bytes of the object in that range, wherever
    the range begins and ends inside the parts. *)
Theorem combine_returns_object_bytes object from parts start end_ :
  parts_hold object from parts ->
  0 <= from <= start ->
  start < end_ <= parts_end from parts ->
  combine_parts_buffers_in_range parts start end_
    = Return (Some (object_range object start end_)) /\
  Z.of_nat (length (object_range object start end_)) = end_ - start.
Proof.
  intros Hhold Hfrom Hend.
  split; [apply (combine_object_bytes object from); assumption |].
  assert (Hin : from <= Z.of_nat (length object)).
  { destruct parts as [| part rest];
      [unfold parts_end in Hend; simpl in Hend; lia |].
    destruct Hhold as (_ & [? ?] & _). lia. }
  pose proof (parts_end_inside object parts from Hhold Hin).
  apply object_range_length; lia.
Qed.

Lemma combine_returns_object_bytes_witness :
  let object := [x41; x42; x43; x44; x45; x46] in
  let parts :=
    [ {| rpart_start := 0; rpart_end := 4; rpart_chunk_offset := None;
         rpart_chunk_data := Some [x41; x42; x43; x44] |};
      {| rpart_start := 4; rpart_end := 6; rpart_chunk_offset := Some 1;
         rpart_chunk_data := Some [x00; x45; x46] |} ] in
  parts_hold object 0 parts /\
  0 <= 0 <= 1 /\
  1 < 5 <= parts_end 0 parts /\
  combine_parts_buffers_in_range parts 1 5 = Return (Some [x42; x43; x44; x45]).
Proof.
  intros object parts.
  assert (Hhold : parts_hold object 0 parts).
  { simpl. split; [reflexivity |]. split; [lia |].
    split; [eexists; split; [reflexivity |]; split; [lia | reflexivity] |].
    split; [reflexivity |]. split; [lia |].
    split; [eexists; split; [reflexivity |]; split; [lia | reflexivity] |].
    exact I. }
  assert (Hend : 1 < 5 <= parts_end 0 parts) by (unfold parts_end; simpl; lia).
  split; [exact Hhold |]. split; [lia |]. split; [exact Hend |].
  apply (combine_returns_object_bytes object 0 parts 1 5 Hhold); [lia | exact Hend].
Defined.

(** *** Reading a range of an object *)

Lemma combine_buffer_length parts start end_ buffer :
  combine_parts_buffers_in_range parts start end_ = Return (Some buffer) ->
  start < end_ /\ Z.of_nat (length buffer) = end_ - start.
Proof.
  unfold combine_parts_buffers_in_range.
  destruct (Z.leb_spec end_ start); [discriminate |].
  destruct parts as [| part rest]; [discriminate |].
  destruct (combine_walk (part :: rest) start end_ []) as [[pos buffers] | e];
    [| discriminate].
  destruct (negb (pos =? end_)); [discriminate |]. cbv zeta.
  destruct (Z.eqb_spec (Z.of_nat (length (buffer_join buffers))) (end_ - start));
    simpl; [| discriminate].
  intros [= <-]. split; assumption.
Qed.

Lemma combine_null parts start end_ :
  combine_parts_buffers_in_range parts start end_ = Return None <-> end_ <= start.
Proof.
  unfold combine_parts_buffers_in_range.
  destruct (Z.leb_spec end_ start); [tauto |].
  split; [| lia].
  destruct parts as [| part rest]; [discriminate |].
  destruct (combine_walk (part :: rest) start end_ []) as [[pos buffers] | e];
    [| discriminate].
  destruct (negb (pos =? end_)); [discriminate |]. cbv zeta.
  destruct (negb _); discriminate.
Qed.

Section ReadObjectFacts.

Context {Env : Type}.
Variable block_store_read : Env -> BlockMD -> Env * Completion Buffer.
Variable crypto_digest_b64 : string -> Buffer -> string.
Variable chunk_coder : list Frag -> Completion Buffer.
Variable frag_digest_type : string.

#[local] Abbreviation World := (@ObjectIO.World Env).
#[local] Abbreviation _read_block :=
  (ObjectIO._read_block block_store_read crypto_digest_b64).
#[local] Abbreviation verify_block :=
  (ObjectIO.verify_block block_store_read crypto_digest_b64 frag_digest_type).
#[local] Abbreviation _read_frag :=
  (ObjectIO._read_frag block_store_read crypto_digest_b64 frag_digest_type).
#[local] Abbreviation _read_frags :=
  (ObjectIO._read_frags block_store_read crypto_digest_b64 chunk_coder frag_digest_type).
#[local] Abbreviation _read_part :=
  (ObjectIO._read_part block_store_read crypto_digest_b64 chunk_coder frag_digest_type).
#[local] Abbreviation read_mapped_parts :=
  (ObjectIO.read_mapped_parts block_store_read crypto_digest_b64 chunk_coder
     frag_digest_type).
#[local] Abbreviation read_object :=
  (ObjectIO.read_object block_store_read crypto_digest_b64 chunk_coder frag_digest_type).

(** X17.  [read_object] rejects as the mappings call rejects, before any block
    is read, and as the first part that cannot be read.  Once every part
    is read it assembles the range from [start] to the smaller of [end]
    and the size of the object: the buffer is null exactly when that range
    is empty, as for a read at or beyond the end of the object, and
    otherwise has exactly the bytes of that range; and when the parts as
    read hold their bytes of the object and cover the range, it is the
    bytes of the object in the range. *)
Theorem read_object_clips_at_size io mappings start end_ env trace :
  let '(env', trace', result) := read_object io mappings start end_ env trace in
  match mappings with
  | Throw err => result = Throw err /\ env' = env /\ trace' = trace
  | Return (object_md, parts) =>
      let '(env1, trace1, parts1, r) := read_mapped_parts io parts env trace in
      env' = env1 /\ trace' = trace1 /\
      match r with
      | Throw err => result = Throw err
      | Return _ =>
          let last := Z.min (object_size object_md) end_ in
          (last <= start ->
             result = Return {| data_object_md := object_md; data_buffer := None |}) /\
          (forall data, result = Return data ->
             data_object_md data = object_md /\
             match data_buffer data with
             | None => last <= start
             | Some buffer => start < last /\ Z.of_nat (length buffer) = last - start
             end) /\
          (forall object from,
             parts_hold object from (map range_part parts1) ->
             0 <= from <= start ->
             start < last <= parts_end from (map range_part parts1) ->
             result = Return {| data_object_md := object_md;
                                data_buffer := Some (object_range object start last) |})
      end
  end.
Proof.
  unfold ObjectIO.read_object.
  destruct mappings as [[object_md parts] | err]; [| auto].
  destruct (read_mapped_parts io parts env trace) as [[[env1 trace1] parts1] r].
  destruct r as [[] | err]; [| auto].
  cbv zeta. set (last := Z.min (object_size object_md) end_).
  pose proof (combine_buffer_length (map range_part parts1) start last) as Hlen.
  pose proof (combine_null (map range_part parts1) start last) as Hnull.
  pose proof (combine_object_bytes) as Hbytes.
  destruct (combine_parts_buffers_in_range (map range_part parts1) start last)
    as [[buffer |] | e] eqn:Ecombine.
  - split; [reflexivity |]. split; [reflexivity |].
    destruct (Hlen buffer eq_refl) as [Hlt Hl].
    split; [intros; lia |]. split.
    + intros data [= <-]. split; [reflexivity |]. split; assumption.
    + intros object from Hhold Hfrom Hlast.
      rewrite (Hbytes object from _ start last) in Ecombine by assumption.
      congruence.
  - split; [reflexivity |]. split; [reflexivity |].
    assert (Hempty : last <= start) by (apply Hnull; reflexivity).
    split; [reflexivity |]. split.
    + intros data [= <-]. split; [reflexivity | exact Hempty].
    + intros object from Hhold Hfrom Hlast. lia.
  - split; [reflexivity |]. split; [reflexivity |].
    split; [| split].
    + intros Hempty. apply Hnull in Hempty. discriminate.
    + intros data H. discriminate.
    + intros object from Hhold Hfrom Hlast.
      rewrite (Hbytes object from _ start last) in Ecombine by assumption.
      discriminate.
Qed.

(** **** The replicas of a fragment in verification mode *)

Lemma blocks_read_app t1 t2 : blocks_read (t1 ++ t2) = blocks_read t1 ++ blocks_read t2.
Proof. apply omap_app. Qed.

Lemma errors_reported_app t1 t2 :
  errors_reported (t1 ++ t2) = errors_reported t1 ++ errors_reported t2.
Proof. apply omap_app. Qed.

Lemma frag_with_data_twice f a b : frag_with_data (frag_with_data f a) b = frag_with_data f b.
Proof. reflexivity. Qed.

(** In verification mode a block that is read has the digest its
    metadata gives. *)
Lemma read_block_verified io block (w : World) :
  _verification_mode io = true ->
  forall buffer, snd (_read_block io block w) = Return buffer ->
  crypto_digest_b64 (block_digest_type block) buffer = block_digest_b64 block.
Proof.
  intros Hmode buffer. unfold ObjectIO._read_block. rewrite Hmode.
  destruct (block_store_read (w_env w) block) as [env [data | err]]; simpl;
    [| discriminate].
  unfold string_eqb.
  destruct (String.string_dec (crypto_digest_b64 (block_digest_type block) data)
                              (block_digest_b64 block)) as [Heq | Hne]; simpl;
    [| discriminate].
  intros [= <-]. exact Heq.
Qed.

(** One replica: it is read once; it fails exactly when an error is
    reported; and the fragment keeps or gets data that has the digest of
    the fragment. *)
Lemma verify_block_spec io frag digest_b64 block (w : World) f :
  _verification_mode io = true ->
  w_frags w !! frag = Some f ->
  (forall d, frag_data f = Some d -> crypto_digest_b64 frag_digest_type d = digest_b64) ->
  let '(w', r) := verify_block io frag digest_b64 block w in
  reads_only w w' /\
  blocks_read (new_events w w') = [block_md block] /\
  (r = Return tt <-> errors_reported (new_events w w') = []) /\
  (exists f',
     w_frags w' !! frag = Some f' /\
     (f' = f \/ exists buffer, f' = frag_with_data f buffer) /\
     (forall d, frag_data f' = Some d ->
        crypto_digest_b64 frag_digest_type d = digest_b64) /\
     (r = Return tt ->
        block_digest_type (block_md block) = frag_digest_type /\
        block_digest_b64 (block_md block) = digest_b64 /\
        exists buffer, f' = frag_with_data f buffer)).
Proof.
  intros Hmode Hf HP.
  unfold ObjectIO.verify_block, catch_, then_.
  pose proof (read_block_spec block_store_read crypto_digest_b64 io (block_md block) w)
    as Hread.
  pose proof (read_block_verified io (block_md block) w Hmode) as Hdigest.
  destruct (_read_block io (block_md block) w) as [w1 [buffer | err]];
    destruct Hread as (R1 & E1 & F1); simpl in E1, Hdigest.
  - specialize (Hdigest buffer eq_refl).
    (* what a rejection after the read does *)
    assert (Hrej : forall e,
      let '(w', r) := _report_error_on_object_read (block_md block) e w1 in
      reads_only w w' /\
      blocks_read (new_events w w') = [block_md block] /\
      (r = Return tt <-> errors_reported (new_events w w') = []) /\
      (exists f',
         w_frags w' !! frag = Some f' /\
         (f' = f \/ exists buffer, f' = frag_with_data f buffer) /\
         (forall d, frag_data f' = Some d ->
            crypto_digest_b64 frag_digest_type d = digest_b64) /\
         (r = Return tt ->
            block_digest_type (block_md block) = frag_digest_type /\
            block_digest_b64 (block_md block) = digest_b64 /\
            exists buffer, f' = frag_with_data f buffer))).
    { intros e.
      pose proof (report_error_spec (block_md block) e w1) as Hrep.
      destruct (_report_error_on_object_read (block_md block) e w1) as [w2 r2].
      destruct Hrep as (-> & R2 & E2 & F2).
      split; [eapply reads_only_trans; eassumption |].
      rewrite (reads_only_events w w1 w2 R1 R2), E1, E2.
      split; [reflexivity |]. split; [split; discriminate |].
      exists f. rewrite F2, F1. split; [exact Hf |]. split; [left; reflexivity |].
      split; [exact HP | discriminate]. }
    unfold string_eqb.
    destruct (String.string_dec (block_digest_type (block_md block)) frag_digest_type)
      as [Htype | Htype]; [| apply Hrej].
    destruct (String.string_dec (block_digest_b64 (block_md block)) digest_b64)
      as [Hb64 | Hb64]; [| apply Hrej].
    cbn [negb orb].
    assert (Hbuf : crypto_digest_b64 frag_digest_type buffer = digest_b64)
      by (rewrite <- Htype, <- Hb64; exact Hdigest).
    rewrite F1, Hf.
    destruct f as [di pi li dg bl [data |]].
    + destruct (buffer_equals buffer data) eqn:Eeq.
      * apply buffer_equals_true in Eeq. subst data. unfold resolve.
        split; [exact R1 |]. rewrite E1.
        split; [reflexivity |]. split; [split; reflexivity |].
        eexists. rewrite F1. split; [exact Hf |]. split; [left; reflexivity |].
        split; [exact HP |]. intros _.
        split; [exact Htype |]. split; [exact Hb64 |].
        exists buffer. reflexivity.
      * unfold reject at 1. apply Hrej.
    + pose proof (set_frag_data_spec frag buffer w1) as Hset.
      destruct (set_frag_data frag buffer w1) as [w2 r2].
      destruct Hset as (-> & R2 & E2 & F2).
      split; [eapply reads_only_trans; eassumption |].
      rewrite (reads_only_events w w1 w2 R1 R2), E1, E2.
      split; [reflexivity |]. split; [split; reflexivity |].
      eexists. rewrite F2, F1, list_lookup_alter_eq, Hf.
      split; [reflexivity |].
      split; [right; exists buffer; reflexivity |].
      split; [intros d [= <-]; exact Hbuf |]. intros _.
      split; [exact Htype |]. split; [exact Hb64 |]. exists buffer. reflexivity.
  - pose proof (report_error_spec (block_md block) err w1) as Hrep.
    destruct (_report_error_on_object_read (block_md block) err w1) as [w2 r2].
    destruct Hrep as (-> & R2 & E2 & F2).
    split; [eapply reads_only_trans; eassumption |].
    rewrite (reads_only_events w w1 w2 R1 R2), E1, E2.
    split; [reflexivity |]. split; [split; discriminate |].
    exists f. rewrite F2, F1. split; [exact Hf |]. split; [left; reflexivity |].
    split; [exact HP | discriminate].
Qed.

Lemma verify_blocks_spec io frag digest_b64 blocks : forall (w : World) f,
  _verification_mode io = true ->
  w_frags w !! frag = Some f ->
  (forall d, frag_data f = Some d -> crypto_digest_b64 frag_digest_type d = digest_b64) ->
  let '(w', r) := P_map (verify_block io frag digest_b64) blocks w in
  reads_only w w' /\
  blocks_read (new_events w w') = map block_md blocks /\
  (r = Return tt <-> errors_reported (new_events w w') = []) /\
  (exists f',
     w_frags w' !! frag = Some f' /\
     (f' = f \/ exists buffer, f' = frag_with_data f buffer) /\
     (forall d, frag_data f' = Some d ->
        crypto_digest_b64 frag_digest_type d = digest_b64) /\
     (r = Return tt ->
        Forall (fun block =>
                  block_digest_type (block_md block) = frag_digest_type /\
                  block_digest_b64 (block_md block) = digest_b64) blocks /\
        (blocks <> [] -> exists buffer, f' = frag_with_data f buffer))).
Proof.
  induction blocks as [| block rest IH]; intros w f Hmode Hf HP.
  - simpl. destruct (trace_extends_refl w) as [_ E].
    split; [apply reads_only_refl |]. rewrite E.
    split; [reflexivity |]. split; [split; reflexivity |].
    exists f. split; [exact Hf |]. split; [left; reflexivity |]. split; [exact HP |].
    intros _. split; [constructor | intros H; contradiction].
  - cbn [P_map].
    pose proof (verify_block_spec io frag digest_b64 block w f Hmode Hf HP) as Hstep.
    destruct (verify_block io frag digest_b64 block w) as [w1 r1].
    destruct Hstep as (R1 & B1 & Hr1 & f1 & Hf1 & Hshape1 & HP1 & Hok1).
    specialize (IH w1 f1 Hmode Hf1 HP1).
    destruct (P_map (verify_block io frag digest_b64) rest w1) as [w2 r2].
    destruct IH as (R2 & B2 & Hr2 & f2 & Hf2 & Hshape2 & HP2 & Hok2).
    split; [eapply reads_only_trans; eassumption |].
    rewrite (reads_only_events w w1 w2 R1 R2), blocks_read_app, errors_reported_app,
      B1, B2.
    split; [reflexivity |].
    split.
    { destruct r1 as [[] | e1].
      - rewrite (proj1 Hr1 eq_refl). exact Hr2.
      - split; [discriminate |]. intros H. apply app_eq_nil in H. destruct H as [H _].
        apply Hr1 in H. discriminate. }
    exists f2. split; [exact Hf2 |].
    assert (Hshape : f2 = f \/ exists buffer, f2 = frag_with_data f buffer).
    { destruct Hshape2 as [-> | (b2 & ->)]; [exact Hshape1 |].
      right. destruct Hshape1 as [-> | (b1 & ->)]; exists b2; reflexivity. }
    split; [exact Hshape |]. split; [exact HP2 |].
    intros Hr. destruct r1 as [[] | e1]; [| discriminate].
    destruct (Hok1 eq_refl) as (Ht & Hb & buffer1 & ->).
    destruct (Hok2 Hr) as (Hall & Hdata).
    split; [constructor; [split; assumption | exact Hall] |].
    intros _. destruct Hshape2 as [-> | (b2 & ->)]; [exists buffer1 | exists b2];
      reflexivity.
Qed.

(** X18.  In verification mode, for a fragment of one of the three kinds that
    has blocks and no data yet: every replica is read, once and in the
    order of the blocks, whether or not an earlier one failed; the read of
    the fragment fails exactly when an error was reported for some
    replica; and when it succeeds, every replica carries the digest type
    of the chunk and the digest of the fragment, and the fragment, unless
    it has no block, has data whose digest is the digest of the fragment. *)
Theorem verification_reads_every_replica io (w : World) frag f blocks :
  _verification_mode io = true ->
  w_frags w !! frag = Some f ->
  frag_kind_ok f ->
  frag_data f = None ->
  frag_blocks f = Some blocks ->
  let '(w', r) := _read_frag io frag w in
  blocks_read (new_events w w') = map block_md blocks /\
  (r = Return tt <-> errors_reported (new_events w w') = []) /\
  (r = Return tt ->
     Forall (fun block =>
               block_digest_type (block_md block) = frag_digest_type /\
               block_digest_b64 (block_md block) = frag_digest_b64 f) blocks /\
     (blocks <> [] ->
        exists buffer,
          w_frags w' !! frag = Some (frag_with_data f buffer) /\
          crypto_digest_b64 frag_digest_type buffer = frag_digest_b64 f)).
Proof.
  intros Hmode Hf Hkind Hdata Hblocks.
  unfold ObjectIO._read_frag. rewrite Hf, Hdata, Hblocks, Hmode.
  destruct (get_frag_desc_ok f Hkind) as [d ->].
  pose proof (verify_blocks_spec io frag (frag_digest_b64 f) blocks w f Hmode Hf) as H.
  destruct (P_map (verify_block io frag (frag_digest_b64 f)) blocks w) as [w' r].
  destruct H as (_ & B & Hr & f' & Hf' & _ & HP & Hok);
    [intros d' Hd'; congruence |].
  split; [exact B |]. split; [exact Hr |].
  intros Hret. destruct (Hok Hret) as (Hall & Hbuf).
  split; [exact Hall |]. intros Hne. destruct (Hbuf Hne) as (buffer & ->).
  exists buffer. split; [exact Hf' |]. apply HP. reflexivity.
Qed.

(** **** The chunk a part is left with *)

Lemma read_frags_coder io frags (w : World) :
  w_chunk_coder (fst (_read_frags io frags w)) = Some "dec"%string.
Proof.
  unfold ObjectIO._read_frags, then_ at 1. cbv beta iota. unfold then_ at 1.
  set (w0 := {| w_env := w_env w; w_frags := w_frags w; w_chunk_data := None;
                w_chunk_frags := frags; w_chunk_coder := Some "dec"%string;
                w_trace := w_trace w |}).
  pose proof (P_map_reads_only (_read_frag io) frags
                (fun frag w => read_frag_reads_only block_store_read crypto_digest_b64
                                 frag_digest_type io frag w) w0) as Hro.
  destruct (P_map (_read_frag io) frags w0) as [w1 [[] | e]]; simpl in Hro;
    destruct Hro as (_ & _ & _ & _ & _ & C); exact C.
Qed.

(** Outside verification mode and on well-formed fragments, what
    [_read_frags] leaves in the chunk. *)
Lemma read_frags_outcome io frags (w : World) :
  _verification_mode io = false ->
  frags_well_formed w frags ->
  let '(w', r) := _read_frags io frags w in
  w_chunk_coder w' = Some "dec"%string /\
  w_chunk_frags w' = frags /\
  match r with
  | Return _ =>
      exists data, w_chunk_data w' = Some data /\
                   chunk_coder (frags_at w' frags) = Return data
  | Throw err =>
      w_chunk_data w' = None /\ chunk_coder (frags_at w' frags) = Throw err
  end.
Proof.
  intros Hmode Hwf.
  pose proof (read_frags_spec block_store_read crypto_digest_b64 chunk_coder
                frag_digest_type io frags w) as H.
  pose proof (read_frags_coder io frags w) as Hc.
  destruct (_read_frags io frags w) as [w' r]. simpl in Hc.
  destruct H as (_ & _ & [(_ & (e & ->) & Hmap) | (_ & Hfrags & Hr & Hdata)]).
  - rewrite (P_map_read_frag_resolves block_store_read crypto_digest_b64
               frag_digest_type) in Hmap by assumption. discriminate.
  - split; [exact Hc |]. split; [exact Hfrags |].
    destruct (chunk_coder (frags_at w' frags)) as [data | err]; subst r.
    + exists data. split; [exact Hdata | reflexivity].
    + split; [exact Hdata | reflexivity].
Qed.

(** X19.  Outside verification mode and on well-formed fragments, [_read_part]
    leaves the chunk marked for decoding and with the fragments it last
    decoded from, the data fragments or all of them; the chunk has data
    exactly when the read succeeded, and the data is what the decode
    kernel returned for those fragments; after a failure the chunk has no
    data, whatever it held before the read. *)
Theorem read_part_leaves_decoded_chunk io (w : World) :
  _verification_mode io = false ->
  frags_well_formed w (w_chunk_frags w) ->
  let all_frags := w_chunk_frags w in
  let data_frags := filter (fun frag => is_data_frag w frag = true) all_frags in
  let '(w', r) := _read_part io w in
  w_chunk_coder w' = Some "dec"%string /\
  (w_chunk_frags w' = data_frags \/ w_chunk_frags w' = all_frags) /\
  match r with
  | Return _ =>
      exists data, w_chunk_data w' = Some data /\
                   chunk_coder (frags_at w' (w_chunk_frags w')) = Return data
  | Throw err =>
      w_chunk_data w' = None /\
      chunk_coder (frags_at w' (w_chunk_frags w')) = Throw err
  end.
Proof.
  intros Hmode Hwf all_frags data_frags.
  assert (Hwfd : frags_well_formed w data_frags).
  { unfold frags_well_formed in *. apply Forall_forall. intros frag Hin.
    apply list_elem_of_filter in Hin. destruct Hin as [_ Hin].
    rewrite Forall_forall in Hwf. apply Hwf, Hin. }
  assert (Hpart : _read_part io w =
    catch_
      (then_
         (catch_ (_read_frags io data_frags)
            (fun err =>
               if _verification_mode io then reject err
               else if (length data_frags =? length all_frags)%nat then reject err
               else _read_frags io all_frags))
         (fun _ =>
            if _verification_mode io then
              fun w' =>
                then_ (_read_frags io (verify_parity_frags w' all_frags data_frags))
                      (fun _ => assert_same_data (w_chunk_data w')) w'
            else resolve tt))
      (fun err => reject err) w) by reflexivity.
  unfold catch_, then_ in Hpart. rewrite Hmode in Hpart.
  pose proof (read_frags_outcome io data_frags w Hmode Hwfd) as H1.
  pose proof (read_frags_spec block_store_read crypto_digest_b64 chunk_coder
                frag_digest_type io data_frags w) as Hspec.
  destruct (_read_frags io data_frags w) as [w1 r1].
  destruct Hspec as (_ & S1 & _).
  destruct H1 as (C1 & F1 & D1).
  destruct r1 as [[] | err].
  - rewrite Hpart. unfold resolve. rewrite F1.
    split; [exact C1 |]. split; [left; reflexivity | exact D1].
  - destruct (length data_frags =? length all_frags)%nat.
    + rewrite Hpart. unfold reject. rewrite F1.
      split; [exact C1 |]. split; [left; reflexivity | exact D1].
    + pose proof (read_frags_outcome io all_frags w1 Hmode
                    (frags_well_formed_shape w w1 all_frags S1 Hwf)) as H2.
      destruct (_read_frags io all_frags w1) as [w2 r2].
      rewrite Hpart. destruct H2 as (C2 & F2 & D2).
      destruct r2 as [[] | err2]; unfold resolve, reject; cbv beta iota zeta;
        rewrite F2; (split; [exact C2 |]; split; [right; reflexivity | exact D2]).
Qed.

End ReadObjectFacts.

Lemma verification_reads_every_replica_witness :
  let io := example_io true in
  let blocks := [example_block "b4" "n3" "PP"] in
  let f := {| frag_data_index := None; frag_parity_index := Some 0;
              frag_lrc_index := None; frag_digest_b64 := "PP";
              frag_blocks := Some blocks; frag_data := None |} in
  _verification_mode io = true /\
  w_frags example_world !! 2%nat = Some f /\
  frag_kind_ok f /\
  frag_data f = None /\
  frag_blocks f = Some blocks /\
  let '(w', r) := _read_frag example_agents example_digest "sha1" io 2 example_world in
  blocks_read (new_events example_world w') = map block_md blocks /\
  r = Return tt.
Proof.
  intros io blocks f.
  assert (Hk : frag_kind_ok f) by (right; left; reflexivity).
  split; [reflexivity |]. split; [reflexivity |]. split; [exact Hk |].
  split; [reflexivity |]. split; [reflexivity |].
  pose proof (verification_reads_every_replica example_agents example_digest "sha1"
                io example_world 2%nat f blocks eq_refl eq_refl Hk eq_refl eq_refl) as H.
  destruct (_read_frag example_agents example_digest "sha1" io 2 example_world)
    as [w' r] eqn:E.
  destruct H as (Hb & _ & _). split; [exact Hb |].
  vm_compute in E. injection E as _ <-. reflexivity.
Defined.

Lemma read_part_leaves_decoded_chunk_witness :
  let io := example_io false in
  _verification_mode io = false /\
  frags_well_formed example_world (w_chunk_frags example_world) /\
  let '(w', r) :=
    _read_part example_agents example_digest example_coder "sha1" io example_world in
  w_chunk_coder w' = Some "dec"%string /\
  r = Return tt /\
  w_chunk_frags w' = [0; 1; 2]%nat.
Proof.
  intros io.
  assert (Hwf : frags_well_formed example_world (w_chunk_frags example_world)).
  { repeat constructor; eexists; (split; [reflexivity |]);
      unfold frag_kind_ok; simpl; auto. }
  split; [reflexivity |]. split; [exact Hwf |].
  pose proof (read_part_leaves_decoded_chunk example_agents example_digest example_coder
                "sha1" io example_world eq_refl Hwf) as H.
  cbv zeta in H.
  destruct (_read_part example_agents example_digest example_coder "sha1" io
              example_world) as [w' r] eqn:E.
  destruct H as (Hc & _ & _). split; [exact Hc |].
  vm_compute in E. injection E as <- <-. split; reflexivity.
Defined.

(** *** The bytes the cache serves *)





(** *** The chunks of a batch *)

Lemma map_chunks_released chunks : forall params complete_params,
  let '(params', complete', mapped) := map_chunks params complete_params chunks in
  Forall (fun chunk =>
            ci_data (chunk_info chunk) = None /\
            ci_tier_id (chunk_info chunk) = params_tier_id params /\
            ci_bucket_id (chunk_info chunk) = params_bucket_id params /\
            length (ci_parts (chunk_info chunk)) = 1%nat /\
            Forall (fun frag => ufrag_blocks frag = []) (ci_frags (chunk_info chunk)))
         mapped /\
  map (fun chunk => map ufrag_digest_b64 (ci_frags (chunk_info chunk))) mapped
    = map (fun info => map ufrag_digest_b64 (ci_frags info)) chunks /\
  params_tier_id params' = params_tier_id params /\
  params_bucket_id params' = params_bucket_id params /\
  params_range params'
    = match chunks with
      | [] => params_range params
      | _ :: _ => option_map (fun r => (fst r, params_start params')) (params_range params)
      end.
Proof.
  induction chunks as [| info rest IH]; intros params complete_params.
  - simpl. split; [constructor |]. repeat split; reflexivity.
  - cbn [map_chunks].
    destruct (map_chunk_info params complete_params info)
      as [[params1 complete1] chunk] eqn:E1.
    specialize (IH params1 complete1).
    destruct (map_chunks params1 complete1 rest) as [[params' complete'] mapped] eqn:E2.
    destruct IH as (Hall & Hdig & Htier & Hbucket & Hrange).
    unfold map_chunk_info in E1. injection E1 as <- <- <-.
    cbn [params_tier_id params_bucket_id params_range params_start] in *.
    split.
    { constructor.
      - cbn [chunk_info ci_data ci_tier_id ci_bucket_id ci_parts ci_frags length].
        split; [reflexivity |]. split; [reflexivity |]. split; [reflexivity |].
        split; [reflexivity |].
        apply Forall_forall. intros frag Hin. apply list_elem_of_fmap in Hin.
        destruct Hin as (frag0 & -> & _). reflexivity.
      - exact Hall. }
    split.
    { cbn [map chunk_info ci_frags]. rewrite Hdig. f_equal.
      rewrite map_map. reflexivity. }
    split; [exact Htier |]. split; [exact Hbucket |].
    rewrite Hrange. destruct rest as [| c rest'].
    + simpl in E2. injection E2 as <- _ _. reflexivity.
    + destruct (params_range params) as [[a b] |]; reflexivity.
Qed.

(** X21.  Every chunk [_upload_chunks] hands to the map client has its data
    released, carries the tier and the bucket of the upload and exactly
    one part, and has fragments that keep their digests and have no block
    yet; [params.range] is left as the range of the object the batch
    covers; and the callback gets no error exactly when the map client
    returns without errors. *)
Theorem upload_chunks_releases_data mc_run params complete_params chunks :
  let '(params', complete', mapped, outcome) :=
    _upload_chunks mc_run params complete_params chunks in
  Forall (fun chunk =>
            ci_data (chunk_info chunk) = None /\
            ci_tier_id (chunk_info chunk) = params_tier_id params /\
            ci_bucket_id (chunk_info chunk) = params_bucket_id params /\
            length (ci_parts (chunk_info chunk)) = 1%nat /\
            Forall (fun frag => ufrag_blocks frag = []) (ci_frags (chunk_info chunk)))
         mapped /\
  map (fun chunk => map ufrag_digest_b64 (ci_frags (chunk_info chunk))) mapped
    = map (fun info => map ufrag_digest_b64 (ci_frags info)) chunks /\
  params_range params' = Some (params_start params, params_start params') /\
  (outcome = None <-> mc_run mapped = McDone false).
Proof.
  unfold _upload_chunks.
  set (params0 := {| params_obj_id := params_obj_id params;
                     params_range := Some (params_start params, params_start params) |}).
  pose proof (map_chunks_released chunks params0 complete_params) as H.
  pose proof (map_chunks_spec chunks params0 complete_params) as Hspec.
  destruct (map_chunks params0 complete_params chunks) as [[params' complete'] mapped].
  destruct H as (Hall & Hdig & _ & _ & Hrange).
  destruct Hspec as (_ & _ & _ & Hstart & _).
  split; [exact Hall |]. split; [exact Hdig |].
  split.
  - rewrite Hrange. destruct chunks as [| c rest]; [| reflexivity].
    simpl in Hstart. simpl. f_equal. f_equal. unfold sum_sizes in Hstart. simpl in Hstart.
    lia.
  - destruct (mc_run mapped) as [[|] | e]; split; intros H; try discriminate; reflexivity.
Qed.

(** *** The key of a cache item and the range loaded for it *)

(** X22.  For an alignment above zero, the key [make_key] gives a request names
    an aligned range of [IO_OBJECT_RANGE_ALIGN] bytes that holds the start
    of the request; [load] reads exactly that range of the object of the
    request; and every request for the same object that starts inside
    that range gets the same key. *)
Theorem cache_key_names_the_loaded_range align read_object params :
  0 < align ->
  let '(obj_id, key_start, key_end) := make_key align params in
  obj_id = read_obj_id params /\
  key_start <= read_start params < key_end /\
  key_end - key_start = align /\
  load align read_object params = read_object (with_range params key_start key_end) /\
  (forall params',
     read_obj_id params' = read_obj_id params ->
     key_start <= read_start params' < key_end ->
     make_key align params' = make_key align params).
Proof.
  intros Ha. unfold make_key, load, with_range.
  pose proof (align_down_bounds (read_start params) align Ha) as Hb.
  split; [reflexivity |]. split; [exact Hb |]. split; [lia |]. split; [reflexivity |].
  intros params' Hid Hin.
  assert (Hsame : align_down (read_start params') align
                  = align_down (read_start params) align).
  { unfold align_down in *. f_equal.
    symmetry. apply (Z.div_unique_pos _ align _
                       (read_start params' - read_start params / align * align)); lia. }
  rewrite Hid, Hsame. reflexivity.
Qed.

Lemma cache_key_names_the_loaded_range_witness :
  let params := {| read_obj_id := "obj"; read_bucket := "b"; read_key := "k";
                   read_start := 10; read_end := 12 |} in
  0 < 8 /\
  make_key 8 params = ("obj"%string, 8, 16) /\
  load 8 (fun range => Return {| data_object_md :=
                                   {| md_obj_id := JStr "obj"; md_etag := JNull;
                                      md_size := JNum 0; md_create_time := JNull;
                                      md_other := [] |};
                                 data_buffer := None |}) params
    = Return {| data_object_md :=
                  {| md_obj_id := JStr "obj"; md_etag := JNull; md_size := JNum 0;
                     md_create_time := JNull; md_other := [] |};
                data_buffer := None |}.
Proof.
  intros params. split; [lia |]. split; [reflexivity |].
  pose proof (cache_key_names_the_loaded_range 8
                (fun range => Return {| data_object_md :=
                                          {| md_obj_id := JStr "obj"; md_etag := JNull;
                                             md_size := JNum 0; md_create_time := JNull;
                                             md_other := [] |};
                                        data_buffer := None |})
                params ltac:(lia)) as H.
  destruct (make_key 8 params) as [[obj_id key_start] key_end].
  destruct H as (_ & _ & _ & Hload & _). exact Hload.
Defined.

End ObjectIOFacts.

